(** * Verification of the RSTM transactional access instrumentation

    Shallow embedding of
    - [stm::make_mask] / [stm::inst::make_mask] (inst-common.hpp, inst.hpp),
    - the libitm2stm barriers [INST<T, N, A>], [is_stack_write] and the
      [BARRIERS] macro (libitm-5.12.cpp),
    - the generic [stm::inst::read_words], [read] and [write] (inst.hpp).

    Conventions.  A machine word ([void*], [uintptr_t], [size_t]) is a [Z]
    in [0, 2^(8*W)), where [W] is [sizeof(void* )]; unsigned arithmetic is
    written with its wrap-around.  The targets of the repository are x86
    (ia32 and x86-64), so the unions that overlay words and bytes are read
    little-endian: byte [k] of a word is bits [8k .. 8k+8).  A value of a
    type [T] is the list of its [sizeof(T)] bytes; "bit-identical" is
    equality of these lists.  Addresses are byte addresses. *)

From Stdlib Require Import ZArith List Lia Bool Arith.
From coqutil Require Import Byte Word.LittleEndianList.
Import ListNotations.

Local Open Scope Z_scope.

(** ** Bytes of a word *)

(** Byte [k] of the in-memory image of the word [w]. *)
Definition byte_of (w : Z) (k : nat) : byte :=
  byte.of_Z (Z.shiftr w (8 * Z.of_nat k)).

(** ** Mask arithmetic *)

Section Mask.

Variable W : nat.                      (* sizeof(void* ) *)

(** Reduction of an unsigned word-sized result. *)
Definition wrap (x : Z) : Z := x mod 2 ^ (8 * Z.of_nat W).

(** [make_mask(i, j)]:
<<
      uintptr_t mask = ~(uintptr_t)0;
      mask = mask >> (8 * (sizeof(void* ) - j + i));
      mask = mask << (8 * i);
      return mask;
>>
    [sizeof(void* ) - j + i] is evaluated left to right in [size_t].  A shift
    count of [8*W] or more is undefined in C; [Z.shiftr] and [Z.shiftl]
    then give the mathematical shift, and no theorem below reaches it. *)
Definition make_mask (i j : nat) : Z :=
  let mask := wrap (Z.lnot 0) in
  let mask :=
    Z.shiftr mask
      (wrap (8 * wrap (wrap (Z.of_nat W - Z.of_nat j) + Z.of_nat i))) in
  let mask := wrap (Z.shiftl mask (wrap (8 * Z.of_nat i))) in
  mask.

(** [min] of inst-common.hpp / inst.hpp. *)
Definition min (lhs rhs : nat) : nat := if (lhs <? rhs)%nat then lhs else rhs.

End Mask.

(** ** The machine the barriers run on *)

(** What a barrier does that its environment can observe, in program
    order. *)
Inductive event : Type :=
| TmRead (addr mask : Z)               (* transactional masked read *)
| TmWrite (addr val mask : Z)          (* transactional masked write *)
| UndoLog (addr : Z) (old : list byte) (* append to a scope's undo log *)
| Store (addr : Z) (val : list byte).  (* plain, uninstrumented store *)

(** [St] is the state of the STM algorithm, opaque to the barriers. *)
Record machine (St : Type) : Type := Machine {
  tm : St;
  mem : Z -> byte;                     (* memory as plain accesses see it *)
  undo : list (Z * list byte);         (* undo log of the inner scope *)
  trace : list event }.

Arguments Machine {St} _ _ _ _.
Arguments tm {St} _.
Arguments mem {St} _.
Arguments undo {St} _.
Arguments trace {St} _.

(** State passing for code that runs inside a transaction. *)
Definition M (St A : Type) : Type := machine St -> A * machine St.

Definition ret {St A : Type} (a : A) : M St A := fun m => (a, m).

Definition bind {St A B : Type} (c : M St A) (k : A -> M St B)
  : M St B :=
  fun m => let (a, m') := c m in k a m'.

Notation "x <- c ;; k" := (bind c (fun x => k))
  (at level 61, c at next level, right associativity).
Notation "c ;;; k" := (bind c (fun _ => k))
  (at level 61, right associativity).

(** The transactional primitives, as a barrier calls them. *)
Definition call_read {St : Type} (rd : Z -> Z -> St -> Z * St)
    (addr mask : Z) : M St Z :=
  fun m =>
    let (w, s) := rd addr mask (tm m) in
    (w, Machine s (mem m) (undo m) (trace m ++ [TmRead addr mask])).

Definition call_write {St : Type} (wr : Z -> Z -> Z -> St -> St)
    (addr val mask : Z) : M St unit :=
  fun m =>
    (tt, Machine (wr addr val mask (tm m)) (mem m) (undo m)
           (trace m ++ [TmWrite addr val mask])).

(** [*address] and [*address = value] on a [T] of [sz] bytes. *)
Definition plain_load {St : Type} (sz : nat) (addr : Z) : M St (list byte) :=
  fun m => (map (fun k => mem m (addr + Z.of_nat k)) (seq 0 sz), m).

Definition store_mem (f : Z -> byte) (addr : Z) (val : list byte)
  : Z -> byte :=
  fun a =>
    if (addr <=? a) && (a <? addr + Z.of_nat (length val))
    then nth (Z.to_nat (a - addr)) val Byte.x00
    else f a.

Definition plain_store {St : Type} (addr : Z) (val : list byte)
  : M St unit :=
  fun m =>
    (tt, Machine (tm m) (store_mem (mem m) addr val) (undo m)
           (trace m ++ [Store addr val])).

(** ** Unions of words and bytes *)

(** [l[i] = x]; a store past the end of the array falls outside the union
    and leaves its elements as they are. *)
Fixpoint upd {A : Type} (l : list A) (i : nat) (x : A) : list A :=
  match l, i with
  | [], _ => []
  | _ :: t, O => x :: t
  | h :: t, S i' => h :: upd t i' x
  end.

Section Union.

Variable W : nat.                      (* sizeof(void* ) *)

(** [base + i] on a [void**]. *)
Definition padd (base : Z) (i : nat) : Z := base + Z.of_nat (i * W).

(** The [uint8_t] view of a [void*] array. *)
Definition words_bytes (ws : list Z) : list byte := flat_map (le_split W) ws.

(** The [void*] view, [n] words long, of a byte array. *)
Definition bytes_words (n : nat) (bs : list byte) : list Z :=
  map (fun i => le_combine (firstn W (skipn (i * W) bs))) (seq 0 n).

(** [*reinterpret_cast<T*>(bytes + off)] for a [T] of [sz] bytes. *)
Definition load_T (sz : nat) (bs : list byte) (off : nat) : list byte :=
  firstn sz (skipn off bs).

(** [*reinterpret_cast<T*>(bytes + off) = value]. *)
Definition store_T (bs : list byte) (off : nat) (value : list byte)
  : list byte :=
  firstn off bs ++ value ++ skipn (off + length value) bs.

(** Modelled from the spec: Utilities.h, which declares [base_of] and
    [offset_of], is not among the sources.  The spec has "base: addr
    rounded down to the nearest word boundary" and "offset: addr - base,
    always < wordsize". *)
Definition base_of (addr : Z) : Z := addr - addr mod Z.of_nat W.

Definition offset_of (addr : Z) : nat := Z.to_nat (addr mod Z.of_nat W).

End Union.

(** ** libitm-5.12.cpp *)

(** [TxThread]: the barriers reach the algorithm through its two function
    pointers. *)
Record TxThread : Type := {
  tx_state : Type;
  tmread : Z -> Z -> tx_state -> Z * tx_state;        (* addr, mask *)
  tmwrite : Z -> Z -> Z -> tx_state -> tx_state }.    (* addr, val, mask *)

(** What [is_stack_write] asks of an [_ITM_transaction]:
    [tx->inner()->stackHigh()] and [tx->outer()->stackHigh()]. *)
Record ITM_transaction : Type := {
  inner_stackHigh : Z;
  outer_stackHigh : Z }.

Section Libitm.

Variable W : nat.                      (* sizeof(void* ) *)
Variable tx : TxThread.
(** Content of automatic storage that was never written, by byte. *)
Variable uninit : nat -> byte.

(** [for (size_t i = a; i < N; ++i) cast.from[i] = tx.tmread(&tx, base + i,
    mask);], over the indices [idx]. *)
Fixpoint read_loop (base mask : Z) (idx : list nat) (from : list Z)
  : M (tx_state tx) (list Z) :=
  match idx with
  | [] => ret from
  | i :: idx' =>
      w <- call_read (tmread tx) (padd W base i) mask ;;
      read_loop base mask idx' (upd from i w)
  end.

(** [for (size_t i = a; i < N; ++i) tx.tmwrite(&tx, base + i, cast.to[i],
    mask);]. *)
Fixpoint write_loop (base mask : Z) (idx : list nat) (to : list Z)
  : M (tx_state tx) unit :=
  match idx with
  | [] => ret tt
  | i :: idx' =>
      call_write (tmwrite tx) (padd W base i) (nth i to 0) mask ;;;
      write_loop base mask idx' to
  end.

(** [INST<T, N, false>::ReadUnaligned]; [cast.from] starts out
    uninitialised. *)
Definition ReadUnaligned (sz N : nat) (addr : Z) (offset : nat)
  : M (tx_state tx) (list byte) :=
  let from := bytes_words W (N + 1) (map uninit (seq 0 ((N + 1) * W))) in
  let base := base_of W addr in
  let mask := make_mask W offset W in
  w0 <- call_read (tmread tx) base mask ;;
  let from := upd from 0 w0 in
  let mask := make_mask W 0 W in
  from <- read_loop base mask (seq 1 (N - 1)) from ;;
  let mask := make_mask W 0 offset in
  wN <- call_read (tmread tx) (padd W base N) mask ;;
  let from := upd from N wN in
  ret (load_T sz (words_bytes W from) offset).

(** [INST<T, N, false>::WriteUnaligned]; [cast = {{0}}]. *)
Definition WriteUnaligned (N : nat) (addr : Z) (value : list byte)
    (offset : nat) : M (tx_state tx) unit :=
  let from := store_T (repeat Byte.x00 ((N + 1) * W)) offset value in
  let to := bytes_words W (N + 1) from in
  let base := base_of W addr in
  let mask := make_mask W offset W in
  call_write (tmwrite tx) base (nth 0 to 0) mask ;;;
  let mask := make_mask W 0 W in
  write_loop base mask (seq 1 (N - 1)) to ;;;
  let mask := make_mask W 0 offset in
  call_write (tmwrite tx) (padd W base N) (nth N to 0) mask.

(** [INST<T, N, true>::Read]: [union { void* from[N]; T to; }], of which
    the bytes of [to] past [from] are never written. *)
Definition INST_N_true_Read (sz N : nat) (addr : Z)
  : M (tx_state tx) (list byte) :=
  let from := bytes_words W N (map uninit (seq 0 (N * W))) in
  let address := addr in
  let mask := make_mask W 0 W in
  from <- read_loop address mask (seq 0 N) from ;;
  ret (firstn sz
         (words_bytes W from ++ map uninit (seq (N * W) (sz - N * W)))).

(** [INST<T, N, true>::Write]: [cast = { value }]. *)
Definition INST_N_true_Write (N : nat) (addr : Z) (value : list byte)
  : M (tx_state tx) unit :=
  let to := bytes_words W N value in
  let address := addr in
  let mask := make_mask W 0 W in
  write_loop address mask (seq 0 N) to.

(** [INST<T, 0u, true>::Read]. *)
Definition INST_0_true_Read (sz : nat) (addr : Z)
  : M (tx_state tx) (list byte) :=
  let offset := offset_of W addr in
  let mask := make_mask W offset (offset + sz) in
  w <- call_read (tmread tx) (base_of W addr) mask ;;
  ret (load_T sz (words_bytes W [w]) offset).

(** [INST<T, 0u, true>::Write]: [cast = {0}]. *)
Definition INST_0_true_Write (addr : Z) (value : list byte)
  : M (tx_state tx) unit :=
  let offset := offset_of W addr in
  let from := store_T (repeat Byte.x00 W) offset value in
  let to := bytes_words W 1 from in
  let base := base_of W addr in
  let mask := make_mask W offset (offset + length value) in
  call_write (tmwrite tx) base (nth 0 to 0) mask.

(** The specialisation [INST<T, N, true>] that the compiler selects. *)
Definition INST_aligned_Read (sz N : nat) (addr : Z)
  : M (tx_state tx) (list byte) :=
  match N with
  | O => INST_0_true_Read sz addr
  | S _ => INST_N_true_Read sz N addr
  end.

Definition INST_aligned_Write (N : nat) (addr : Z) (value : list byte)
  : M (tx_state tx) unit :=
  match N with
  | O => INST_0_true_Write addr value
  | S _ => INST_N_true_Write N addr value
  end.

(** [INST<T, N, false>::Read]. *)
Definition INST_N_false_Read (sz N : nat) (addr : Z)
  : M (tx_state tx) (list byte) :=
  let offset := offset_of W addr in
  if (offset =? 0)%nat then INST_aligned_Read sz N addr
  else ReadUnaligned sz N addr offset.

(** [INST<T, N, false>::Write]. *)
Definition INST_N_false_Write (N : nat) (addr : Z) (value : list byte)
  : M (tx_state tx) unit :=
  let offset := offset_of W addr in
  if (offset =? 0)%nat then INST_aligned_Write N addr value
  else WriteUnaligned N addr value offset.

(** [INST<T, 0u, false>::Read]. *)
Definition INST_0_false_Read (sz : nat) (addr : Z)
  : M (tx_state tx) (list byte) :=
  let offset := offset_of W addr in
  if (offset + sz <=? W)%nat then INST_0_true_Read sz addr
  else ReadUnaligned sz 1 addr offset.

(** [INST<T, 0u, false>::Write]. *)
Definition INST_0_false_Write (addr : Z) (value : list byte)
  : M (tx_state tx) unit :=
  let offset := offset_of W addr in
  if (offset + length value <=? W)%nat then INST_0_true_Write addr value
  else WriteUnaligned 1 addr value offset.

(** [INST<T, N, A>::Read] and [::Write], by specialisation. *)
Definition INST_Read (sz N : nat) (A : bool) (addr : Z)
  : M (tx_state tx) (list byte) :=
  match N, A with
  | O, true => INST_0_true_Read sz addr
  | O, false => INST_0_false_Read sz addr
  | S _, true => INST_N_true_Read sz N addr
  | S _, false => INST_N_false_Read sz N addr
  end.

Definition INST_Write (N : nat) (A : bool) (addr : Z) (value : list byte)
  : M (tx_state tx) unit :=
  match N, A with
  | O, true => INST_0_true_Write addr value
  | O, false => INST_0_false_Write addr value
  | S _, true => INST_N_true_Write N addr value
  | S _, false => INST_N_false_Write N addr value
  end.

(** Modelled from the spec: [Scope::log] is declared in Transaction.h,
    which is not among the sources.  The spec has "append the current
    value at address to the active nested scope's undo log". *)
Definition scope_log (sz : nat) (address : Z) : M (tx_state tx) unit :=
  fun m =>
    let old := map (fun k => mem m (address + Z.of_nat k)) (seq 0 sz) in
    (tt, Machine (tm m) (mem m) (undo m ++ [(address, old)])
           (trace m ++ [UndoLog address old])).

(** [is_stack_write]; [frame] is [__builtin_frame_address(0)]. *)
Definition is_stack_write (sz : nat) (td : ITM_transaction) (frame : Z)
    (address : Z) : M (tx_state tx) bool :=
  let begin := address in
  if begin <? frame then ret false
  else if begin >? outer_stackHigh td then ret false
  else if begin <? inner_stackHigh td then ret true
  else scope_log sz address ;;; ret true.

(** The [BARRIERS(TYPE, EXT)] macro for a [TYPE] of [sz] bytes whose
    [Aligned<TYPE>::value] is [A]; the default [N] of [INST<TYPE>] is
    [sizeof(T) / sizeof(void* )]. *)
Definition ITM_R (sz : nat) (A : bool) (address : Z)
  : M (tx_state tx) (list byte) :=
  INST_Read sz (sz / W) A address.

Definition ITM_RaR := ITM_R.
Definition ITM_RaW := ITM_R.
Definition ITM_RfW := ITM_R.

Definition ITM_W (A : bool) (td : ITM_transaction) (frame : Z)
    (address : Z) (value : list byte) : M (tx_state tx) unit :=
  b <- is_stack_write (length value) td frame address ;;
  if b then plain_store address value
  else INST_Write (length value / W) A address value.

Definition ITM_WaR := ITM_W.
Definition ITM_WaW := ITM_W.

End Libitm.

(** ** inst.hpp: [stm::inst] *)

(** A read-after-write policy (the [RAW] template argument): an object
    with local storage whose [hit] may fill the word it is handed, by
    reference, and whose [merge] combines a word just read into it. *)
Record RAW (St : Type) : Type := {
  raw_local : Type;
  raw_new : raw_local;
  raw_hit : raw_local -> Z -> Z -> St -> Z -> bool * Z * raw_local;
                                       (* addr, storage, tx, mask *)
  raw_merge : raw_local -> Z -> Z -> Z (* val, storage *) }.

Arguments raw_local {St} _.
Arguments raw_new {St} _.
Arguments raw_hit {St} _ _ _ _ _ _.
Arguments raw_merge {St} _ _ _ _.

(** Modelled from the spec: [NoRAW] is declared in inst-raw.hpp, which is
    not among the sources.  The spec has "a no-op variant exists for
    read-only execution": it never hits, and merging keeps the word that
    was read. *)
Definition NoRAW (St : Type) : RAW St := {|
  raw_local := unit;
  raw_new := tt;
  raw_hit := fun r _ storage _ _ => (false, storage, r);
  raw_merge := fun _ val _ => val |}.

Section Inst.

Variable W : nat.                      (* sizeof(void* ) *)
Variable St : Type.                    (* stm::TX *)
(** The intrinsic read barriers of the TM, [(addr, mask)]. *)
Variable alg_tm_read_aligned_word : Z -> Z -> St -> Z * St.
Variable alg_tm_read_aligned_word_ro : Z -> Z -> St -> Z * St.
(** [Base<T, ALIGNED>::BaseOf] and [Offset<T, ALIGNED>::OffsetOf], of
    inst-baseof.hpp and inst-offsetof.hpp, which are not among the
    sources. *)
Variable BaseOf : bool -> Z -> Z.
Variable OffsetOf : bool -> Z -> nat.
(** Content of automatic storage that was never written, by byte. *)
Variable uninit : nat -> byte.

(** [ReadAlignedWord::Read] and [ReadAlignedWordRO::Read]. *)
Definition ReadAlignedWord : Z -> Z -> St -> Z * St :=
  alg_tm_read_aligned_word.

Definition ReadAlignedWordRO : Z -> Z -> St -> Z * St :=
  alg_tm_read_aligned_word_ro.

(** [words[i]] as an lvalue that is read; past the end of the array it
    denotes whatever follows the union. *)
Definition word_ref (words : list Z) (i : nat) : Z :=
  nth i words (le_combine (map uninit (seq (i * W) W))).

(** [if (!raw.hit(addr, words[h], tx, mask))
        raw.merge(READ::Read(addr, tx, mask), words[g]);] *)
Definition hit_or_read (raw : RAW St) (READ : Z -> Z -> St -> Z * St)
    (r : raw_local raw) (addr : Z) (h g : nat) (mask : Z) (words : list Z)
  : M St (list Z * raw_local raw) :=
  fun m =>
    let '(hit, storage, r') :=
      raw_hit raw r addr (word_ref words h) (tm m) mask in
    let words := upd words h storage in
    if hit then ((words, r'), m)
    else
      let (w, m') := call_read READ addr mask m in
      ((upd words g (raw_merge raw r' w (word_ref words g)), r'), m').

(** [for (int i = 1, e = N - 1; i < e; ++i) { if (raw.hit(base + i,
    words[i], tx, mask)) continue; raw.merge(READ::Read(base + i, tx, mask),
    words[i]); }], over the indices [idx]. *)
Fixpoint middle_words (raw : RAW St) (READ : Z -> Z -> St -> Z * St)
    (base mask : Z) (idx : list nat) (st : list Z * raw_local raw)
  : M St (list Z * raw_local raw) :=
  match idx with
  | [] => ret st
  | i :: idx' =>
      st' <- hit_or_read raw READ (snd st) (padd W base i) i i mask (fst st) ;;
      middle_words raw READ base mask idx' st'
  end.

(** [read_words<T, RAW, READ, N>(tx, words, base, off)]; the result is
    [words] as the caller finds it afterwards. *)
Definition read_words (sz : nat) (raw : RAW St)
    (READ : Z -> Z -> St -> Z * St) (N : nat)
    (words : list Z) (base : Z) (off : nat) : M St (list Z) :=
  let r := raw_new raw in
  let mask := make_mask W off (min W (off + sz)) in
  st <- hit_or_read raw READ r base 0 0 mask words ;;
  let mask := make_mask W 0 W in
  st <- middle_words raw READ base mask (seq 1 (N - 1 - 1)) st ;;
  if (1 <? N)%nat && negb (off =? 0)%nat then
    let mask := make_mask W 0 off in
    st <- hit_or_read raw READ (snd st) (padd W base N) (N - 1) N mask
            (fst st) ;;
    ret (fst st)
  else ret (fst st).

(** [read<T, PREFILTER, RAW, READ_ONLY, FORCE_ALIGNED>(addr)] for a [T] of
    [sz] bytes; [ALIGNED] is [Aligned<T, FORCE_ALIGNED>::value] and [N] is
    [Buffer<T, ALIGNED>::Words]. *)
Definition read (sz : nat) (filter : Z -> St -> bool) (raw : RAW St)
    (IsReadOnly : St -> bool) (ALIGNED : bool) (N : nat) (addr : Z)
  : M St (list byte) :=
  fun m =>
    if filter addr (tm m) then plain_load sz addr m
    else
      let base := BaseOf ALIGNED addr in
      let off := OffsetOf ALIGNED addr in
      let words := bytes_words W N (map uninit (seq 0 (N * W))) in
      let (words, m') :=
        if IsReadOnly (tm m)
        then read_words sz (NoRAW St) ReadAlignedWordRO N words base off m
        else read_words sz raw ReadAlignedWord N words base off m in
      (load_T sz (words_bytes W words) off, m').

(** [for (int i = 1, e = N - 1; i < e; ++i) write(base + i, words[i], tx,
    mask);] *)
Fixpoint write_middle (WRITE : Z -> Z -> Z -> St -> St) (base mask : Z)
    (idx : list nat) (words : list Z) : M St unit :=
  match idx with
  | [] => ret tt
  | i :: idx' =>
      call_write WRITE (padd W base i) (word_ref words i) mask ;;;
      write_middle WRITE base mask idx' words
  end.

(** [write<T, PREFILTER, WRITE, FORCE_ALIGNED>(addr, val)]; the functor
    [WRITE] takes [(addr, val, mask)]. *)
Definition write (filter : Z -> St -> bool)
    (WRITE : Z -> Z -> Z -> St -> St) (ALIGNED : bool) (N : nat)
    (addr : Z) (val : list byte) : M St unit :=
  fun m =>
    if filter addr (tm m) then plain_store addr val m
    else
      let base := BaseOf ALIGNED addr in
      let off := OffsetOf ALIGNED addr in
      let bytes := store_T (map uninit (seq 0 (N * W))) off val in
      let words := bytes_words W N bytes in
      let mask := make_mask W off (min W (off + length val)) in
      (call_write WRITE base (word_ref words 0) mask ;;;
       let mask := make_mask W 0 W in
       write_middle WRITE base mask (seq 1 (N - 1 - 1)) words ;;;
       if (1 <? N)%nat && negb (off =? 0)%nat then
         let mask := make_mask W 0 off in
         call_write WRITE (padd W base N) (word_ref words (N - 1)) mask
       else ret tt) m.

(** The words [write] hands to the functor. *)
Definition write_words (ALIGNED : bool) (N : nat) (addr : Z)
    (val : list byte) : list Z :=
  bytes_words W N
    (store_T (map uninit (seq 0 (N * W))) (OffsetOf ALIGNED addr) val).

(** A read-after-write policy that reports no hit. *)
Definition never_hits (raw : RAW St) : Prop :=
  forall r a storage s k, fst (fst (raw_hit raw r a storage s k)) = false.

End Inst.

(** ** A word store

    The simplest algorithm behind the two primitives: a map from word
    addresses to words, a masked write replacing the selected bytes and a
    masked read returning them. *)
Definition store_read (addr mask : Z) (s : Z -> Z) : Z * (Z -> Z) :=
  (Z.land (s addr) mask, s).

Definition store_write (addr val mask : Z) (s : Z -> Z) : Z -> Z :=
  fun a =>
    if a =? addr
    then Z.lor (Z.land (s a) (Z.lnot mask)) (Z.land val mask)
    else s a.

Definition store_tx : TxThread := {|
  tx_state := Z -> Z;
  tmread := store_read;
  tmwrite := store_write |}.

(** The same store with a read that hands back the whole word. *)
Definition store_read_whole (addr mask : Z) (s : Z -> Z) : Z * (Z -> Z) :=
  (s addr, s).

Definition store_tx_whole : TxThread := {|
  tx_state := Z -> Z;
  tmread := store_read_whole;
  tmwrite := store_write |}.

(** A machine that has done nothing yet. *)
Definition start {St : Type} (s : St) : machine St :=
  Machine s (fun _ => Byte.x00) [] [].

(** The templates of inst.hpp instantiated on the word store with 8-byte
    words: no prefilter, [NoRAW], never read-only, the buffered-write
    functor replaced by the store's masked write, and [BaseOf] and
    [OffsetOf] as the spec describes them (rounding down, remainder). *)
Definition store_inst_write (uninit : nat -> byte) (N : nat) (addr : Z)
    (val : list byte) : M (Z -> Z) unit :=
  write 8 (Z -> Z) (fun _ => base_of 8) (fun _ => offset_of 8) uninit
    (fun _ _ => false) store_write false N addr val.

Definition store_inst_read (uninit : nat -> byte) (sz N : nat) (addr : Z)
  : M (Z -> Z) (list byte) :=
  read 8 (Z -> Z) store_read store_read (fun _ => base_of 8)
    (fun _ => offset_of 8) uninit sz (fun _ _ => false) (NoRAW (Z -> Z))
    (fun _ => false) false N addr.

(** The bytes of the 64-bit value 0x0807060504030201. *)
Definition bytes_1_to_8 : list byte :=
  [Byte.x01; Byte.x02; Byte.x03; Byte.x04;
   Byte.x05; Byte.x06; Byte.x07; Byte.x08].

(** ** Access sequences in uniform form

    Every barrier of libitm-5.12.cpp issues a fixed list of (word index,
    mask) pairs against one base address.  The two functions below run
    such a list; the barriers are shown equal to them further down, and
    the properties of a barrier are then read off its list. *)

Section Plan.

Variable W : nat.
Variable tx : TxThread.

Fixpoint read_plan (base : Z) (plan : list (nat * Z)) (from : list Z)
  : M (tx_state tx) (list Z) :=
  match plan with
  | [] => ret from
  | p :: plan' =>
      w <- call_read (tmread tx) (padd W base (fst p)) (snd p) ;;
      read_plan base plan' (upd from (fst p) w)
  end.

Fixpoint write_plan (base : Z) (plan : list (nat * Z)) (to : list Z)
  : M (tx_state tx) unit :=
  match plan with
  | [] => ret tt
  | p :: plan' =>
      call_write (tmwrite tx) (padd W base (fst p)) (nth (fst p) to 0)
        (snd p) ;;;
      write_plan base plan' to
  end.

(** First word, middle words, last word of an unaligned access. *)
Definition unaligned_plan (N offset : nat) : list (nat * Z) :=
  (O, make_mask W offset W)
    :: map (fun i => (i, make_mask W 0 W)) (seq 1 (N - 1))
    ++ [(N, make_mask W 0 offset)].

(** The words of an aligned access. *)
Definition aligned_plan (N : nat) : list (nat * Z) :=
  map (fun i => (i, make_mask W 0 W)) (seq 0 N).

End Plan.

(** The external primitives "return for each word the bytes last stored":
    [cont s a] is the word last stored at [a] in the state [s] of the
    algorithm. *)
Definition returns_last_stored (tx : TxThread)
    (cont : tx_state tx -> Z -> Z) : Prop :=
  (forall s a k, Z.land (fst (tmread tx a k s)) k = Z.land (cont s a) k)
  /\ (forall s a k a', cont (snd (tmread tx a k s)) a' = cont s a')
  /\ (forall s a v k,
        Z.land (cont (tmwrite tx a v k s) a) k = Z.land v k)
  /\ (forall s a v k a',
        a' <> a -> cont (tmwrite tx a v k s) a' = cont s a').

(** The sizes the barriers are instantiated at: a subword type, or a type
    that fills whole words (on ia32 and on x86-64 every type of the
    [BARRIERS] list is one or the other). *)
Definition supported (W sz : nat) : Prop :=
  (0 < sz)%nat /\ ((sz < W)%nat \/ (sz mod W = 0)%nat).

(** ** The stack-locality decision in the spec's words

    "If address is below the current call frame's stack pointer: NotLocal.
    If address is above the outer scope's recorded stack-high watermark:
    NotLocal.  If address is below the inner scope's stack-high watermark:
    Direct.  Otherwise: DirectWithUndoLog." *)
Inductive locality : Type := Direct | DirectWithUndoLog | NotLocal.

Definition isStackLocal (td : ITM_transaction) (frame address : Z)
  : locality :=
  if address <? frame then NotLocal
  else if outer_stackHigh td <? address then NotLocal
  else if address <? inner_stackHigh td then Direct
  else DirectWithUndoLog.

(** The barrier appended exactly one undo-log record for [address], then
    stored [value] there, and did nothing else that can be observed. *)
Definition logs_once_then_stores {St : Type} (m m' : machine St)
    (address : Z) (value : list byte) : Prop :=
  exists old,
    trace m' = trace m ++ [UndoLog address old; Store address value].

(** Address and mask of a transactional access. *)
Definition event_addr (e : event) : option Z :=
  match e with
  | TmRead a _ => Some a
  | TmWrite a _ _ => Some a
  | _ => None
  end.

Definition event_mask (e : event) : option Z :=
  match e with
  | TmRead _ k => Some k
  | TmWrite _ _ k => Some k
  | _ => None
  end.

(** ** More of inst.hpp *)

(** [NoReadOnly::IsReadOnly]. *)
Definition NoReadOnly_IsReadOnly {St : Type} (tx : St) : bool := false.

(** A read-after-write policy that reports a hit for every word. *)
Definition always_hits {St : Type} (raw : RAW St) : Prop :=
  forall r a storage s k, fst (fst (raw_hit raw r a storage s k)) = true.

(** ** Memory behind the primitives, byte by byte *)

(** An algorithm whose masked write replaces exactly the selected bytes of
    the word and whose masked read returns them: [cont s a] is the word
    at [a] in the state [s]. *)
Definition masked_store (tx : TxThread)
    (cont : tx_state tx -> Z -> Z) : Prop :=
  (forall s a k, Z.land (fst (tmread tx a k s)) k = Z.land (cont s a) k)
  /\ (forall s a k a', cont (snd (tmread tx a k s)) a' = cont s a')
  /\ (forall s a v k,
        cont (tmwrite tx a v k s) a
        = Z.lor (Z.land (cont s a) (Z.lnot k)) (Z.land v k))
  /\ (forall s a v k a',
        a' <> a -> cont (tmwrite tx a v k s) a' = cont s a').

(** The byte [q] bytes past the word-aligned address [base]. *)
Definition mem_byte (W : nat) {St : Type} (cont : St -> Z -> Z) (s : St)
    (base : Z) (q : nat) : byte :=
  byte_of (cont s (padd W base (q / W))) (q mod W).

(** The byte at the byte address [p]. *)
Definition byte_at (W : nat) {St : Type} (cont : St -> Z -> Z) (s : St)
    (p : Z) : byte :=
  byte_of (cont s (base_of W p)) (offset_of W p).

(** A type the architecture header declares aligned is met at addresses
    where a subword value stays inside its word and a larger value starts
    on a word boundary. *)
Definition well_aligned (W sz : nat) (A : bool) (addr : Z) : Prop :=
  A = true ->
  ((sz < W)%nat -> (offset_of W addr + sz <= W)%nat)
  /\ ((W <= sz)%nat -> offset_of W addr = O).

(** Events by kind. *)
Definition is_tm_read (e : event) : bool :=
  match e with TmRead _ _ => true | _ => false end.

Definition is_tm_write (e : event) : bool :=
  match e with TmWrite _ _ _ => true | _ => false end.

Definition is_tm_access (e : event) : bool := is_tm_read e || is_tm_write e.

(** ** Proof steps used throughout *)

(** Replace a comparison of naturals by the boolean [lia] finds for it. *)
Ltac nat_true t :=
  replace t with true
    by (symmetry;
        first [apply Nat.ltb_lt | apply Nat.leb_le | apply Nat.eqb_eq]; lia).

Ltac nat_false t :=
  replace t with false
    by (symmetry;
        first [apply Nat.ltb_ge | apply Nat.leb_gt | apply Nat.eqb_neq]; lia).

Ltac nat_true_in t H :=
  replace t with true in H
    by (symmetry;
        first [apply Nat.ltb_lt | apply Nat.leb_le | apply Nat.eqb_eq]; lia).

Lemma word_bits_lin (W : nat) : 8 * Z.of_nat W < 2 ^ (8 * Z.of_nat W).
Proof.
  destruct W as [|n]; [reflexivity|].
  apply Z.pow_gt_lin_r; lia.
Qed.

Lemma wrap_small (W : nat) (x : Z) :
  0 <= x <= 8 * Z.of_nat W -> wrap W x = x.
Proof.
  intros H. unfold wrap. apply Z.mod_small.
  pose proof (word_bits_lin W). lia.
Qed.

Lemma wrap_range (W : nat) (x : Z) : 0 <= wrap W x < 2 ^ (8 * Z.of_nat W).
Proof. unfold wrap. apply Z.mod_pos_bound, Z.pow_pos_nonneg; lia. Qed.

Lemma wrap_all_ones (W : nat) : wrap W (Z.lnot 0) = Z.ones (8 * Z.of_nat W).
Proof.
  unfold wrap. rewrite <- Z.land_ones by lia.
  change (Z.lnot 0) with (-1). apply Z.land_m1_l.
Qed.

(** The count of the right shift, whenever the range is at most a word
    long and starts inside the word (the upper end [j] may exceed [W]). *)
Lemma make_mask_shift_count (W : nat) (i j : Z) :
  0 <= i <= j -> i <= Z.of_nat W -> j - i <= Z.of_nat W ->
  wrap W (8 * wrap W (wrap W (Z.of_nat W - j) + i))
  = 8 * (Z.of_nat W - (j - i)).
Proof.
  intros Hij Hi Hlen.
  assert (Hin : wrap W (wrap W (Z.of_nat W - j) + i) = Z.of_nat W - (j - i)).
  { unfold wrap. rewrite Zplus_mod_idemp_l.
    replace (Z.of_nat W - j + i) with (Z.of_nat W - (j - i)) by lia.
    apply Z.mod_small. pose proof (word_bits_lin W). lia. }
  rewrite Hin. apply wrap_small. lia.
Qed.

(** Bit-level description of a mask. *)
Lemma make_mask_testbit (W i j : nat) (n : Z) :
  (i <= j)%nat -> (i <= W)%nat -> (j - i <= W)%nat -> 0 <= n ->
  Z.testbit (make_mask W i j) n
  = (8 * Z.of_nat i <=? n) && (n <? 8 * Z.of_nat j) && (n <? 8 * Z.of_nat W).
Proof.
  intros Hij Hi Hlen Hn. unfold make_mask.
  rewrite make_mask_shift_count by lia.
  rewrite (wrap_small W (8 * Z.of_nat i)) by lia.
  rewrite wrap_all_ones.
  unfold wrap. rewrite <- Z.land_ones by lia.
  rewrite Z.land_spec, Z.shiftl_spec by assumption.
  rewrite Z.testbit_ones_nonneg by lia.
  destruct (Z.ltb_spec n (8 * Z.of_nat W)) as [Hlt | Hge];
    [rewrite andb_true_r | rewrite !andb_false_r; reflexivity].
  destruct (Z.leb_spec (8 * Z.of_nat i) n) as [Hlo | Hlo].
  - rewrite Z.shiftr_spec by lia.
    rewrite Z.testbit_ones_nonneg by lia.
    destruct (Z.ltb_spec n (8 * Z.of_nat j)),
      (Z.ltb_spec (n - 8 * Z.of_nat i
                   + 8 * (Z.of_nat W - (Z.of_nat j - Z.of_nat i)))
                  (8 * Z.of_nat W));
      cbn [andb]; try reflexivity; lia.
  - rewrite Z.testbit_neg_r by lia. reflexivity.
Qed.

Lemma byte_of_testbit (w : Z) (k : nat) (n : Z) :
  0 <= n < 8 ->
  Z.testbit (byte.unsigned (byte_of w k)) n = Z.testbit w (8 * Z.of_nat k + n).
Proof.
  intros Hn. unfold byte_of.
  rewrite byte.unsigned_of_Z. unfold byte.wrap.
  rewrite <- Z.land_ones by lia.
  rewrite Z.land_spec, Z.shiftr_spec, Z.testbit_ones_nonneg by lia.
  replace (n <? 8) with true by (symmetry; apply Z.ltb_lt; lia).
  rewrite andb_true_r. f_equal. lia.
Qed.

Lemma byte_unsigned_high (b : byte) (n : Z) :
  8 <= n -> Z.testbit (byte.unsigned b) n = false.
Proof.
  intros Hn. pose proof (byte.unsigned_range b) as Hb.
  destruct (Z.eq_dec (byte.unsigned b) 0) as [-> | Hnz];
    [apply Z.bits_0|].
  apply Z.bits_above_log2; [lia|].
  apply Z.lt_le_trans with 8; [|assumption].
  apply Z.log2_lt_pow2; lia.
Qed.

(** Two bytes are equal when they agree on their eight bits. *)
Lemma byte_eq_bits (a b : byte) :
  (forall n, 0 <= n < 8 ->
     Z.testbit (byte.unsigned a) n = Z.testbit (byte.unsigned b) n) ->
  a = b.
Proof.
  intros H. apply byte.unsigned_inj. apply Z.bits_inj'. intros n Hn.
  destruct (Z.lt_ge_cases n 8) as [Hlt | Hge].
  - apply H; lia.
  - rewrite !byte_unsigned_high by assumption. reflexivity.
Qed.

(** Byte [k] of a mask, for every range that starts inside the word and
    is at most a word long. *)
Lemma make_mask_byte_of (W i j k : nat) :
  (i <= j)%nat -> (i <= W)%nat -> (j - i <= W)%nat -> (k < W)%nat ->
  byte_of (make_mask W i j) k
  = (if (i <=? k)%nat && (k <? j)%nat then Byte.xff else Byte.x00).
Proof.
  intros Hij Hi Hlen Hk.
  apply byte_eq_bits. intros n Hn.
  rewrite byte_of_testbit by assumption.
  rewrite make_mask_testbit by lia.
  assert (Hff : Z.testbit (byte.unsigned Byte.xff) n = true).
  { change (byte.unsigned Byte.xff) with (Z.ones 8).
    rewrite Z.testbit_ones_nonneg by lia. apply Z.ltb_lt. lia. }
  assert (H00 : Z.testbit (byte.unsigned Byte.x00) n = false)
    by apply Z.bits_0.
  destruct (Nat.leb_spec i k) as [Hlo | Hlo];
    destruct (Nat.ltb_spec k j) as [Hhi | Hhi]; cbn [andb];
    rewrite ?Hff, ?H00;
    destruct (Z.leb_spec (8 * Z.of_nat i) (8 * Z.of_nat k + n));
    destruct (Z.ltb_spec (8 * Z.of_nat k + n) (8 * Z.of_nat j));
    destruct (Z.ltb_spec (8 * Z.of_nat k + n) (8 * Z.of_nat W));
    cbn [andb]; try reflexivity; lia.
Qed.

Lemma make_mask_covers (W i j k : nat) :
  (i <= k < j)%nat -> (k < W)%nat -> (j - i <= W)%nat ->
  byte_of (make_mask W i j) k = Byte.xff.
Proof.
  intros Hk HkW Hlen. rewrite make_mask_byte_of by lia.
  nat_true (i <=? k)%nat.
  nat_true (k <? j)%nat.
  reflexivity.
Qed.

(** C2: for 0 <= i < j <= wordsize, byte k of make_mask(i, j) is 0xFF when
    i <= k < j and 0x00 otherwise, for every byte index k of the word; so
    byte k is 0xFF if and only if i <= k < j.  The mask has no bit beyond
    the word. *)
Theorem make_mask_bytes (W i j k : nat) :
  (i < j <= W)%nat -> (k < W)%nat ->
  byte_of (make_mask W i j) k
    = (if (i <=? k)%nat && (k <? j)%nat then Byte.xff else Byte.x00)
  /\ (byte_of (make_mask W i j) k = Byte.xff <-> (i <= k < j)%nat)
  /\ 0 <= make_mask W i j < 2 ^ (8 * Z.of_nat W).
Proof.
  intros Hij Hk.
  pose proof (make_mask_byte_of W i j k ltac:(lia) ltac:(lia) ltac:(lia) Hk)
    as Hbyte.
  split; [exact Hbyte|]. split.
  - rewrite Hbyte.
    destruct (Nat.leb_spec i k) as [Hlo | Hlo];
      destruct (Nat.ltb_spec k j) as [Hhi | Hhi]; cbn [andb];
      split; intros H; try discriminate H; try reflexivity; lia.
  - unfold make_mask. apply wrap_range.
Qed.

(** An 8-byte-word instance: make_mask(4, 8) is 0xFFFFFFFF00000000 and its
    byte 5 is 0xFF. *)
Lemma make_mask_bytes_witness :
  (4 < 8 <= 8)%nat /\ (5 < 8)%nat /\
  byte_of (make_mask 8 4 8) 5 = Byte.xff.
Proof.
  split; [lia|]. split; [lia|].
  exact (proj1 (make_mask_bytes 8 4 8 5 ltac:(lia) ltac:(lia))).
Defined.

(** ** Lists, words and bytes *)

Lemma upd_length {A : Type} (l : list A) (i : nat) (x : A) :
  length (upd l i x) = length l.
Proof.
  revert i; induction l as [|h t IH]; intros [|i]; simpl; auto.
Qed.

Lemma upd_nth_same {A : Type} (l : list A) (i : nat) (x d : A) :
  (i < length l)%nat -> nth i (upd l i x) d = x.
Proof.
  revert i; induction l as [|h t IH]; intros [|i] H; simpl in *;
    try lia; auto. apply IH. lia.
Qed.

Lemma upd_nth_other {A : Type} (l : list A) (i j : nat) (x d : A) :
  i <> j -> nth j (upd l i x) d = nth j l d.
Proof.
  revert i j; induction l as [|h t IH]; intros [|i] [|j] H; simpl;
    try reflexivity; try congruence. apply IH. congruence.
Qed.

Lemma upd_out_of_range {A : Type} (l : list A) (i : nat) (x : A) :
  (length l <= i)%nat -> upd l i x = l.
Proof.
  revert i; induction l as [|h t IH]; intros [|i] H; simpl in *;
    try reflexivity; try lia. f_equal. apply IH. lia.
Qed.

Lemma padd_inj (W : nat) (base : Z) (i j : nat) :
  (0 < W)%nat -> padd W base i = padd W base j -> i = j.
Proof. unfold padd. intros HW H. nia. Qed.

Lemma padd_0 (W : nat) (base : Z) : padd W base 0 = base.
Proof. unfold padd. simpl. lia. Qed.

(** A byte of a word depends on the word only where a mask selects it. *)
Lemma byte_of_land_covered (x y mask : Z) (k : nat) :
  Z.land x mask = Z.land y mask -> byte_of mask k = Byte.xff ->
  byte_of x k = byte_of y k.
Proof.
  intros Hxy Hk. apply byte_eq_bits. intros n Hn.
  rewrite !byte_of_testbit by assumption.
  assert (Hm : Z.testbit mask (8 * Z.of_nat k + n) = true).
  { rewrite <- byte_of_testbit by assumption. rewrite Hk.
    change (byte.unsigned Byte.xff) with (Z.ones 8).
    rewrite Z.testbit_ones_nonneg by lia. apply Z.ltb_lt. lia. }
  apply (f_equal (fun z => Z.testbit z (8 * Z.of_nat k + n))) in Hxy.
  rewrite !Z.land_spec, Hm, !andb_true_r in Hxy. exact Hxy.
Qed.

(** Byte [k] of the word that overlays the bytes [bs]. *)
Lemma byte_of_le_combine (bs : list byte) (k : nat) :
  byte_of (le_combine bs) k = nth k bs Byte.x00.
Proof.
  revert k; induction bs as [|h t IH]; intros k.
  - destruct k; apply byte_eq_bits; intros n Hn;
      rewrite byte_of_testbit by assumption; simpl;
      rewrite Z.bits_0; symmetry; apply Z.bits_0.
  - apply byte_eq_bits. intros n Hn.
    rewrite byte_of_testbit by assumption.
    change (le_combine (h :: t))
      with (Z.lor (byte.unsigned h) (Z.shiftl (le_combine t) 8)).
    rewrite Z.lor_spec.
    destruct k as [|k].
    + cbn [nth]. rewrite Z.shiftl_spec by lia.
      rewrite (Z.testbit_neg_r _ (8 * Z.of_nat 0 + n - 8)) by lia.
      rewrite orb_false_r. f_equal; lia.
    + cbn [nth]. rewrite <- IH.
      rewrite byte_unsigned_high by lia.
      rewrite Z.shiftl_spec by lia. cbn [orb].
      rewrite byte_of_testbit by assumption. f_equal; lia.
Qed.

Lemma words_bytes_length (W : nat) (ws : list Z) :
  length (words_bytes W ws) = (length ws * W)%nat.
Proof.
  unfold words_bytes. apply flat_map_constant_length.
  intros x _. apply length_le_split.
Qed.

Lemma nth_error_words_bytes (W : nat) (ws : list Z) (i k : nat) :
  (i < length ws)%nat -> (k < W)%nat ->
  nth_error (words_bytes W ws) (i * W + k)
  = Some (byte_of (nth i ws 0) k).
Proof.
  revert i; induction ws as [|w ws IH]; intros i Hi Hk; simpl in Hi;
    [lia|].
  change (words_bytes W (w :: ws)) with (le_split W w ++ words_bytes W ws).
  destruct i as [|i].
  - rewrite nth_error_app1 by (rewrite length_le_split; lia).
    simpl. apply nth_error_le_split. assumption.
  - rewrite nth_error_app2 by (rewrite length_le_split; lia).
    rewrite length_le_split.
    replace (S i * W + k - W)%nat with (i * W + k)%nat by lia.
    cbn [nth]. apply IH; lia.
Qed.

Lemma nth_bytes_words (W n : nat) (bs : list byte) (i : nat) :
  (i < n)%nat ->
  nth i (bytes_words W n bs) 0 = le_combine (firstn W (skipn (i * W) bs)).
Proof.
  intros Hi. unfold bytes_words.
  set (f := fun j => le_combine (firstn W (skipn (j * W) bs))).
  rewrite (nth_indep _ 0 (f O))
    by (rewrite length_map, length_seq; assumption).
  rewrite map_nth, seq_nth by assumption. reflexivity.
Qed.

Lemma bytes_words_length (W n : nat) (bs : list byte) :
  length (bytes_words W n bs) = n.
Proof. unfold bytes_words. rewrite length_map, length_seq. reflexivity. Qed.

(** Byte [k] of word [i] of the word view is byte [i*W + k] of the byte
    view. *)
Lemma byte_of_bytes_words (W n : nat) (bs : list byte) (i k : nat) :
  (i < n)%nat -> (k < W)%nat ->
  byte_of (nth i (bytes_words W n bs) 0) k = nth (i * W + k) bs Byte.x00.
Proof.
  intros Hi Hk. rewrite nth_bytes_words by assumption.
  rewrite byte_of_le_combine.
  destruct (nth_error (firstn W (skipn (i * W) bs)) k) as [b|] eqn:E.
  - rewrite (nth_error_nth _ _ _ E).
    rewrite nth_error_firstn in E.
    nat_true_in (k <? W)%nat E.
    rewrite nth_error_skipn in E.
    symmetry. apply nth_error_nth. exact E.
  - rewrite (nth_error_nth_None _ _ _ E).
    rewrite nth_error_firstn in E.
    nat_true_in (k <? W)%nat E.
    rewrite nth_error_skipn in E.
    symmetry. apply nth_error_nth_None. exact E.
Qed.

Lemma store_T_nth (bs value : list byte) (off n : nat) :
  (off <= length bs)%nat -> (n < length value)%nat ->
  nth (off + n) (store_T bs off value) Byte.x00 = nth n value Byte.x00.
Proof.
  intros Hoff Hn. unfold store_T.
  rewrite app_nth2 by (rewrite length_firstn; lia).
  rewrite length_firstn.
  replace (off + n - Nat.min off (length bs))%nat with n by lia.
  apply app_nth1. assumption.
Qed.

Lemma load_T_eq (sz off : nat) (bs v : list byte) :
  length v = sz ->
  (forall n, (n < sz)%nat ->
     nth_error bs (off + n) = Some (nth n v Byte.x00)) ->
  load_T sz bs off = v.
Proof.
  intros Hlen H. apply nth_error_ext. intros n. unfold load_T.
  rewrite nth_error_firstn.
  destruct (Nat.ltb_spec n sz) as [Hlt | Hge].
  - rewrite nth_error_skipn, H by assumption.
    symmetry. apply nth_error_nth'. lia.
  - symmetry. apply nth_error_None. lia.
Qed.

(** ** The barriers of libitm-5.12.cpp as access sequences *)

Section PlanFacts.

Variable W : nat.
Variable tx : TxThread.

Lemma read_loop_plan (base mask : Z) (idx : list nat) (from : list Z)
    (m : machine (tx_state tx)) :
  read_loop W tx base mask idx from m
  = read_plan W tx base (map (fun i => (i, mask)) idx) from m.
Proof.
  revert from m; induction idx as [|i idx IH]; intros from m;
    [reflexivity|].
  cbn [read_loop read_plan map fst snd]. unfold bind.
  destruct (call_read (tmread tx) (padd W base i) mask m) as [w m1].
  apply IH.
Qed.

Lemma write_loop_plan (base mask : Z) (idx : list nat) (to : list Z)
    (m : machine (tx_state tx)) :
  write_loop W tx base mask idx to m
  = write_plan W tx base (map (fun i => (i, mask)) idx) to m.
Proof.
  revert m; induction idx as [|i idx IH]; intros m; [reflexivity|].
  cbn [write_loop write_plan map fst snd]. unfold bind.
  destruct (call_write (tmwrite tx) (padd W base i) (nth i to 0) mask m)
    as [u m1].
  apply IH.
Qed.

Lemma read_plan_app (base : Z) (p q : list (nat * Z)) (from : list Z)
    (m : machine (tx_state tx)) :
  read_plan W tx base (p ++ q) from m
  = (let (r, m') := read_plan W tx base p from m in
     read_plan W tx base q r m').
Proof.
  revert from m; induction p as [|a p IH]; intros from m; [reflexivity|].
  cbn [app read_plan]. unfold bind.
  destruct (call_read (tmread tx) (padd W base (fst a)) (snd a) m)
    as [w m1].
  apply IH.
Qed.

Lemma write_plan_app (base : Z) (p q : list (nat * Z)) (to : list Z)
    (m : machine (tx_state tx)) :
  write_plan W tx base (p ++ q) to m
  = write_plan W tx base q to (snd (write_plan W tx base p to m)).
Proof.
  revert m; induction p as [|a p IH]; intros m; [reflexivity|].
  cbn [app write_plan]. unfold bind.
  destruct (call_write (tmwrite tx) (padd W base (fst a))
              (nth (fst a) to 0) (snd a) m) as [u m1].
  apply IH.
Qed.

Lemma ReadUnaligned_plan (uninit : nat -> byte) (sz N : nat) (addr : Z)
    (offset : nat) (m : machine (tx_state tx)) :
  ReadUnaligned W tx uninit sz N addr offset m
  = (let (r, m') :=
       read_plan W tx (base_of W addr) (unaligned_plan W N offset)
         (bytes_words W (N + 1) (map uninit (seq 0 ((N + 1) * W)))) m in
     (load_T sz (words_bytes W r) offset, m')).
Proof.
  unfold ReadUnaligned, unaligned_plan.
  cbn [read_plan fst snd]. unfold bind. rewrite padd_0.
  destruct (call_read (tmread tx) (base_of W addr) (make_mask W offset W) m)
    as [w0 m1].
  rewrite read_plan_app, read_loop_plan.
  destruct (read_plan W tx (base_of W addr)
              (map (fun i => (i, make_mask W 0 W)) (seq 1 (N - 1)))
              (upd (bytes_words W (N + 1) (map uninit (seq 0 ((N + 1) * W))))
                 0 w0) m1) as [r m2].
  cbn [read_plan fst snd]. unfold bind.
  destruct (call_read (tmread tx) (padd W (base_of W addr) N)
              (make_mask W 0 offset) m2) as [wN m3].
  reflexivity.
Qed.

Lemma WriteUnaligned_plan (N : nat) (addr : Z) (value : list byte)
    (offset : nat) (m : machine (tx_state tx)) :
  WriteUnaligned W tx N addr value offset m
  = write_plan W tx (base_of W addr) (unaligned_plan W N offset)
      (bytes_words W (N + 1)
         (store_T (repeat Byte.x00 ((N + 1) * W)) offset value)) m.
Proof.
  unfold WriteUnaligned, unaligned_plan.
  cbn [write_plan fst snd]. unfold bind. rewrite padd_0.
  destruct (call_write (tmwrite tx) (base_of W addr) _ _ m) as [u m1].
  rewrite (write_plan_app _ _ [_]), write_loop_plan.
  destruct (write_plan W tx (base_of W addr)
              (map (fun i => (i, make_mask W 0 W)) (seq 1 (N - 1))) _ m1)
    as [u2 m2] eqn:E.
  cbn [write_plan fst snd]. unfold bind, ret.
  destruct (call_write (tmwrite tx) (padd W (base_of W addr) N) _ _ m2)
    as [[] m3] eqn:E3.
  reflexivity.
Qed.

Lemma INST_N_true_Read_plan (uninit : nat -> byte) (sz N : nat) (addr : Z)
    (m : machine (tx_state tx)) :
  INST_N_true_Read W tx uninit sz N addr m
  = (let (r, m') :=
       read_plan W tx addr (aligned_plan W N)
         (bytes_words W N (map uninit (seq 0 (N * W)))) m in
     (firstn sz (words_bytes W r
                 ++ map uninit (seq (N * W) (sz - N * W))), m')).
Proof.
  unfold INST_N_true_Read, aligned_plan, bind.
  rewrite read_loop_plan.
  destruct (read_plan W tx addr _ _ m) as [r m1]. reflexivity.
Qed.

Lemma INST_N_true_Write_plan (N : nat) (addr : Z) (value : list byte)
    (m : machine (tx_state tx)) :
  INST_N_true_Write W tx N addr value m
  = write_plan W tx addr (aligned_plan W N) (bytes_words W N value) m.
Proof. unfold INST_N_true_Write, aligned_plan. apply write_loop_plan. Qed.

Lemma INST_0_true_Read_plan (sz : nat) (addr : Z)
    (m : machine (tx_state tx)) :
  INST_0_true_Read W tx sz addr m
  = (let (r, m') :=
       read_plan W tx (base_of W addr)
         [(O, make_mask W (offset_of W addr) (offset_of W addr + sz))]
         [0] m in
     (load_T sz (words_bytes W r) (offset_of W addr), m')).
Proof.
  unfold INST_0_true_Read. cbn [read_plan fst snd]. unfold bind.
  rewrite padd_0.
  destruct (call_read (tmread tx) (base_of W addr) _ m) as [w m1].
  reflexivity.
Qed.

Lemma INST_0_true_Write_plan (addr : Z) (value : list byte)
    (m : machine (tx_state tx)) :
  INST_0_true_Write W tx addr value m
  = write_plan W tx (base_of W addr)
      [(O, make_mask W (offset_of W addr)
             (offset_of W addr + length value))]
      (bytes_words W 1 (store_T (repeat Byte.x00 W) (offset_of W addr) value))
      m.
Proof.
  unfold INST_0_true_Write. cbn [write_plan fst snd]. unfold bind, ret.
  rewrite padd_0.
  destruct (call_write (tmwrite tx) (base_of W addr) _ _ m) as [[] m1].
  reflexivity.
Qed.

(** What a sequence adds to the trace. *)
Lemma read_plan_trace (base : Z) (plan : list (nat * Z)) (from : list Z)
    (m : machine (tx_state tx)) :
  trace (snd (read_plan W tx base plan from m))
  = trace m ++ map (fun p => TmRead (padd W base (fst p)) (snd p)) plan.
Proof.
  revert from m; induction plan as [|p plan IH]; intros from m.
  - simpl. symmetry. apply app_nil_r.
  - cbn [read_plan map]. unfold bind.
    destruct (call_read (tmread tx) (padd W base (fst p)) (snd p) m)
      as [w m1] eqn:E.
    rewrite IH. unfold call_read in E.
    destruct (tmread tx (padd W base (fst p)) (snd p) (tm m)) as [w' s].
    inversion E; subst. cbn [trace]. rewrite <- app_assoc. reflexivity.
Qed.

Lemma write_plan_trace (base : Z) (plan : list (nat * Z)) (to : list Z)
    (m : machine (tx_state tx)) :
  trace (snd (write_plan W tx base plan to m))
  = trace m
    ++ map (fun p => TmWrite (padd W base (fst p)) (nth (fst p) to 0) (snd p))
         plan.
Proof.
  revert m; induction plan as [|p plan IH]; intros m.
  - simpl. symmetry. apply app_nil_r.
  - cbn [write_plan map]. unfold bind, call_write.
    rewrite IH. cbn [trace]. rewrite <- app_assoc. reflexivity.
Qed.

Lemma read_plan_length (base : Z) (plan : list (nat * Z)) (from : list Z)
    (m : machine (tx_state tx)) :
  length (fst (read_plan W tx base plan from m)) = length from.
Proof.
  revert from m; induction plan as [|p plan IH]; intros from m;
    [reflexivity|].
  cbn [read_plan]. unfold bind.
  destruct (call_read (tmread tx) (padd W base (fst p)) (snd p) m)
    as [w m1].
  rewrite IH. apply upd_length.
Qed.

End PlanFacts.

(** ** Write, then read, against an algorithm that returns what was stored *)

Section RoundTrip.

Variable W : nat.
Hypothesis W_pos : (0 < W)%nat.
Variable tx : TxThread.
Variable cont : tx_state tx -> Z -> Z.
Hypothesis Hcont : returns_last_stored tx cont.

Lemma read_plan_cont (base : Z) (plan : list (nat * Z)) (from : list Z)
    (m : machine (tx_state tx)) :
  NoDup (map fst plan) ->
  (forall p, In p plan -> (fst p < length from)%nat) ->
  (forall a, cont (tm (snd (read_plan W tx base plan from m))) a
             = cont (tm m) a)
  /\ (forall p, In p plan ->
        Z.land (nth (fst p) (fst (read_plan W tx base plan from m)) 0) (snd p)
        = Z.land (cont (tm m) (padd W base (fst p))) (snd p))
  /\ (forall j, ~ In j (map fst plan) ->
        nth j (fst (read_plan W tx base plan from m)) 0 = nth j from 0).
Proof.
  destruct Hcont as (Hrv & Hrk & _ & _).
  revert from m; induction plan as [|p plan IH]; intros from m Hnd Hlen.
  - repeat split; intros; try reflexivity. contradiction.
  - cbn [map] in Hnd. inversion Hnd as [|x l Hnotin Hnd']; subst.
    cbn [read_plan]. unfold bind.
    destruct (call_read (tmread tx) (padd W base (fst p)) (snd p) m)
      as [w m1] eqn:E.
    unfold call_read in E.
    pose proof (Hrv (tm m) (padd W base (fst p)) (snd p)) as Hw.
    pose proof (Hrk (tm m) (padd W base (fst p)) (snd p)) as Hk.
    destruct (tmread tx (padd W base (fst p)) (snd p) (tm m)) as [w' s].
    inversion E; subst w' m1. cbn [fst snd] in Hw, Hk.
    destruct (IH (upd from (fst p) w)
                (Machine s (mem m) (undo m)
                   (trace m ++ [TmRead (padd W base (fst p)) (snd p)]))
                Hnd') as (IHc & IHv & IHo).
    { intros q Hq. rewrite upd_length. apply Hlen. right. exact Hq. }
    split; [|split].
    + intros a. rewrite IHc. cbn [tm]. apply Hk.
    + intros q [Hq | Hq].
      * subst q. rewrite IHo by assumption.
        rewrite upd_nth_same by (apply Hlen; left; reflexivity).
        exact Hw.
      * rewrite (IHv q Hq). cbn [tm]. rewrite Hk. reflexivity.
    + intros j Hj. rewrite IHo by (intros Hin; apply Hj; right; exact Hin).
      apply upd_nth_other. intros Heq. apply Hj. left. exact Heq.
Qed.

Lemma write_plan_cont (base : Z) (plan : list (nat * Z)) (to : list Z)
    (m : machine (tx_state tx)) :
  NoDup (map fst plan) ->
  (forall p, In p plan ->
     Z.land (cont (tm (snd (write_plan W tx base plan to m)))
               (padd W base (fst p))) (snd p)
     = Z.land (nth (fst p) to 0) (snd p))
  /\ (forall a, (forall p, In p plan -> a <> padd W base (fst p)) ->
        cont (tm (snd (write_plan W tx base plan to m))) a = cont (tm m) a).
Proof.
  destruct Hcont as (_ & _ & Hws & Hwo).
  revert m; induction plan as [|p plan IH]; intros m Hnd.
  - split; intros; [contradiction | reflexivity].
  - cbn [map] in Hnd. inversion Hnd as [|x l Hnotin Hnd']; subst.
    cbn [write_plan]. unfold bind, call_write.
    set (m1 := Machine
                 (tmwrite tx (padd W base (fst p)) (nth (fst p) to 0) (snd p)
                    (tm m)) (mem m) (undo m)
                 (trace m
                  ++ [TmWrite (padd W base (fst p)) (nth (fst p) to 0)
                        (snd p)])).
    destruct (IH m1 Hnd') as (IHs & IHo).
    split.
    + intros q [Hq | Hq].
      * subst q. rewrite IHo.
        -- unfold m1. cbn [tm]. apply Hws.
        -- intros q Hq Heq. apply padd_inj in Heq; [|exact W_pos].
           apply Hnotin. rewrite Heq. apply in_map. exact Hq.
      * apply IHs. exact Hq.
    + intros a Ha. rewrite IHo by (intros q Hq; apply Ha; right; exact Hq).
      unfold m1. cbn [tm]. apply Hwo. apply Ha. left. reflexivity.
Qed.

(** After the words [to] are written along a sequence and read back along
    it, each word read agrees with the word written on the bytes its mask
    selects. *)
Lemma plan_write_read (base : Z) (plan : list (nat * Z)) (to from : list Z)
    (m : machine (tx_state tx)) (p : nat * Z) :
  NoDup (map fst plan) ->
  (forall q, In q plan -> (fst q < length from)%nat) ->
  In p plan ->
  Z.land (nth (fst p)
            (fst (read_plan W tx base plan from
                    (snd (write_plan W tx base plan to m)))) 0) (snd p)
  = Z.land (nth (fst p) to 0) (snd p).
Proof.
  intros Hnd Hlen Hp.
  destruct (read_plan_cont base plan from
              (snd (write_plan W tx base plan to m)) Hnd Hlen)
    as (_ & Hv & _).
  rewrite (Hv p Hp).
  destruct (write_plan_cont base plan to m Hnd) as (Hs & _).
  apply Hs. exact Hp.
Qed.

(** The same at the level of bytes: where some mask of the sequence
    selects byte [k] of word [i], the byte read back is the byte of the
    buffer that was written. *)
Lemma plan_write_read_byte (base : Z) (plan : list (nat * Z)) (n : nat)
    (bs : list byte) (from : list Z) (m : machine (tx_state tx))
    (i k : nat) (mask : Z) :
  NoDup (map fst plan) ->
  (forall q, In q plan -> (fst q < n)%nat) ->
  length from = n ->
  In (i, mask) plan -> (k < W)%nat -> byte_of mask k = Byte.xff ->
  nth_error
    (words_bytes W
       (fst (read_plan W tx base plan from
               (snd (write_plan W tx base plan (bytes_words W n bs) m)))))
    (i * W + k)
  = Some (nth (i * W + k) bs Byte.x00).
Proof.
  intros Hnd Hlt Hlen Hin Hk Hcov.
  assert (Hi : (i < n)%nat) by (apply (Hlt (i, mask)); exact Hin).
  rewrite nth_error_words_bytes
    by (rewrite ?read_plan_length; lia).
  f_equal.
  rewrite <- (byte_of_bytes_words W n bs i k) by assumption.
  apply byte_of_land_covered with (mask := mask); [|exact Hcov].
  apply (plan_write_read base plan (bytes_words W n bs) from m (i, mask));
    try assumption.
  intros q Hq. rewrite Hlen. apply Hlt. exact Hq.
Qed.

End RoundTrip.

(** ** The shape of the access sequences *)

Lemma fst_let_pair {A B C : Type} (x : A * B) (f : A -> C) :
  fst (let (r, m') := x in (f r, m')) = f (fst x).
Proof. destruct x; reflexivity. Qed.

Lemma snd_let_pair {A B C : Type} (x : A * B) (f : A -> C) :
  snd (let (r, m') := x in (f r, m')) = snd x.
Proof. destruct x; reflexivity. Qed.

Lemma offset_of_lt (W : nat) (addr : Z) :
  (0 < W)%nat -> (offset_of W addr < W)%nat.
Proof.
  intros HW. unfold offset_of.
  pose proof (Z.mod_pos_bound addr (Z.of_nat W) ltac:(lia)). lia.
Qed.

Lemma unaligned_plan_indices (W N offset : nat) :
  (1 <= N)%nat -> map fst (unaligned_plan W N offset) = seq 0 (N + 1).
Proof.
  intros HN. unfold unaligned_plan. cbn [map fst].
  rewrite map_app, map_map. cbn [map fst]. rewrite map_id.
  replace (N + 1)%nat with (S ((N - 1) + 1)) by lia.
  cbn [seq]. f_equal. rewrite seq_app. cbn [seq].
  repeat f_equal. lia.
Qed.

Lemma aligned_plan_indices (W N : nat) :
  map fst (aligned_plan W N) = seq 0 N.
Proof. unfold aligned_plan. rewrite map_map. cbn [fst]. apply map_id. Qed.

Lemma plan_index_bound (plan : list (nat * Z)) (n : nat) :
  map fst plan = seq 0 n ->
  forall q, In q plan -> (fst q < n)%nat.
Proof.
  intros H q Hq. apply (in_map fst) in Hq. rewrite H in Hq.
  apply in_seq in Hq. lia.
Qed.

Lemma plan_NoDup (plan : list (nat * Z)) (n : nat) :
  map fst plan = seq 0 n -> NoDup (map fst plan).
Proof. intros ->. apply seq_NoDup. Qed.

(** Which mask of an unaligned access selects byte [k] of word [i]. *)
Lemma unaligned_plan_covers (W N offset sz q : nat) :
  (1 <= N)%nat -> (0 < offset < W)%nat -> (sz <= N * W)%nat ->
  (offset <= q < offset + sz)%nat ->
  exists mask,
    In (q / W, mask)%nat (unaligned_plan W N offset)
    /\ byte_of mask (q mod W) = Byte.xff.
Proof.
  intros HN Hoff Hsz Hq.
  pose proof (Nat.div_mod_eq q W) as Hdm.
  pose proof (Nat.mod_upper_bound q W ltac:(lia)) as Hk.
  set (i := (q / W)%nat) in *. set (k := (q mod W)%nat) in *.
  assert (Hi : (i <= N)%nat) by nia.
  unfold unaligned_plan.
  destruct (Nat.eq_dec i 0) as [Hi0 | Hi0];
    [|destruct (Nat.eq_dec i N) as [HiN | HiN]].
  - exists (make_mask W offset W). split.
    + left. rewrite Hi0. reflexivity.
    + apply make_mask_covers; nia.
  - exists (make_mask W 0 offset). split.
    + right. apply in_or_app. right. left. rewrite HiN. reflexivity.
    + apply make_mask_covers; nia.
  - exists (make_mask W 0 W). split.
    + right. apply in_or_app. left.
      apply (in_map (fun j => (j, make_mask W 0 W))).
      apply in_seq. lia.
    + apply make_mask_covers; lia.
Qed.

Lemma aligned_plan_covers (W N q : nat) :
  (0 < W)%nat -> (q < N * W)%nat ->
  In (q / W, make_mask W 0 W)%nat (aligned_plan W N)
  /\ byte_of (make_mask W 0 W) (q mod W) = Byte.xff.
Proof.
  intros HW Hq.
  pose proof (Nat.div_mod_eq q W) as Hdm.
  pose proof (Nat.mod_upper_bound q W ltac:(lia)) as Hk.
  split.
  - unfold aligned_plan.
    apply (in_map (fun j => (j, make_mask W 0 W))).
    apply in_seq. split; [lia|]. cbn [Nat.add].
    apply Nat.Div0.div_lt_upper_bound. lia.
  - apply make_mask_covers; lia.
Qed.

Section RoundTripShapes.

Variable W : nat.
Hypothesis W_pos : (0 < W)%nat.
Variable tx : TxThread.
Variable cont : tx_state tx -> Z -> Z.
Hypothesis Hcont : returns_last_stored tx cont.
Variable uninit : nat -> byte.

Lemma unaligned_round_trip (N : nat) (addr : Z) (offset : nat)
    (v : list byte) (m : machine (tx_state tx)) :
  (1 <= N)%nat -> (0 < offset < W)%nat -> (length v <= N * W)%nat ->
  fst (ReadUnaligned W tx uninit (length v) N addr offset
         (snd (WriteUnaligned W tx N addr v offset m))) = v.
Proof.
  intros HN Hoff Hsz.
  rewrite ReadUnaligned_plan, WriteUnaligned_plan, fst_let_pair.
  apply load_T_eq; [reflexivity|]. intros n Hn.
  pose proof (unaligned_plan_indices W N offset HN) as Hidx.
  destruct (unaligned_plan_covers W N offset (length v) (offset + n)
              HN Hoff Hsz ltac:(lia)) as (mask & Hin & Hcov).
  pose proof (Nat.div_mod_eq (offset + n) W) as Hdm.
  rewrite Hdm at 1.
  rewrite (Nat.mul_comm W).
  rewrite (plan_write_read_byte W W_pos tx cont Hcont (base_of W addr)
             (unaligned_plan W N offset) (N + 1) _ _ m
             ((offset + n) / W)%nat ((offset + n) mod W)%nat mask).
  - rewrite (Nat.mul_comm _ W), <- Hdm.
    rewrite store_T_nth; [reflexivity | | assumption].
    rewrite repeat_length. nia.
  - apply (plan_NoDup _ _ Hidx).
  - apply (plan_index_bound _ _ Hidx).
  - apply bytes_words_length.
  - exact Hin.
  - apply Nat.mod_upper_bound. lia.
  - exact Hcov.
Qed.

Lemma aligned_round_trip (N : nat) (addr : Z) (v : list byte)
    (m : machine (tx_state tx)) :
  length v = (N * W)%nat ->
  fst (INST_N_true_Read W tx uninit (length v) N addr
         (snd (INST_N_true_Write W tx N addr v m))) = v.
Proof.
  intros Hsz.
  rewrite INST_N_true_Read_plan, INST_N_true_Write_plan, fst_let_pair.
  change (firstn (length v) ?l) with (load_T (length v) l 0).
  apply load_T_eq; [reflexivity|]. intros n Hn. cbn [Nat.add].
  pose proof (aligned_plan_indices W N) as Hidx.
  destruct (aligned_plan_covers W N n W_pos ltac:(lia)) as (Hin & Hcov).
  rewrite nth_error_app1
    by (rewrite words_bytes_length, read_plan_length, bytes_words_length;
        lia).
  pose proof (Nat.div_mod_eq n W) as Hdm.
  rewrite Hdm at 1.
  rewrite (Nat.mul_comm W).
  rewrite (plan_write_read_byte W W_pos tx cont Hcont addr
             (aligned_plan W N) N v _ m
             (n / W)%nat (n mod W)%nat (make_mask W 0 W)).
  - rewrite (Nat.mul_comm _ W), <- Hdm. reflexivity.
  - apply (plan_NoDup _ _ Hidx).
  - apply (plan_index_bound _ _ Hidx).
  - apply bytes_words_length.
  - exact Hin.
  - apply Nat.mod_upper_bound. lia.
  - exact Hcov.
Qed.

Lemma subword_round_trip (addr : Z) (v : list byte)
    (m : machine (tx_state tx)) :
  (offset_of W addr + length v <= W)%nat ->
  fst (INST_0_true_Read W tx (length v) addr
         (snd (INST_0_true_Write W tx addr v m))) = v.
Proof.
  intros Hfit.
  rewrite INST_0_true_Read_plan, INST_0_true_Write_plan, fst_let_pair.
  apply load_T_eq; [reflexivity|]. intros n Hn.
  set (off := offset_of W addr) in *.
  change (off + n)%nat with (0 * W + (off + n))%nat.
  rewrite (plan_write_read_byte W W_pos tx cont Hcont (base_of W addr)
             [(O, make_mask W off (off + length v))] 1 _ _ m
             0%nat (off + n)%nat (make_mask W off (off + length v))).
  - cbn [Nat.mul Nat.add].
    rewrite store_T_nth; [reflexivity | | assumption].
    rewrite repeat_length. lia.
  - repeat constructor. intros [].
  - intros q [<- | []]. cbn [fst]. lia.
  - reflexivity.
  - left. reflexivity.
  - lia.
  - apply make_mask_covers; lia.
Qed.

End RoundTripShapes.

(** Write then read through [INST<T, N, A>] with the default [N], against
    an algorithm that returns for each word the bytes last stored: the
    value read is the value written.  Where the architecture header
    declares [T] aligned, a subword [T] is taken not to straddle a word. *)
Theorem libitm_round_trip (W : nat) (tx : TxThread)
    (cont : tx_state tx -> Z -> Z) (uninit : nat -> byte) (A : bool)
    (addr : Z) (v : list byte) (m : machine (tx_state tx)) :
  (0 < W)%nat ->
  returns_last_stored tx cont ->
  supported W (length v) ->
  (A = true -> (length v < W)%nat ->
   (offset_of W addr + length v <= W)%nat) ->
  fst (INST_Read W tx uninit (length v) (length v / W) A addr
         (snd (INST_Write W tx (length v / W) A addr v m))) = v.
Proof.
  intros HW Hcont [Hpos Hsup] Hal.
  pose proof (offset_of_lt W addr HW) as Hoff.
  destruct Hsup as [Hsub | Hmul].
  - (* subword *)
    rewrite (Nat.div_small _ _ Hsub). destruct A; cbn [INST_Read INST_Write].
    + apply (subword_round_trip W HW tx cont Hcont). auto.
    + unfold INST_0_false_Read, INST_0_false_Write.
      destruct (Nat.leb_spec (offset_of W addr + length v) W) as [Hfit | Hov].
      * apply (subword_round_trip W HW tx cont Hcont). exact Hfit.
      * apply (unaligned_round_trip W HW tx cont Hcont); lia.
  - (* whole words *)
    pose proof (Nat.div_mod_eq (length v) W) as Hdm.
    rewrite Hmul, Nat.add_0_r in Hdm.
    assert (HN : (1 <= length v / W)%nat) by nia.
    destruct (length v / W)%nat as [|n] eqn:EN; [lia|].
    destruct A; cbn [INST_Read INST_Write].
    + apply (aligned_round_trip W HW tx cont Hcont). lia.
    + unfold INST_N_false_Read, INST_N_false_Write.
      destruct (Nat.eqb_spec (offset_of W addr) 0) as [H0 | H0].
      * cbn [INST_aligned_Read INST_aligned_Write].
        apply (aligned_round_trip W HW tx cont Hcont). lia.
      * apply (unaligned_round_trip W HW tx cont Hcont); lia.
Qed.

(** ** The stack-locality fast path *)

Section Stack.

Variable W : nat.
Variable tx : TxThread.

Lemma is_stack_write_locality (sz : nat) (td : ITM_transaction)
    (frame address : Z) (m : machine (tx_state tx)) :
  is_stack_write tx sz td frame address m
  = match isStackLocal td frame address with
    | NotLocal => (false, m)
    | Direct => (true, m)
    | DirectWithUndoLog => (true, snd (scope_log tx sz address m))
    end.
Proof.
  unfold is_stack_write, isStackLocal. rewrite Z.gtb_ltb.
  destruct (address <? frame); [reflexivity|].
  destruct (outer_stackHigh td <? address); [reflexivity|].
  destruct (address <? inner_stackHigh td); reflexivity.
Qed.

Lemma ITM_W_locality (A : bool) (td : ITM_transaction) (frame address : Z)
    (value : list byte) (m : machine (tx_state tx)) :
  ITM_W W tx A td frame address value m
  = match isStackLocal td frame address with
    | NotLocal => INST_Write W tx (length value / W) A address value m
    | Direct => plain_store address value m
    | DirectWithUndoLog =>
        plain_store address value
          (snd (scope_log tx (length value) address m))
    end.
Proof.
  unfold ITM_W, bind. rewrite is_stack_write_locality.
  destruct (isStackLocal td frame address); reflexivity.
Qed.

Lemma isStackLocal_undo (td : ITM_transaction) (frame address : Z) :
  isStackLocal td frame address = DirectWithUndoLog
  <-> frame <= address /\ address <= outer_stackHigh td
      /\ inner_stackHigh td <= address.
Proof.
  unfold isStackLocal.
  destruct (Z.ltb_spec address frame);
    destruct (Z.ltb_spec (outer_stackHigh td) address);
    destruct (Z.ltb_spec address (inner_stackHigh td));
    split; intros H'; try discriminate H'; try reflexivity; lia.
Qed.

Lemma isStackLocal_direct (td : ITM_transaction) (frame address : Z) :
  isStackLocal td frame address = Direct
  <-> frame <= address /\ address <= outer_stackHigh td
      /\ address < inner_stackHigh td.
Proof.
  unfold isStackLocal.
  destruct (Z.ltb_spec address frame);
    destruct (Z.ltb_spec (outer_stackHigh td) address);
    destruct (Z.ltb_spec address (inner_stackHigh td));
    split; intros H'; try discriminate H'; try reflexivity; lia.
Qed.

Lemma isStackLocal_not (td : ITM_transaction) (frame address : Z) :
  isStackLocal td frame address = NotLocal
  <-> address < frame \/ outer_stackHigh td < address.
Proof.
  unfold isStackLocal.
  destruct (Z.ltb_spec address frame);
    destruct (Z.ltb_spec (outer_stackHigh td) address);
    destruct (Z.ltb_spec address (inner_stackHigh td));
    split; intros H'; try discriminate H'; try reflexivity; lia.
Qed.

(** The write barrier on an address between the watermarks. *)
Lemma ITM_W_between (A : bool) (td : ITM_transaction) (frame address : Z)
    (value : list byte) (m : machine (tx_state tx)) :
  frame <= address -> address <= outer_stackHigh td ->
  inner_stackHigh td <= address ->
  let old := fst (plain_load (length value) address m) in
  let m' := snd (ITM_W W tx A td frame address value m) in
  trace m' = trace m ++ [UndoLog address old; Store address value]
  /\ undo m' = undo m ++ [(address, old)]
  /\ mem m' = store_mem (mem m) address value
  /\ tm m' = tm m.
Proof.
  intros Hf Ho Hi old m'. subst m'.
  rewrite ITM_W_locality.
  replace (isStackLocal td frame address) with DirectWithUndoLog
    by (symmetry; apply isStackLocal_undo; lia).
  unfold plain_store, scope_log, plain_load in *. cbn [snd fst trace undo mem tm].
  rewrite <- app_assoc. repeat split; reflexivity.
Qed.

Lemma store_mem_load {St : Type} (m : machine St) (address : Z)
    (value : list byte) (f : Z -> byte) :
  mem m = store_mem f address value ->
  fst (plain_load (length value) address m) = value.
Proof.
  intros Hm. unfold plain_load. cbn [fst]. rewrite Hm.
  apply nth_error_ext. intros n.
  rewrite nth_error_map.
  destruct (Nat.lt_ge_cases n (length value)) as [Hlt | Hge].
  - rewrite nth_error_nth' with (d := O) by (rewrite length_seq; lia).
    rewrite seq_nth by lia. cbn [option_map Nat.add].
    unfold store_mem.
    replace (address <=? address + Z.of_nat n) with true
      by (symmetry; apply Z.leb_le; lia).
    replace (address + Z.of_nat n <? address + Z.of_nat (length value))
      with true by (symmetry; apply Z.ltb_lt; lia).
    cbn [andb].
    replace (Z.to_nat (address + Z.of_nat n - address)) with n by lia.
    symmetry. apply nth_error_nth'. lia.
  - replace (nth_error (seq 0 (length value)) n) with (@None nat)
      by (symmetry; apply nth_error_None; rewrite length_seq; lia).
    symmetry. apply nth_error_None. lia.
Qed.

End Stack.

(** C5: the stack-locality check is the ordered decision procedure.  An
    address below the frame pointer, or else above the outer watermark, is
    not stack-local and the write is instrumented; else an address below
    the inner watermark is stored in place with nothing logged; else (an
    address between the watermarks) the undo log is appended and the value
    is then stored in place.  Each address meets exactly one of the three
    outcomes. *)
Theorem stack_locality_decision (W : nat) (tx : TxThread) (A : bool)
    (td : ITM_transaction) (frame address : Z) (value : list byte)
    (m : machine (tx_state tx)) :
  (isStackLocal td frame address = NotLocal
     <-> address < frame \/ outer_stackHigh td < address)
  /\ (isStackLocal td frame address = Direct
     <-> frame <= address /\ address <= outer_stackHigh td
         /\ address < inner_stackHigh td)
  /\ (isStackLocal td frame address = DirectWithUndoLog
     <-> frame <= address /\ address <= outer_stackHigh td
         /\ inner_stackHigh td <= address)
  /\ is_stack_write tx (length value) td frame address m
     = match isStackLocal td frame address with
       | NotLocal => (false, m)
       | Direct => (true, m)
       | DirectWithUndoLog =>
           (true, snd (scope_log tx (length value) address m))
       end
  /\ ITM_W W tx A td frame address value m
     = match isStackLocal td frame address with
       | NotLocal => INST_Write W tx (length value / W) A address value m
       | Direct => plain_store address value m
       | DirectWithUndoLog =>
           plain_store address value
             (snd (scope_log tx (length value) address m))
       end
  /\ ITM_WaR W tx A td frame address value m
     = ITM_W W tx A td frame address value m
  /\ ITM_WaW W tx A td frame address value m
     = ITM_W W tx A td frame address value m.
Proof.
  split; [apply isStackLocal_not|].
  split; [apply isStackLocal_direct|].
  split; [apply isStackLocal_undo|].
  split; [apply is_stack_write_locality|].
  split; [apply ITM_W_locality|].
  split; reflexivity.
Qed.

(** C6: a write that gets the undo-log treatment (address between the
    inner and outer stack-high watermarks) appends the prior value at the
    address to the undo log first and stores the new value second; the
    record holds what a load before the write returns, a load after the
    write returns the new value, and nothing else is done. *)
Theorem undo_log_before_store (W : nat) (tx : TxThread) (A : bool)
    (td : ITM_transaction) (frame address : Z) (value : list byte)
    (m : machine (tx_state tx)) :
  frame <= address -> address <= outer_stackHigh td ->
  inner_stackHigh td <= address ->
  let old := fst (plain_load (length value) address m) in
  let m' := snd (ITM_W W tx A td frame address value m) in
  trace m' = trace m ++ [UndoLog address old; Store address value]
  /\ undo m' = undo m ++ [(address, old)]
  /\ fst (plain_load (length value) address m') = value
  /\ tm m' = tm m.
Proof.
  intros Hf Ho Hi old m'.
  destruct (ITM_W_between W tx A td frame address value m Hf Ho Hi)
    as (Ht & Hu & Hm & Hs).
  repeat split; try assumption.
  apply (store_mem_load _ _ _ _ Hm).
Qed.

(** ** inst.hpp: what [write] and [read] issue *)

Section InstFacts.

Variable W : nat.
Variable St : Type.
Variable rd rd_ro : Z -> Z -> St -> Z * St.
Variable BaseOf : bool -> Z -> Z.
Variable OffsetOf : bool -> Z -> nat.
Variable uninit : nat -> byte.

Lemma write_middle_trace (WRITE : Z -> Z -> Z -> St -> St) (base mask : Z)
    (idx : list nat) (words : list Z) (m : machine St) :
  trace (snd (write_middle W St uninit WRITE base mask idx words m))
  = trace m
    ++ map (fun i => TmWrite (padd W base i) (word_ref W uninit words i) mask)
         idx.
Proof.
  revert m; induction idx as [|i idx IH]; intros m.
  - simpl. symmetry. apply app_nil_r.
  - cbn [write_middle map]. unfold bind, call_write.
    rewrite IH. cbn [trace]. rewrite <- app_assoc. reflexivity.
Qed.

Lemma inst_write_trace (filter : Z -> St -> bool)
    (WRITE : Z -> Z -> Z -> St -> St) (ALIGNED : bool) (N : nat) (addr : Z)
    (val : list byte) (m : machine St) :
  filter addr (tm m) = false ->
  let base := BaseOf ALIGNED addr in
  let off := OffsetOf ALIGNED addr in
  let words := write_words W OffsetOf uninit ALIGNED N addr val in
  trace (snd (write W St BaseOf OffsetOf uninit filter WRITE ALIGNED N addr
                val m))
  = trace m
    ++ TmWrite base (word_ref W uninit words 0)
         (make_mask W off (min W (off + length val)))
    :: map (fun i => TmWrite (padd W base i) (word_ref W uninit words i)
                       (make_mask W 0 W)) (seq 1 (N - 1 - 1))
    ++ (if (1 <? N)%nat && negb (off =? 0)%nat
        then [TmWrite (padd W base N) (word_ref W uninit words (N - 1))
                (make_mask W 0 off)]
        else []).
Proof.
  intros Hf base off words. unfold write. rewrite Hf.
  subst words. unfold write_words. fold base off.
  unfold bind at 1. unfold call_write at 1.
  unfold bind at 1.
  match goal with
  | |- context [write_middle W St uninit WRITE base ?k ?idx ?ws ?m0] =>
      pose proof (write_middle_trace WRITE base k idx ws m0) as Hmid;
      destruct (write_middle W St uninit WRITE base k idx ws m0)
        as [u m1]
  end.
  cbn [snd trace] in Hmid.
  destruct ((1 <? N)%nat && negb (off =? 0)%nat).
  - unfold call_write. cbn [snd trace]. rewrite Hmid.
    rewrite <- !app_assoc. reflexivity.
  - unfold ret. cbn [snd]. rewrite Hmid, app_nil_r.
    rewrite <- !app_assoc. reflexivity.
Qed.

Lemma NoRAW_never_hits : never_hits St (NoRAW St).
Proof. intros r a storage s k. reflexivity. Qed.

Lemma hit_or_read_trace (raw : RAW St) (READ : Z -> Z -> St -> Z * St)
    (r : raw_local raw) (addr : Z) (h g : nat) (mask : Z) (words : list Z)
    (m : machine St) :
  never_hits St raw ->
  trace (snd (hit_or_read W St uninit raw READ r addr h g mask words m))
  = trace m ++ [TmRead addr mask].
Proof.
  intros Hnh. unfold hit_or_read.
  pose proof (Hnh r addr (word_ref W uninit words h) (tm m) mask) as Hhit.
  destruct (raw_hit raw r addr (word_ref W uninit words h) (tm m) mask)
    as [[hit storage] r'].
  cbn [fst] in Hhit. subst hit.
  unfold call_read. destruct (READ addr mask (tm m)) as [w s].
  reflexivity.
Qed.

Lemma middle_words_trace (raw : RAW St) (READ : Z -> Z -> St -> Z * St)
    (base mask : Z) (idx : list nat) (st : list Z * raw_local raw)
    (m : machine St) :
  never_hits St raw ->
  trace (snd (middle_words W St uninit raw READ base mask idx st m))
  = trace m ++ map (fun i => TmRead (padd W base i) mask) idx.
Proof.
  intros Hnh. revert st m; induction idx as [|i idx IH]; intros st m.
  - simpl. symmetry. apply app_nil_r.
  - cbn [middle_words map]. unfold bind.
    pose proof (hit_or_read_trace raw READ (snd st) (padd W base i) i i mask
                  (fst st) m Hnh) as Hh.
    destruct (hit_or_read W St uninit raw READ (snd st) (padd W base i) i i
                mask (fst st) m) as [st' m1].
    cbn [snd] in Hh. rewrite IH, Hh. rewrite <- app_assoc. reflexivity.
Qed.

Lemma read_words_trace (sz : nat) (raw : RAW St)
    (READ : Z -> Z -> St -> Z * St) (N : nat) (words : list Z) (base : Z)
    (off : nat) (m : machine St) :
  never_hits St raw ->
  trace (snd (read_words W St uninit sz raw READ N words base off m))
  = trace m
    ++ TmRead base (make_mask W off (min W (off + sz)))
    :: map (fun i => TmRead (padd W base i) (make_mask W 0 W))
         (seq 1 (N - 1 - 1))
    ++ (if (1 <? N)%nat && negb (off =? 0)%nat
        then [TmRead (padd W base N) (make_mask W 0 off)]
        else []).
Proof.
  intros Hnh. unfold read_words. unfold bind at 1.
  pose proof (hit_or_read_trace raw READ (raw_new raw) base 0 0
                (make_mask W off (min W (off + sz))) words m Hnh) as H0.
  destruct (hit_or_read W St uninit raw READ (raw_new raw) base 0 0
              (make_mask W off (min W (off + sz))) words m) as [st0 m0].
  cbn [snd] in H0. unfold bind at 1.
  pose proof (middle_words_trace raw READ base (make_mask W 0 W)
                (seq 1 (N - 1 - 1)) st0 m0 Hnh) as H1.
  destruct (middle_words W St uninit raw READ base (make_mask W 0 W)
              (seq 1 (N - 1 - 1)) st0 m0) as [st1 m1].
  cbn [snd] in H1.
  destruct ((1 <? N)%nat && negb (off =? 0)%nat).
  - unfold bind.
    pose proof (hit_or_read_trace raw READ (snd st1) (padd W base N) (N - 1)
                  N (make_mask W 0 off) (fst st1) m1 Hnh) as H2.
    destruct (hit_or_read W St uninit raw READ (snd st1) (padd W base N)
                (N - 1) N (make_mask W 0 off) (fst st1) m1) as [st2 m2].
    cbn [snd] in H2. unfold ret. cbn [snd].
    rewrite H2, H1, H0. rewrite <- !app_assoc. reflexivity.
  - unfold ret. cbn [snd]. rewrite H1, H0, app_nil_r.
    rewrite <- !app_assoc. reflexivity.
Qed.

Lemma inst_read_trace (sz : nat) (filter : Z -> St -> bool) (raw : RAW St)
    (IsReadOnly : St -> bool) (ALIGNED : bool) (N : nat) (addr : Z)
    (m : machine St) :
  filter addr (tm m) = false -> never_hits St raw ->
  let base := BaseOf ALIGNED addr in
  let off := OffsetOf ALIGNED addr in
  trace (snd (read W St rd rd_ro BaseOf OffsetOf uninit sz filter raw
                IsReadOnly ALIGNED N addr m))
  = trace m
    ++ TmRead base (make_mask W off (min W (off + sz)))
    :: map (fun i => TmRead (padd W base i) (make_mask W 0 W))
         (seq 1 (N - 1 - 1))
    ++ (if (1 <? N)%nat && negb (off =? 0)%nat
        then [TmRead (padd W base N) (make_mask W 0 off)]
        else []).
Proof.
  intros Hf Hnh base off. unfold read. rewrite Hf. fold base off.
  destruct (IsReadOnly (tm m)).
  - rewrite snd_let_pair. apply read_words_trace. apply NoRAW_never_hits.
  - rewrite snd_let_pair. apply read_words_trace. exact Hnh.
Qed.

End InstFacts.

(** ** Two executions whose reads agree under the masks *)



Section Sim.

Variable W : nat.
Hypothesis W_pos : (0 < W)%nat.
Variables tx1 tx2 : TxThread.
Variable R : tx_state tx1 -> tx_state tx2 -> Prop.
Hypothesis Hsim : forall s1 s2 a k, R s1 s2 ->
  Z.land (fst (tmread tx1 a k s1)) k = Z.land (fst (tmread tx2 a k s2)) k
  /\ R (snd (tmread tx1 a k s1)) (snd (tmread tx2 a k s2)).



Variables uninit1 uninit2 : nat -> byte.




End Sim.

(** ** The word store returns what was stored *)

Lemma store_tx_returns_last_stored :
  returns_last_stored store_tx (fun s => s).
Proof.
  unfold returns_last_stored. cbn [store_tx tmread tmwrite tx_state].
  unfold store_read, store_write. cbn [fst snd].
  repeat split.
  - intros s a k. rewrite <- Z.land_assoc, Z.land_diag. reflexivity.
  - intros s a v k. rewrite Z.eqb_refl.
    apply Z.bits_inj'. intros n Hn.
    rewrite !Z.land_spec, Z.lor_spec, !Z.land_spec, Z.lnot_spec
      by assumption.
    destruct (Z.testbit (s a) n), (Z.testbit k n), (Z.testbit v n);
      reflexivity.
  - intros s a v k a' Hne.
    destruct (Z.eqb_spec a' a) as [Heq | _]; [contradiction | reflexivity].
Qed.

Lemma store_tx_whole_returns_last_stored :
  returns_last_stored store_tx_whole (fun s => s).
Proof.
  destruct store_tx_returns_last_stored as (_ & _ & Hws & Hwo).
  unfold returns_last_stored. repeat split.
  - exact Hws.
  - exact Hwo.
Qed.

(** The round trip of libitm-5.12.cpp on the word store: an 8-byte value
    written at offset 4 of an 8-byte word comes back. *)
Lemma libitm_round_trip_store :
  (0 < 8)%nat /\
  fst (INST_Read 8 store_tx (fun _ => Byte.xff) 8 1 false 4
         (snd (INST_Write 8 store_tx 1 false 4
                 [Byte.x01; Byte.x02; Byte.x03; Byte.x04;
                  Byte.x05; Byte.x06; Byte.x07; Byte.x08]
                 (start (fun _ => 0)))))
  = [Byte.x01; Byte.x02; Byte.x03; Byte.x04;
     Byte.x05; Byte.x06; Byte.x07; Byte.x08].
Proof.
  split; [lia|].
  apply (libitm_round_trip 8 store_tx (fun s => s) (fun _ => Byte.xff) false
           4 [Byte.x01; Byte.x02; Byte.x03; Byte.x04;
              Byte.x05; Byte.x06; Byte.x07; Byte.x08]).
  - lia.
  - exact store_tx_returns_last_stored.
  - split; [cbn; lia | right; reflexivity].
  - intros H; discriminate H.
Defined.

(** The word addresses of an unaligned access of libitm-5.12.cpp are
    [base, base+1, ..., base+N]: strictly increasing and contiguous. *)
Lemma libitm_unaligned_addresses (W : nat) (tx : TxThread)
    (uninit : nat -> byte) (sz N : nat) (addr : Z) (offset : nat)
    (value : list byte) (m : machine (tx_state tx)) :
  (1 <= N)%nat ->
  trace (snd (ReadUnaligned W tx uninit sz N addr offset m))
  = trace m
    ++ map (fun p => TmRead (padd W (base_of W addr) (fst p)) (snd p))
         (unaligned_plan W N offset)
  /\ trace (snd (WriteUnaligned W tx N addr value offset m))
  = trace m
    ++ map (fun p =>
              TmWrite (padd W (base_of W addr) (fst p))
                (nth (fst p)
                   (bytes_words W (N + 1)
                      (store_T (repeat Byte.x00 ((N + 1) * W)) offset value))
                   0)
                (snd p))
         (unaligned_plan W N offset)
  /\ map fst (unaligned_plan W N offset) = seq 0 (N + 1).
Proof.
  intros HN. split; [|split].
  - rewrite ReadUnaligned_plan, snd_let_pair. apply read_plan_trace.
  - rewrite WriteUnaligned_plan. apply write_plan_trace.
  - apply unaligned_plan_indices. exact HN.
Qed.

Lemma skipn_length_app {A : Type} (l l' : list A) :
  skipn (length l) (l ++ l') = l'.
Proof. induction l as [|h t IH]; [reflexivity | exact IH]. Qed.

Lemma map_const_repeat {A B : Type} (c : B) (l : list A) :
  map (fun _ => c) l = repeat c (length l).
Proof. induction l as [|h t IH]; [reflexivity | cbn; f_equal; exact IH]. Qed.

(** C3: an unaligned multiword access (offset != 0, N = sizeof(T) /
    wordsize >= 1) issues exactly N+1 transactional word accesses: the
    first word under the mask [offset, wordsize), each middle word under
    the full mask [0, wordsize), the final word under the mask [0, offset).
    This holds of the read and the write of libitm-5.12.cpp, and of the
    masks of [stm::inst::write] when its buffer has N+1 words. *)
Theorem unaligned_multiword_accesses (W : nat) (tx : TxThread)
    (uninit : nat -> byte) (addr : Z) (v : list byte)
    (m : machine (tx_state tx))
    (St : Type) (BaseOf : bool -> Z -> Z) (OffsetOf : bool -> Z -> nat)
    (filter : Z -> St -> bool) (WRITE : Z -> Z -> Z -> St -> St)
    (ALIGNED : bool) (mi : machine St) :
  (0 < W)%nat -> (W <= length v)%nat -> offset_of W addr <> 0%nat ->
  filter addr (tm mi) = false ->
  OffsetOf ALIGNED addr = offset_of W addr ->
  let N := (length v / W)%nat in
  let off := offset_of W addr in
  let base := base_of W addr in
  let to :=
    bytes_words W (N + 1) (store_T (repeat Byte.x00 ((N + 1) * W)) off v) in
  let after_read := snd (INST_Read W tx uninit (length v) N false addr m) in
  let after_write := snd (INST_Write W tx N false addr v m) in
  trace after_read
  = trace m
    ++ TmRead base (make_mask W off W)
    :: map (fun i => TmRead (padd W base i) (make_mask W 0 W)) (seq 1 (N - 1))
    ++ [TmRead (padd W base N) (make_mask W 0 off)]
  /\ trace after_write
  = trace m
    ++ TmWrite base (nth 0 to 0) (make_mask W off W)
    :: map (fun i => TmWrite (padd W base i) (nth i to 0) (make_mask W 0 W))
         (seq 1 (N - 1))
    ++ [TmWrite (padd W base N) (nth N to 0) (make_mask W 0 off)]
  /\ length (trace after_read) = (length (trace m) + (N + 1))%nat
  /\ length (trace after_write) = (length (trace m) + (N + 1))%nat
  /\ map event_mask
       (skipn (length (trace mi))
          (trace (snd (write W St BaseOf OffsetOf uninit filter WRITE ALIGNED
                         (N + 1) addr v mi))))
     = map Some
         (make_mask W off W :: repeat (make_mask W 0 W) (N - 1)
          ++ [make_mask W 0 off]).
Proof.
  intros HW Hsz Hoff Hf Hoffi N off base to after_read after_write.
  assert (HN : (1 <= N)%nat).
  { subst N. apply Nat.div_le_lower_bound; lia. }
  assert (Hr : trace after_read
    = trace m
      ++ TmRead base (make_mask W off W)
      :: map (fun i => TmRead (padd W base i) (make_mask W 0 W))
           (seq 1 (N - 1))
      ++ [TmRead (padd W base N) (make_mask W 0 off)]).
  { subst after_read. destruct N as [|n] eqn:EN; [lia|].
    cbn [INST_Read]. unfold INST_N_false_Read.
    destruct (Nat.eqb_spec (offset_of W addr) 0) as [H0 | _];
      [contradiction|].
    rewrite ReadUnaligned_plan, snd_let_pair, read_plan_trace.
    unfold unaligned_plan. cbn [map fst snd].
    rewrite padd_0, map_app, map_map. reflexivity. }
  assert (Hw : trace after_write
    = trace m
      ++ TmWrite base (nth 0 to 0) (make_mask W off W)
      :: map (fun i => TmWrite (padd W base i) (nth i to 0) (make_mask W 0 W))
           (seq 1 (N - 1))
      ++ [TmWrite (padd W base N) (nth N to 0) (make_mask W 0 off)]).
  { subst after_write to. destruct N as [|n] eqn:EN; [lia|].
    cbn [INST_Write]. unfold INST_N_false_Write.
    destruct (Nat.eqb_spec (offset_of W addr) 0) as [H0 | _];
      [contradiction|].
    rewrite WriteUnaligned_plan, write_plan_trace.
    unfold unaligned_plan. cbn [map fst snd].
    rewrite padd_0, map_app, map_map. reflexivity. }
  split; [exact Hr|]. split; [exact Hw|].
  split; [|split].
  - rewrite Hr, length_app. cbn [length].
    rewrite length_app, length_map, length_seq. cbn [length]. lia.
  - rewrite Hw, length_app. cbn [length].
    rewrite length_app, length_map, length_seq. cbn [length]. lia.
  - rewrite inst_write_trace by exact Hf.
    rewrite skipn_length_app. rewrite Hoffi. fold off.
    nat_true (1 <? N + 1)%nat.
    nat_false (off =? 0)%nat.
    cbn [andb negb map event_mask].
    replace (min W (off + length v)) with W
      by (unfold min;
          nat_true (W <? off + length v)%nat;
          reflexivity).
    f_equal. rewrite !map_app, !map_map. cbn [map event_mask].
    f_equal.
    replace (N + 1 - 1 - 1)%nat with (N - 1)%nat by lia.
    rewrite (map_const_repeat (Some (make_mask W 0 W))), length_seq.
    symmetry. apply map_repeat.
Qed.

(** An 8-byte value at offset 4 of an 8-byte word: N = 1, two accesses,
    under the masks [4,8) and [0,4). *)
Lemma unaligned_multiword_accesses_witness :
  (0 < 8)%nat /\ (8 <= 8)%nat /\ offset_of 8 4 <> 0%nat
  /\ trace (snd (INST_Read 8 store_tx (fun _ => Byte.x00) 8 1 false 4
                   (start (fun _ => 0))))
     = [TmRead 0 0xFFFFFFFF00000000; TmRead 8 0x00000000FFFFFFFF]
  /\ map event_mask
       (trace (snd (INST_Write 8 store_tx 1 false 4
                      [Byte.x01; Byte.x02; Byte.x03; Byte.x04;
                       Byte.x05; Byte.x06; Byte.x07; Byte.x08]
                      (start (fun _ => 0)))))
     = [Some 0xFFFFFFFF00000000; Some 0x00000000FFFFFFFF]
  /\ map event_mask
       (trace (snd (write 8 (Z -> Z) (fun _ => base_of 8)
                      (fun _ => offset_of 8) (fun _ => Byte.x00)
                      (fun _ _ => false) store_write false 2 4
                      [Byte.x01; Byte.x02; Byte.x03; Byte.x04;
                       Byte.x05; Byte.x06; Byte.x07; Byte.x08]
                      (start (fun _ => 0)))))
     = [Some 0xFFFFFFFF00000000; Some 0x00000000FFFFFFFF].
Proof.
  assert (H48 : offset_of 8 4 <> 0%nat) by (intros H; discriminate H).
  pose proof (unaligned_multiword_accesses 8 store_tx (fun _ => Byte.x00) 4
                [Byte.x01; Byte.x02; Byte.x03; Byte.x04;
                 Byte.x05; Byte.x06; Byte.x07; Byte.x08]
                (start (fun _ => 0))
                (Z -> Z) (fun _ => base_of 8) (fun _ => offset_of 8)
                (fun _ _ => false) store_write false (start (fun _ => 0))
                ltac:(lia) ltac:(cbn; lia) H48 eq_refl eq_refl)
    as (Hr & Hw & _ & _ & Hi).
  split; [lia|]. split; [lia|]. split; [exact H48|].
  split; [exact Hr|]. split; [|exact Hi].
  exact (f_equal (map event_mask) Hw).
Defined.

(** C7: a subword value (sizeof(T) < wordsize) that does not cross a word
    boundary (offset + sizeof(T) <= wordsize) is read, and is written, by
    exactly one transactional masked access, at the base word, under the
    mask [offset, offset + sizeof(T)); whether or not the type is declared
    aligned. *)
Theorem subword_single_access (W : nat) (tx : TxThread)
    (uninit : nat -> byte) (A : bool) (addr : Z) (v : list byte)
    (m : machine (tx_state tx)) :
  (length v < W)%nat -> (offset_of W addr + length v <= W)%nat ->
  let off := offset_of W addr in
  let mask := make_mask W off (off + length v) in
  let word := nth 0 (bytes_words W 1 (store_T (repeat Byte.x00 W) off v)) 0 in
  trace (snd (INST_Read W tx uninit (length v) (length v / W) A addr m))
  = trace m ++ [TmRead (base_of W addr) mask]
  /\ trace (snd (INST_Write W tx (length v / W) A addr v m))
  = trace m ++ [TmWrite (base_of W addr) word mask].
Proof.
  intros Hsub Hfit off mask word.
  rewrite (Nat.div_small _ _ Hsub).
  assert (Hr : trace (snd (INST_0_true_Read W tx (length v) addr m))
               = trace m ++ [TmRead (base_of W addr) mask]).
  { rewrite INST_0_true_Read_plan, snd_let_pair, read_plan_trace.
    cbn [map fst snd]. rewrite padd_0. reflexivity. }
  assert (Hw : trace (snd (INST_0_true_Write W tx addr v m))
               = trace m ++ [TmWrite (base_of W addr) word mask]).
  { rewrite INST_0_true_Write_plan, write_plan_trace.
    cbn [map fst snd]. rewrite padd_0. reflexivity. }
  destruct A; cbn [INST_Read INST_Write].
  - split; assumption.
  - unfold INST_0_false_Read, INST_0_false_Write. fold off.
    nat_true (off + length v <=? W)%nat.
    split; assumption.
Qed.

(** A 1-byte value at offset 7 of an 8-byte word: one access, under the
    mask [7,8). *)
Lemma subword_single_access_witness :
  (1 < 8)%nat /\ (offset_of 8 7 + 1 <= 8)%nat
  /\ trace (snd (INST_Read 8 store_tx (fun _ => Byte.x00) 1 0 false 7
                   (start (fun _ => 0))))
     = [TmRead 0 0xFF00000000000000]
  /\ trace (snd (INST_Write 8 store_tx 0 false 7 [Byte.xab]
                   (start (fun _ => 0))))
     = [TmWrite 0 0xAB00000000000000 0xFF00000000000000].
Proof.
  split; [lia|]. split; [cbn; lia|].
  exact (subword_single_access 8 store_tx (fun _ => Byte.x00) false 7
           [Byte.xab] (start (fun _ => 0)) ltac:(cbn; lia) ltac:(cbn; lia)).
Defined.

(** C8: for a subword value, [INST<T, 0u, false>] takes the generic
    unaligned path with N = 1 exactly when the value crosses a word
    boundary (offset + sizeof(T) > wordsize): the read and the write are
    then the same computations as [ReadUnaligned] and [WriteUnaligned] at
    N = 1 (same addresses, masks, words and result), and the read issues
    the accesses of an unaligned read of a full word at that address.
    When offset + sizeof(T) <= wordsize the single-access strategy is
    taken. *)
Theorem overflowing_subword_is_unaligned (W : nat) (tx : TxThread)
    (uninit : nat -> byte) (addr : Z) (v : list byte)
    (m : machine (tx_state tx)) :
  (0 < length v < W)%nat ->
  let off := offset_of W addr in
  ((W < off + length v)%nat ->
     INST_Read W tx uninit (length v) (length v / W) false addr m
     = ReadUnaligned W tx uninit (length v) 1 addr off m
     /\ INST_Write W tx (length v / W) false addr v m
        = WriteUnaligned W tx 1 addr v off m
     /\ trace (snd (INST_Read W tx uninit (length v) (length v / W) false
                      addr m))
        = trace (snd (INST_Read W tx uninit W (W / W) false addr m)))
  /\ ((off + length v <= W)%nat ->
     INST_Read W tx uninit (length v) (length v / W) false addr m
     = INST_0_true_Read W tx (length v) addr m
     /\ INST_Write W tx (length v / W) false addr v m
        = INST_0_true_Write W tx addr v m).
Proof.
  intros Hsub off.
  rewrite (Nat.div_small (length v) W) by lia.
  cbn [INST_Read INST_Write].
  unfold INST_0_false_Read, INST_0_false_Write. fold off.
  split.
  - intros Hov.
    nat_false (off + length v <=? W)%nat.
    split; [reflexivity|]. split; [reflexivity|].
    rewrite Nat.div_same by lia. cbn [INST_Read].
    unfold INST_N_false_Read. fold off.
    nat_false (off =? 0)%nat.
    rewrite !ReadUnaligned_plan, !snd_let_pair, !read_plan_trace.
    reflexivity.
  - intros Hfit.
    nat_true (off + length v <=? W)%nat.
    split; reflexivity.
Qed.

(** A 4-byte value at offset 6 of an 8-byte word crosses into the next
    word and is read as an unaligned word is: words 0 and 8, masks [6,8)
    and [0,6). *)
Lemma overflowing_subword_is_unaligned_witness :
  (0 < 4 < 8)%nat /\ (8 < offset_of 8 6 + 4)%nat
  /\ INST_Read 8 store_tx (fun _ => Byte.x00) 4 (4 / 8) false 6
       (start (fun _ => 0))
     = ReadUnaligned 8 store_tx (fun _ => Byte.x00) 4 1 6 (offset_of 8 6)
         (start (fun _ => 0))
  /\ trace (snd (INST_Read 8 store_tx (fun _ => Byte.x00) 4 (4 / 8) false 6
                   (start (fun _ => 0))))
     = [TmRead 0 0xFFFF000000000000; TmRead 8 0x0000FFFFFFFFFFFF].
Proof.
  split; [lia|]. split; [cbn; lia|].
  destruct (overflowing_subword_is_unaligned 8 store_tx (fun _ => Byte.x00) 6
              [Byte.x01; Byte.x02; Byte.x03; Byte.x04] (start (fun _ => 0))
              ltac:(cbn; lia)) as (Hov & _).
  destruct (Hov ltac:(cbn; lia)) as (Hr & _ & _).
  split; [exact Hr|]. reflexivity.
Defined.

(** A one-byte write at address 250, between an inner watermark of 200
    and an outer watermark of 300, from a frame at 100. *)
Lemma undo_log_before_store_witness :
  100 <= 250 /\ 250 <= 300 /\ 200 <= 250
  /\ trace (snd (ITM_W 8 store_tx false
                   {| inner_stackHigh := 200; outer_stackHigh := 300 |}
                   100 250 [Byte.x2a] (start (fun _ => 0))))
     = [UndoLog 250 [Byte.x00]; Store 250 [Byte.x2a]].
Proof.
  split; [lia|]. split; [lia|]. split; [lia|].
  exact (proj1 (undo_log_before_store 8 store_tx false
                  {| inner_stackHigh := 200; outer_stackHigh := 300 |}
                  100 250 [Byte.x2a] (start (fun _ => 0))
                  ltac:(cbn; lia) ltac:(cbn; lia) ltac:(cbn; lia))).
Defined.

(** A write below the inner watermark is never logged: it is either not
    stack-local or stored in place. *)
Lemma write_below_inner_not_logged (td : ITM_transaction)
    (frame address : Z) :
  address < inner_stackHigh td ->
  isStackLocal td frame address <> DirectWithUndoLog.
Proof.
  intros Hlt H. apply isStackLocal_undo in H. lia.
Qed.

(** C9, as the spec states it, fails.  A write one byte below the inner
    watermark (199 = 200 - 1) and above the outer watermark (150) is above
    the outer watermark, so [is_stack_write] answers false, nothing is
    logged and the write is instrumented.  With the outer watermark where
    a downward-growing stack has it (300), the same address is below the
    inner watermark and is stored in place, again with nothing logged.
    An address between the watermarks (201) that lies below the barrier's
    frame (208) is not logged either. *)
Lemma write_below_inner_above_outer_not_logged :
  199 = inner_stackHigh {| inner_stackHigh := 200; outer_stackHigh := 150 |}
        - 1
  /\ outer_stackHigh {| inner_stackHigh := 200; outer_stackHigh := 150 |}
     < 199
  /\ ~ logs_once_then_stores
         (start (fun _ : Z => 0))
         (snd (ITM_W 8 store_tx false
                 {| inner_stackHigh := 200; outer_stackHigh := 150 |}
                 100 199 [Byte.x2a] (start (fun _ => 0))))
         199 [Byte.x2a]
  /\ trace (snd (ITM_W 8 store_tx false
                   {| inner_stackHigh := 200; outer_stackHigh := 150 |}
                   100 199 [Byte.x2a] (start (fun _ => 0))))
     = [TmWrite 192 0x2A00000000000000 0xFF00000000000000]
  /\ trace (snd (ITM_W 8 store_tx false
                   {| inner_stackHigh := 200; outer_stackHigh := 300 |}
                   100 199 [Byte.x2a] (start (fun _ => 0))))
     = [Store 199 [Byte.x2a]]
  /\ trace (snd (ITM_W 8 store_tx false
                   {| inner_stackHigh := 200; outer_stackHigh := 300 |}
                   208 201 [Byte.x2a] (start (fun _ => 0))))
     = [TmWrite 200 0x2A00 0xFF00].
Proof.
  split; [reflexivity|]. split; [cbn; lia|].
  split; [|repeat split; reflexivity].
  intros [old H]. vm_compute in H. discriminate H.
Qed.

(** C9, amended: a write to an address one byte above the inner scope's
    stack-high watermark and below the outer watermark, the address not
    being below the barrier's frame, appends exactly one record to the
    undo log and then stores. *)
Theorem write_above_inner_below_outer_logged (W : nat) (tx : TxThread)
    (A : bool) (td : ITM_transaction) (frame address : Z)
    (value : list byte) (m : machine (tx_state tx)) :
  frame <= address ->
  address = inner_stackHigh td + 1 -> address < outer_stackHigh td ->
  logs_once_then_stores m
    (snd (ITM_W W tx A td frame address value m)) address value
  /\ undo (snd (ITM_W W tx A td frame address value m))
     = undo m ++ [(address, fst (plain_load (length value) address m))].
Proof.
  intros Hf Hi Ho.
  destruct (ITM_W_between W tx A td frame address value m Hf
              ltac:(lia) ltac:(lia)) as (Ht & Hu & _ & _).
  split; [|exact Hu].
  exists (fst (plain_load (length value) address m)). exact Ht.
Qed.

Lemma write_above_inner_below_outer_logged_witness :
  100 <= 201 /\ 201 = 200 + 1 /\ 201 < 300
  /\ undo (snd (ITM_W 8 store_tx false
                  {| inner_stackHigh := 200; outer_stackHigh := 300 |}
                  100 201 [Byte.x2a] (start (fun _ => 0))))
     = [(201, [Byte.x00])].
Proof.
  split; [lia|]. split; [lia|]. split; [lia|].
  exact (proj2 (write_above_inner_below_outer_logged 8 store_tx false
                  {| inner_stackHigh := 200; outer_stackHigh := 300 |}
                  100 201 [Byte.x2a] (start (fun _ => 0))
                  ltac:(cbn; lia) eq_refl ltac:(cbn; lia))).
Defined.



(** ** inst.hpp: the last word of an unaligned access *)

(** With more than one buffer word and a nonzero offset, [write] sends the
    last buffer word, [words[N - 1]], to the address [base + N]: the word
    at [base + N - 1] is not written. *)
Lemma inst_write_addresses (W : nat) (St : Type) (BaseOf : bool -> Z -> Z)
    (OffsetOf : bool -> Z -> nat) (uninit : nat -> byte)
    (filter : Z -> St -> bool) (WRITE : Z -> Z -> Z -> St -> St)
    (ALIGNED : bool) (N : nat) (addr : Z) (val : list byte)
    (m : machine St) :
  filter addr (tm m) = false -> (1 < N)%nat ->
  OffsetOf ALIGNED addr <> 0%nat ->
  map event_addr
    (skipn (length (trace m))
       (trace (snd (write W St BaseOf OffsetOf uninit filter WRITE ALIGNED N
                      addr val m))))
  = map (fun i => Some (padd W (BaseOf ALIGNED addr) i))
      (seq 0 (N - 1) ++ [N]).
Proof.
  intros Hf HN Hoff.
  rewrite inst_write_trace by exact Hf.
  rewrite skipn_length_app.
  nat_true (1 <? N)%nat.
  nat_false (OffsetOf ALIGNED addr =? 0)%nat.
  cbn [andb negb map event_addr].
  assert (Hseq : seq 0 (N - 1) = O :: seq 1 (N - 1 - 1)).
  { replace (N - 1)%nat with (S (N - 1 - 1)) at 1 by lia. reflexivity. }
  rewrite Hseq. cbn [app map]. rewrite padd_0.
  rewrite !map_app, map_map. reflexivity.
Qed.

Lemma inst_read_addresses (W : nat) (St : Type)
    (rd rd_ro : Z -> Z -> St -> Z * St) (BaseOf : bool -> Z -> Z)
    (OffsetOf : bool -> Z -> nat) (uninit : nat -> byte) (sz : nat)
    (filter : Z -> St -> bool) (raw : RAW St) (IsReadOnly : St -> bool)
    (ALIGNED : bool) (N : nat) (addr : Z) (m : machine St) :
  filter addr (tm m) = false -> never_hits St raw -> (1 < N)%nat ->
  OffsetOf ALIGNED addr <> 0%nat ->
  map event_addr
    (skipn (length (trace m))
       (trace (snd (read W St rd rd_ro BaseOf OffsetOf uninit sz filter raw
                      IsReadOnly ALIGNED N addr m))))
  = map (fun i => Some (padd W (BaseOf ALIGNED addr) i))
      (seq 0 (N - 1) ++ [N]).
Proof.
  intros Hf Hnh HN Hoff.
  rewrite inst_read_trace by assumption.
  rewrite skipn_length_app.
  nat_true (1 <? N)%nat.
  nat_false (OffsetOf ALIGNED addr =? 0)%nat.
  cbn [andb negb map event_addr].
  assert (Hseq : seq 0 (N - 1) = O :: seq 1 (N - 1 - 1)).
  { replace (N - 1)%nat with (S (N - 1 - 1)) at 1 by lia. reflexivity. }
  rewrite Hseq. cbn [app map]. rewrite padd_0.
  rewrite !map_app, map_map. reflexivity.
Qed.

(** C1, on inst.hpp: the 8-byte value 0x0807060504030201 written at
    offset 4 of an 8-byte word through a two-word buffer does not come
    back.  Its upper half is sent to the word at byte 16 instead of the
    word at byte 8, and the read puts what it fetches from byte 16 past
    the end of its buffer, so the upper half of the result is whatever
    the buffer held before (zeros in the first run, 0xFF in the second).
    The barriers of libitm-5.12.cpp return the value, and so does inst.hpp
    for a value that stays inside one word. *)
Theorem inst_round_trip_fails :
  fst (store_inst_read (fun _ => Byte.x00) 8 2 4
         (snd (store_inst_write (fun _ => Byte.x00) 2 4 bytes_1_to_8
                 (start (fun _ => 0)))))
  = [Byte.x01; Byte.x02; Byte.x03; Byte.x04;
     Byte.x00; Byte.x00; Byte.x00; Byte.x00]
  /\ fst (store_inst_read (fun _ => Byte.xff) 8 2 4
            (snd (store_inst_write (fun _ => Byte.xff) 2 4 bytes_1_to_8
                    (start (fun _ => 0)))))
     = [Byte.x01; Byte.x02; Byte.x03; Byte.x04;
        Byte.xff; Byte.xff; Byte.xff; Byte.xff]
  /\ trace (snd (store_inst_write (fun _ => Byte.x00) 2 4 bytes_1_to_8
                   (start (fun _ => 0))))
     = [TmWrite 0 0x0403020100000000 0xFFFFFFFF00000000;
        TmWrite 16 0x0000000008070605 0x00000000FFFFFFFF]
  /\ fst (INST_Read 8 store_tx (fun _ => Byte.x00) 8 1 false 4
            (snd (INST_Write 8 store_tx 1 false 4 bytes_1_to_8
                    (start (fun _ => 0)))))
     = bytes_1_to_8
  /\ fst (store_inst_read (fun _ => Byte.xff) 4 1 4
            (snd (store_inst_write (fun _ => Byte.xff) 1 4
                    [Byte.x01; Byte.x02; Byte.x03; Byte.x04]
                    (start (fun _ => 0)))))
     = [Byte.x01; Byte.x02; Byte.x03; Byte.x04].
Proof. repeat split; vm_compute; reflexivity. Qed.

(** C4, on inst.hpp: for the same access the word addresses handed to the
    transactional primitives are byte 0 and byte 16, by the write and by
    the read alike: base and base + 2, the word at base + 1 (byte 8) being
    skipped.  With a three-word buffer they are base, base + 1 and
    base + 3.  The unaligned path of libitm-5.12.cpp touches bytes 0 and 8
    for the same access. *)
Theorem inst_word_addresses_not_contiguous :
  map event_addr
    (trace (snd (store_inst_write (fun _ => Byte.x00) 2 4 bytes_1_to_8
                   (start (fun _ => 0)))))
  = [Some 0; Some 16]
  /\ map event_addr
       (trace (snd (store_inst_read (fun _ => Byte.x00) 8 2 4
                      (start (fun _ => 0)))))
     = [Some 0; Some 16]
  /\ map event_addr
       (trace (snd (store_inst_read (fun _ => Byte.x00) 16 3 4
                      (start (fun _ => 0)))))
     = [Some 0; Some 8; Some 24]
  /\ map event_addr
       (trace (snd (INST_Read 8 store_tx (fun _ => Byte.x00) 8 1 false 4
                      (start (fun _ => 0)))))
     = [Some 0; Some 8].
Proof. repeat split; vm_compute; reflexivity. Qed.

(** ** inst.hpp: the buffer word the read never fills *)

Section InstLastWord.

Variable W : nat.
Hypothesis W_pos : (0 < W)%nat.
Variable St : Type.
Variable rd rd_ro : Z -> Z -> St -> Z * St.
Variable BaseOf : bool -> Z -> Z.
Variable OffsetOf : bool -> Z -> nat.
Variable uninit : nat -> byte.

Lemma upd_word_ref (words : list Z) (h : nat) :
  upd words h (word_ref W uninit words h) = words.
Proof.
  unfold word_ref.
  generalize (le_combine (map uninit (seq (h * W) W))) as d.
  revert h; induction words as [|w ws IH]; intros [|h] d; cbn [upd nth];
    try reflexivity.
  f_equal. apply IH.
Qed.

(** Under [NoRAW] a word access stores the fetched word at index [g] and
    nothing else. *)
Lemma hit_or_read_NoRAW (READ : Z -> Z -> St -> Z * St)
    (r : raw_local (NoRAW St))
    (addr : Z) (h g : nat) (mask : Z) (words : list Z) (m : machine St) :
  fst (fst (hit_or_read W St uninit (NoRAW St) READ r addr h g mask words m))
  = upd words g (fst (READ addr mask (tm m))).
Proof.
  unfold hit_or_read. cbn [NoRAW raw_hit raw_merge].
  rewrite upd_word_ref. unfold call_read.
  destruct (READ addr mask (tm m)) as [w s]. reflexivity.
Qed.

Lemma middle_words_NoRAW_others (READ : Z -> Z -> St -> Z * St)
    (base mask : Z) (idx : list nat)
    (st : list Z * raw_local (NoRAW St)) (m : machine St) (j : nat) :
  ~ In j idx ->
  nth j (fst (fst (middle_words W St uninit (NoRAW St) READ base mask idx
                     st m))) 0
  = nth j (fst st) 0.
Proof.
  revert st m; induction idx as [|i idx IH]; intros st m Hj;
    [reflexivity|].
  cbn [middle_words]. unfold bind.
  pose proof (hit_or_read_NoRAW READ (snd st) (padd W base i) i i mask
                (fst st) m) as Hh.
  destruct (hit_or_read W St uninit (NoRAW St) READ (snd st) (padd W base i)
              i i mask (fst st) m) as [st' m1].
  cbn [fst] in Hh.
  rewrite IH by (intros Hin; apply Hj; right; exact Hin).
  rewrite Hh. apply upd_nth_other. intros Heq. apply Hj. left. exact Heq.
Qed.

Lemma middle_words_NoRAW_length (READ : Z -> Z -> St -> Z * St)
    (base mask : Z) (idx : list nat)
    (st : list Z * raw_local (NoRAW St)) (m : machine St) :
  length (fst (fst (middle_words W St uninit (NoRAW St) READ base mask idx
                      st m)))
  = length (fst st).
Proof.
  revert st m; induction idx as [|i idx IH]; intros st m; [reflexivity|].
  cbn [middle_words]. unfold bind.
  pose proof (hit_or_read_NoRAW READ (snd st) (padd W base i) i i mask
                (fst st) m) as Hh.
  destruct (hit_or_read W St uninit (NoRAW St) READ (snd st) (padd W base i)
              i i mask (fst st) m) as [st' m1].
  cbn [fst] in Hh. rewrite IH, Hh. apply upd_length.
Qed.

(** With more than one word and a nonzero offset, [read_words] leaves
    [words[N - 1]] as it found it. *)
Lemma read_words_NoRAW_last (sz : nat) (READ : Z -> Z -> St -> Z * St)
    (N : nat) (words : list Z) (base : Z) (off : nat) (m : machine St) :
  (1 < N)%nat -> length words = N ->
  nth (N - 1)
    (fst (read_words W St uninit sz (NoRAW St) READ N words base off m)) 0
  = nth (N - 1) words 0
  /\ length
       (fst (read_words W St uninit sz (NoRAW St) READ N words base off m))
     = N.
Proof.
  intros HN Hlen. unfold read_words, bind. cbn [NoRAW raw_new].
  pose proof (hit_or_read_NoRAW READ tt base 0 0
                (make_mask W off (min W (off + sz))) words m) as H0.
  destruct (hit_or_read W St uninit (NoRAW St) READ tt base 0 0
              (make_mask W off (min W (off + sz))) words m) as [st0 m0].
  cbn [fst] in H0.
  pose proof (fun j => middle_words_NoRAW_others READ base (make_mask W 0 W)
                         (seq 1 (N - 1 - 1)) st0 m0 j) as Hmid.
  pose proof (middle_words_NoRAW_length READ base (make_mask W 0 W)
                (seq 1 (N - 1 - 1)) st0 m0) as Hmlen.
  destruct (middle_words W St uninit (NoRAW St) READ base (make_mask W 0 W)
              (seq 1 (N - 1 - 1)) st0 m0) as [st1 m1].
  cbn [fst] in Hmid, Hmlen.
  assert (H1 : nth (N - 1) (fst st1) 0 = nth (N - 1) words 0).
  { rewrite Hmid by (rewrite in_seq; lia).
    rewrite H0. apply upd_nth_other. lia. }
  assert (Hl1 : length (fst st1) = N)
    by (rewrite Hmlen, H0, upd_length; exact Hlen).
  destruct ((1 <? N)%nat && negb (off =? 0)%nat).
  - pose proof (hit_or_read_NoRAW READ (snd st1) (padd W base N) (N - 1) N
                  (make_mask W 0 off) (fst st1) m1) as H2.
    destruct (hit_or_read W St uninit (NoRAW St) READ (snd st1)
                (padd W base N) (N - 1) N (make_mask W 0 off) (fst st1) m1)
      as [st2 m2].
    cbn [fst] in H2. unfold ret. cbn [fst]. rewrite H2.
    rewrite upd_out_of_range by lia. split; assumption.
  - unfold ret. cbn [fst]. split; assumption.
Qed.

(** Whatever the algorithm and whatever is in memory: the bytes of the
    value that lie in the last buffer word come back as the uninitialised
    content of the buffer. *)
Lemma inst_read_last_word_uninitialised (sz : nat)
    (filter : Z -> St -> bool) (IsReadOnly : St -> bool) (ALIGNED : bool)
    (N : nat) (addr : Z) (m : machine St) (n : nat) :
  filter addr (tm m) = false -> (1 < N)%nat ->
  let off := OffsetOf ALIGNED addr in
  (n < sz)%nat -> ((N - 1) * W <= off + n < N * W)%nat ->
  nth_error
    (fst (read W St rd rd_ro BaseOf OffsetOf uninit sz filter (NoRAW St)
            IsReadOnly ALIGNED N addr m)) n
  = Some (uninit (off + n)%nat).
Proof.
  intros Hf HN off Hn Hp. unfold read. rewrite Hf. fold off.
  set (words := bytes_words W N (map uninit (seq 0 (N * W)))).
  assert (Hgen : forall READ,
            nth_error
              (load_T sz
                 (words_bytes W
                    (fst (read_words W St uninit sz (NoRAW St) READ N words
                            (BaseOf ALIGNED addr) off m))) off) n
            = Some (uninit (off + n)%nat)).
  { intros READ.
    destruct (read_words_NoRAW_last sz READ N words (BaseOf ALIGNED addr)
                off m HN (bytes_words_length W N _)) as (Hlast & Hlen).
    unfold load_T. rewrite nth_error_firstn.
    nat_true (n <? sz)%nat.
    rewrite nth_error_skipn.
    replace (off + n)%nat
      with ((N - 1) * W + (off + n - (N - 1) * W))%nat at 1 by lia.
    rewrite nth_error_words_bytes by lia.
    rewrite Hlast. unfold words.
    rewrite byte_of_bytes_words by lia.
    replace ((N - 1) * W + (off + n - (N - 1) * W))%nat with (off + n)%nat
      by lia.
    f_equal.
    rewrite (nth_indep _ Byte.x00 (uninit O))
      by (rewrite length_map, length_seq; lia).
    rewrite map_nth, seq_nth by lia. reflexivity. }
  destruct (IsReadOnly (tm m)); rewrite fst_let_pair; apply Hgen.
Qed.

End InstLastWord.

(** ** inst.hpp: a value that stays inside one word *)

(** With a one-word buffer the last-word branch is not taken, and a value
    that fits the word comes back, for every algorithm that returns what
    was stored. *)
Lemma inst_single_word_round_trip (W : nat) (St : Type)
    (rd rd_ro : Z -> Z -> St -> Z * St) (WRITE : Z -> Z -> Z -> St -> St)
    (cont : St -> Z -> Z) (BaseOf : bool -> Z -> Z)
    (OffsetOf : bool -> Z -> nat) (uninit : nat -> byte)
    (IsReadOnly : St -> bool) (ALIGNED : bool) (addr : Z) (v : list byte)
    (m : machine St) :
  (forall s a k, Z.land (fst (rd a k s)) k = Z.land (cont s a) k) ->
  (forall s a k, Z.land (fst (rd_ro a k s)) k = Z.land (cont s a) k) ->
  (forall s a w k, Z.land (cont (WRITE a w k s) a) k = Z.land w k) ->
  (OffsetOf ALIGNED addr + length v <= W)%nat ->
  fst (read W St rd rd_ro BaseOf OffsetOf uninit (length v)
         (fun _ _ => false) (NoRAW St) IsReadOnly ALIGNED 1 addr
         (snd (write W St BaseOf OffsetOf uninit (fun _ _ => false) WRITE
                 ALIGNED 1 addr v m))) = v.
Proof.
  intros Hrd Hro Hwr Hfit.
  set (off := OffsetOf ALIGNED addr) in *.
  set (base := BaseOf ALIGNED addr).
  set (mask := make_mask W off (off + length v)).
  set (bs := store_T (map uninit (seq 0 (1 * W))) off v).
  set (w := le_combine (firstn W bs)).
  assert (Hmin : min W (off + length v) = (off + length v)%nat).
  { unfold min. destruct (Nat.ltb_spec W (off + length v)); lia. }
  assert (Hwrite :
    tm (snd (write W St BaseOf OffsetOf uninit (fun _ _ => false) WRITE
               ALIGNED 1 addr v m)) = WRITE base w mask (tm m)).
  { unfold write, bind, call_write, ret. cbn [Nat.sub seq write_middle].
    fold off base. rewrite Hmin. reflexivity. }
  assert (Hword : forall READ,
    (forall s a k, Z.land (fst (READ a k s)) k = Z.land (cont s a) k) ->
    forall m1, tm m1 = WRITE base w mask (tm m) ->
    load_T (length v)
      (words_bytes W
         (fst (read_words W St uninit (length v) (NoRAW St) READ 1
                 (bytes_words W 1 (map uninit (seq 0 (1 * W)))) base off m1)))
      off = v).
  { intros READ HREAD m1 Hm1.
    unfold read_words, bind, ret. cbn [Nat.sub seq middle_words].
    pose proof (hit_or_read_NoRAW W St uninit READ tt base 0 0
                  (make_mask W off (min W (off + length v)))
                  (bytes_words W 1 (map uninit (seq 0 (1 * W)))) m1) as H0.
    cbn [NoRAW raw_new].
    destruct (hit_or_read W St uninit (NoRAW St) READ tt base 0 0
                (make_mask W off (min W (off + length v)))
                (bytes_words W 1 (map uninit (seq 0 (1 * W)))) m1)
      as [st0 m0].
    cbn [fst] in H0. cbn [Nat.ltb Nat.leb andb fst]. unfold ret. cbn [fst].
    rewrite H0, Hmin. fold mask.
    apply load_T_eq; [reflexivity|]. intros n Hn.
    change (off + n)%nat with (0 * W + (off + n))%nat.
    rewrite nth_error_words_bytes
      by (rewrite ?upd_length, ?bytes_words_length; lia).
    cbn [bytes_words seq map upd nth]. f_equal.
    transitivity (byte_of w (off + n)).
    - apply byte_of_land_covered with (mask := mask).
      + rewrite HREAD, Hm1. apply Hwr.
      + apply make_mask_covers; lia.
    - unfold w. rewrite byte_of_le_combine.
      rewrite <- (store_T_nth (map uninit (seq 0 (1 * W))) v off n)
        by (rewrite ?length_map, ?length_seq; lia).
      fold bs.
      destruct (nth_error (firstn W bs) (off + n)) as [b|] eqn:E.
      + rewrite (nth_error_nth _ _ _ E). rewrite nth_error_firstn in E.
        nat_true_in (off + n <? W)%nat E.
        symmetry. apply nth_error_nth. exact E.
      + rewrite (nth_error_nth_None _ _ _ E). rewrite nth_error_firstn in E.
        nat_true_in (off + n <? W)%nat E.
        symmetry. apply nth_error_nth_None. exact E. }
  unfold read. fold off base.
  destruct (IsReadOnly _); rewrite fst_let_pair.
  - apply (Hword rd_ro Hro). exact Hwrite.
  - apply (Hword rd Hrd). exact Hwrite.
Qed.

(** The word addresses of an aligned access of libitm-5.12.cpp are
    [address, address+1, ..., address+N-1]. *)
Lemma libitm_aligned_addresses (W : nat) (tx : TxThread)
    (uninit : nat -> byte) (sz N : nat) (addr : Z) (value : list byte)
    (m : machine (tx_state tx)) :
  trace (snd (INST_N_true_Read W tx uninit sz N addr m))
  = trace m
    ++ map (fun i => TmRead (padd W addr i) (make_mask W 0 W)) (seq 0 N)
  /\ trace (snd (INST_N_true_Write W tx N addr value m))
  = trace m
    ++ map (fun i => TmWrite (padd W addr i)
                       (nth i (bytes_words W N value) 0) (make_mask W 0 W))
         (seq 0 N).
Proof.
  split.
  - rewrite INST_N_true_Read_plan, snd_let_pair, read_plan_trace.
    unfold aligned_plan. rewrite map_map. reflexivity.
  - rewrite INST_N_true_Write_plan, write_plan_trace.
    unfold aligned_plan. rewrite map_map. reflexivity.
Qed.

(** ** What a read returns and what a write changes, byte by byte *)

Lemma masked_store_returns_last_stored (tx : TxThread)
    (cont : tx_state tx -> Z -> Z) :
  masked_store tx cont -> returns_last_stored tx cont.
Proof.
  intros (Hrv & Hrk & Hw & Hwo). repeat split; try assumption.
  intros s a v k. rewrite Hw.
  apply Z.bits_inj'. intros n Hn.
  rewrite !Z.land_spec, Z.lor_spec, !Z.land_spec, Z.lnot_spec by assumption.
  destruct (Z.testbit (cont s a) n), (Z.testbit k n), (Z.testbit v n);
    reflexivity.
Qed.

Lemma store_tx_masked_store : masked_store store_tx (fun s => s).
Proof.
  destruct store_tx_returns_last_stored as (Hrv & Hrk & _ & Hwo).
  repeat split; try assumption.
  intros s a v k. cbn [store_tx tmwrite]. unfold store_write.
  rewrite Z.eqb_refl. reflexivity.
Qed.

Lemma mask_bit_of_byte (mask : Z) (j : nat) (n : Z) (b : bool) :
  0 <= n < 8 ->
  byte_of mask j = (if b then Byte.xff else Byte.x00) ->
  Z.testbit mask (8 * Z.of_nat j + n) = b.
Proof.
  intros Hn Hb. rewrite <- byte_of_testbit by assumption. rewrite Hb.
  destruct b.
  - change (byte.unsigned Byte.xff) with (Z.ones 8).
    rewrite Z.testbit_ones_nonneg by lia. apply Z.ltb_lt. lia.
  - apply Z.bits_0.
Qed.

(** A masked update takes the selected bytes from the new word and keeps
    the others. *)
Lemma byte_of_masked_update_in (x y mask : Z) (j : nat) :
  byte_of mask j = Byte.xff ->
  byte_of (Z.lor (Z.land x (Z.lnot mask)) (Z.land y mask)) j = byte_of y j.
Proof.
  intros Hm. apply byte_eq_bits. intros n Hn.
  rewrite !byte_of_testbit by assumption.
  rewrite Z.lor_spec, !Z.land_spec, Z.lnot_spec by lia.
  rewrite (mask_bit_of_byte mask j n true Hn Hm).
  cbn [negb]. rewrite andb_false_r, andb_true_r. reflexivity.
Qed.

Lemma byte_of_masked_update_out (x y mask : Z) (j : nat) :
  byte_of mask j = Byte.x00 ->
  byte_of (Z.lor (Z.land x (Z.lnot mask)) (Z.land y mask)) j = byte_of x j.
Proof.
  intros Hm. apply byte_eq_bits. intros n Hn.
  rewrite !byte_of_testbit by assumption.
  rewrite Z.lor_spec, !Z.land_spec, Z.lnot_spec by lia.
  rewrite (mask_bit_of_byte mask j n false Hn Hm).
  cbn [negb]. rewrite andb_false_r, andb_true_r, orb_false_r. reflexivity.
Qed.

Lemma make_mask_misses (W i j k : nat) :
  (i <= j)%nat -> (i <= W)%nat -> (j - i <= W)%nat -> (k < W)%nat ->
  (k < i \/ j <= k)%nat ->
  byte_of (make_mask W i j) k = Byte.x00.
Proof.
  intros Hij Hi Hlen Hk Hout. rewrite make_mask_byte_of by assumption.
  destruct (Nat.leb_spec i k), (Nat.ltb_spec k j); cbn [andb];
    try reflexivity; lia.
Qed.

Lemma nth_error_map_seq {B : Type} (f : nat -> B) (sz n : nat) :
  nth_error (map f (seq 0 sz)) n = if (n <? sz)%nat then Some (f n) else None.
Proof.
  destruct (Nat.ltb_spec n sz) as [Hlt | Hge].
  - rewrite nth_error_map.
    rewrite nth_error_nth' with (d := O) by (rewrite length_seq; lia).
    rewrite seq_nth by lia. reflexivity.
  - apply nth_error_None. rewrite length_map, length_seq. lia.
Qed.

Lemma load_T_map (sz off : nat) (bs : list byte) (f : nat -> byte) :
  (forall n, (n < sz)%nat -> nth_error bs (off + n) = Some (f n)) ->
  load_T sz bs off = map f (seq 0 sz).
Proof.
  intros H. apply nth_error_ext. intros n. unfold load_T.
  rewrite nth_error_firstn, nth_error_map_seq.
  destruct (Nat.ltb_spec n sz) as [Hlt | Hge]; [|reflexivity].
  rewrite nth_error_skipn. apply H. exact Hlt.
Qed.

Lemma offset_0_base (W : nat) (addr : Z) :
  (0 < W)%nat -> offset_of W addr = O -> base_of W addr = addr.
Proof.
  intros HW H0. unfold offset_of, base_of in *.
  pose proof (Z.mod_pos_bound addr (Z.of_nat W) ltac:(lia)). lia.
Qed.

Section ReadSpec.

Variable W : nat.
Hypothesis W_pos : (0 < W)%nat.
Variable tx : TxThread.
Variable cont : tx_state tx -> Z -> Z.
Hypothesis Hcont : returns_last_stored tx cont.
Variable uninit : nat -> byte.

Lemma read_plan_byte (base : Z) (plan : list (nat * Z)) (n : nat)
    (from : list Z) (m : machine (tx_state tx)) (q : nat) (mask : Z) :
  length from = n -> NoDup (map fst plan) ->
  (forall p, In p plan -> (fst p < n)%nat) ->
  In (q / W, mask)%nat plan -> byte_of mask (q mod W) = Byte.xff ->
  nth_error (words_bytes W (fst (read_plan W tx base plan from m))) q
  = Some (mem_byte W cont (tm m) base q).
Proof.
  intros Hlen Hnd Hlt Hin Hcov.
  assert (Hi : (q / W < n)%nat) by (apply (Hlt (q / W, mask)%nat); exact Hin).
  pose proof (Nat.div_mod_eq q W) as Hdm.
  pose proof (Nat.mod_upper_bound q W ltac:(lia)) as Hk.
  rewrite Hdm at 1. rewrite (Nat.mul_comm W).
  rewrite nth_error_words_bytes by (rewrite ?read_plan_length; lia).
  f_equal. unfold mem_byte.
  apply byte_of_land_covered with (mask := mask); [|exact Hcov].
  destruct (read_plan_cont W tx cont Hcont base plan from m Hnd)
    as (_ & Hv & _).
  { intros p Hp. rewrite Hlen. apply Hlt. exact Hp. }
  exact (Hv (q / W, mask)%nat Hin).
Qed.

Lemma read_plan_keeps (base : Z) (plan : list (nat * Z)) (from : list Z)
    (m : machine (tx_state tx)) (a : Z) :
  cont (tm (snd (read_plan W tx base plan from m))) a = cont (tm m) a.
Proof.
  destruct Hcont as (_ & Hrk & _ & _).
  revert from m; induction plan as [|p plan IH]; intros from m;
    [reflexivity|].
  cbn [read_plan]. unfold bind, call_read.
  pose proof (Hrk (tm m) (padd W base (fst p)) (snd p) a) as Hk.
  destruct (tmread tx (padd W base (fst p)) (snd p) (tm m)) as [w s].
  rewrite IH. cbn [tm snd] in *. exact Hk.
Qed.

Lemma unaligned_read_spec (sz N : nat) (addr : Z) (offset : nat)
    (m : machine (tx_state tx)) :
  (1 <= N)%nat -> (0 < offset < W)%nat -> (sz <= N * W)%nat ->
  fst (ReadUnaligned W tx uninit sz N addr offset m)
  = map (fun n => mem_byte W cont (tm m) (base_of W addr) (offset + n))
      (seq 0 sz).
Proof.
  intros HN Hoff Hsz.
  rewrite ReadUnaligned_plan, fst_let_pair.
  apply load_T_map. intros n Hn.
  pose proof (unaligned_plan_indices W N offset HN) as Hidx.
  destruct (unaligned_plan_covers W N offset sz (offset + n)
              HN Hoff Hsz ltac:(lia)) as (mask & Hin & Hcov).
  apply (read_plan_byte _ _ (N + 1)) with (mask := mask); try assumption.
  - apply bytes_words_length.
  - apply (plan_NoDup _ _ Hidx).
  - apply (plan_index_bound _ _ Hidx).
Qed.

Lemma aligned_read_spec (sz N : nat) (addr : Z)
    (m : machine (tx_state tx)) :
  (sz <= N * W)%nat ->
  fst (INST_N_true_Read W tx uninit sz N addr m)
  = map (fun n => mem_byte W cont (tm m) addr n) (seq 0 sz).
Proof.
  intros Hsz.
  rewrite INST_N_true_Read_plan, fst_let_pair.
  change (firstn sz ?l) with (load_T sz l 0).
  apply load_T_map. intros n Hn. cbn [Nat.add].
  pose proof (aligned_plan_indices W N) as Hidx.
  destruct (aligned_plan_covers W N n W_pos ltac:(lia)) as (Hin & Hcov).
  rewrite nth_error_app1
    by (rewrite words_bytes_length, read_plan_length, bytes_words_length;
        lia).
  apply (read_plan_byte _ _ N) with (mask := make_mask W 0 W);
    try assumption.
  - apply bytes_words_length.
  - apply (plan_NoDup _ _ Hidx).
  - apply (plan_index_bound _ _ Hidx).
Qed.

Lemma subword_read_spec (sz : nat) (addr : Z)
    (m : machine (tx_state tx)) :
  (offset_of W addr + sz <= W)%nat ->
  fst (INST_0_true_Read W tx sz addr m)
  = map (fun n => mem_byte W cont (tm m) (base_of W addr)
                    (offset_of W addr + n)) (seq 0 sz).
Proof.
  intros Hfit.
  rewrite INST_0_true_Read_plan, fst_let_pair.
  apply load_T_map. intros n Hn.
  set (off := offset_of W addr) in *.
  apply (read_plan_byte _ _ 1) with (mask := make_mask W off (off + sz)).
  - reflexivity.
  - repeat constructor. intros [].
  - intros p [<- | []]. cbn [fst]. lia.
  - left. rewrite Nat.div_small by lia. reflexivity.
  - rewrite Nat.mod_small by lia. apply make_mask_covers; lia.
Qed.

End ReadSpec.

(** Relative to the base word: an instrumented read returns the
    [sizeof(T)] bytes that the algorithm's memory holds from the address on, whatever the buffer of
    the barrier held before, and leaves that memory as it was. *)
Theorem INST_Read_returns_memory (W : nat) (tx : TxThread)
    (cont : tx_state tx -> Z -> Z) (uninit : nat -> byte) (sz : nat)
    (A : bool) (addr : Z) (m : machine (tx_state tx)) :
  (0 < W)%nat -> returns_last_stored tx cont ->
  supported W sz -> well_aligned W sz A addr ->
  fst (INST_Read W tx uninit sz (sz / W) A addr m)
  = map (fun n => mem_byte W cont (tm m) (base_of W addr)
                    (offset_of W addr + n)) (seq 0 sz)
  /\ forall a,
       cont (tm (snd (INST_Read W tx uninit sz (sz / W) A addr m))) a
       = cont (tm m) a.
Proof.
  intros HW Hcont [Hpos Hsup] Hal.
  pose proof (offset_of_lt W addr HW) as Hoff.
  assert (Hkeep0 : forall a,
            cont (tm (snd (INST_0_true_Read W tx sz addr m))) a
            = cont (tm m) a).
  { intros a. rewrite INST_0_true_Read_plan, snd_let_pair.
    apply (read_plan_keeps W tx cont Hcont). }
  assert (HkeepU : forall N a,
            cont (tm (snd (ReadUnaligned W tx uninit sz N addr
                             (offset_of W addr) m))) a = cont (tm m) a).
  { intros N a. rewrite ReadUnaligned_plan, snd_let_pair.
    apply (read_plan_keeps W tx cont Hcont). }
  assert (HkeepA : forall N a,
            cont (tm (snd (INST_N_true_Read W tx uninit sz N addr m))) a
            = cont (tm m) a).
  { intros N a. rewrite INST_N_true_Read_plan, snd_let_pair.
    apply (read_plan_keeps W tx cont Hcont). }
  destruct Hsup as [Hsub | Hmul].
  - rewrite (Nat.div_small _ _ Hsub). destruct A; cbn [INST_Read].
    + split; [|exact Hkeep0].
      apply (subword_read_spec W HW tx cont Hcont).
      apply (proj1 (Hal eq_refl)). exact Hsub.
    + unfold INST_0_false_Read.
      destruct (Nat.leb_spec (offset_of W addr + sz) W) as [Hfit | Hov].
      * split; [|exact Hkeep0].
        apply (subword_read_spec W HW tx cont Hcont). exact Hfit.
      * split; [|apply HkeepU].
        apply (unaligned_read_spec W HW tx cont Hcont); lia.
  - pose proof (Nat.div_mod_eq sz W) as Hdm.
    rewrite Hmul, Nat.add_0_r in Hdm.
    assert (HN : (1 <= sz / W)%nat) by nia.
    destruct (sz / W)%nat as [|n] eqn:EN; [lia|].
    assert (Haligned : offset_of W addr = O ->
              fst (INST_N_true_Read W tx uninit sz (S n) addr m)
              = map (fun k => mem_byte W cont (tm m) (base_of W addr)
                                (offset_of W addr + k)) (seq 0 sz)).
    { intros H0. rewrite (offset_0_base W addr HW H0), H0. cbn [Nat.add].
      apply (aligned_read_spec W HW tx cont Hcont). lia. }
    destruct A; cbn [INST_Read].
    + split; [|apply HkeepA].
      apply Haligned. apply (proj2 (Hal eq_refl)). nia.
    + unfold INST_N_false_Read.
      destruct (Nat.eqb_spec (offset_of W addr) 0) as [H0 | H0].
      * cbn [INST_aligned_Read]. split; [|apply HkeepA].
        apply Haligned. exact H0.
      * split; [|apply HkeepU].
        apply (unaligned_read_spec W HW tx cont Hcont); lia.
Qed.

(** On the word store holding 0x1122334455667788 + a in the word at [a],
    the four bytes at address 6 are 0x22 0x11 (word 0) and 0x90 0x77
    (word 8). *)
Lemma INST_Read_returns_memory_witness :
  (0 < 8)%nat /\ supported 8 4 /\ well_aligned 8 4 false 6
  /\ fst (INST_Read 8 store_tx (fun _ => Byte.xff) 4 (4 / 8) false 6
            (start (fun a => 0x1122334455667788 + a)))
     = [Byte.x22; Byte.x11; Byte.x90; Byte.x77].
Proof.
  assert (Hs : supported 8 4) by (split; [lia | left; lia]).
  assert (Ha : well_aligned 8 4 false 6) by (intros H; discriminate H).
  split; [lia|]. split; [exact Hs|]. split; [exact Ha|].
  exact (proj1 (INST_Read_returns_memory 8 store_tx (fun s => s)
                  (fun _ => Byte.xff) 4 false 6
                  (start (fun a => 0x1122334455667788 + a))
                  ltac:(lia) store_tx_returns_last_stored Hs Ha)).
Defined.

Section WriteSpec.

Variable W : nat.
Hypothesis W_pos : (0 < W)%nat.
Variable tx : TxThread.
Variable cont : tx_state tx -> Z -> Z.
Hypothesis Hstore : masked_store tx cont.

Lemma write_plan_effect (base : Z) (plan : list (nat * Z)) (to : list Z)
    (m : machine (tx_state tx)) :
  NoDup (map fst plan) ->
  (forall p, In p plan ->
     cont (tm (snd (write_plan W tx base plan to m))) (padd W base (fst p))
     = Z.lor (Z.land (cont (tm m) (padd W base (fst p))) (Z.lnot (snd p)))
         (Z.land (nth (fst p) to 0) (snd p)))
  /\ (forall a, (forall p, In p plan -> a <> padd W base (fst p)) ->
        cont (tm (snd (write_plan W tx base plan to m))) a = cont (tm m) a).
Proof.
  destruct Hstore as (_ & _ & Hw & Hwo).
  revert m; induction plan as [|p plan IH]; intros m Hnd.
  - split; intros; [contradiction | reflexivity].
  - cbn [map] in Hnd. inversion Hnd as [|x l Hnotin Hnd']; subst.
    cbn [write_plan]. unfold bind, call_write.
    set (m1 := Machine
                 (tmwrite tx (padd W base (fst p)) (nth (fst p) to 0) (snd p)
                    (tm m)) (mem m) (undo m)
                 (trace m
                  ++ [TmWrite (padd W base (fst p)) (nth (fst p) to 0)
                        (snd p)])).
    destruct (IH m1 Hnd') as (IHs & IHo).
    assert (Hdiff : forall q, In q plan ->
              padd W base (fst q) <> padd W base (fst p)).
    { intros q Hq Heq. apply padd_inj in Heq; [|exact W_pos].
      apply Hnotin. rewrite <- Heq. apply in_map. exact Hq. }
    split.
    + intros q [Hq | Hq].
      * subst q. rewrite IHo.
        -- unfold m1. cbn [tm]. apply Hw.
        -- intros q Hq Heq. apply (Hdiff q Hq). symmetry. exact Heq.
      * rewrite (IHs q Hq). unfold m1. cbn [tm].
        rewrite Hwo by (apply Hdiff; exact Hq). reflexivity.
    + intros a Ha. rewrite IHo by (intros q Hq; apply Ha; right; exact Hq).
      unfold m1. cbn [tm]. apply Hwo. apply Ha. left. reflexivity.
Qed.

(** A byte under a mask of the sequence takes the byte of the buffer; a
    byte of a word of the sequence outside its mask, and a byte of any
    other word, stays. *)
Lemma write_plan_byte_in (base : Z) (plan : list (nat * Z)) (n : nat)
    (bs : list byte) (m : machine (tx_state tx)) (q : nat) (mask : Z) :
  NoDup (map fst plan) -> (forall p, In p plan -> (fst p < n)%nat) ->
  In (q / W, mask)%nat plan -> byte_of mask (q mod W) = Byte.xff ->
  mem_byte W cont
    (tm (snd (write_plan W tx base plan (bytes_words W n bs) m))) base q
  = nth q bs Byte.x00.
Proof.
  intros Hnd Hlt Hin Hcov.
  destruct (write_plan_effect base plan (bytes_words W n bs) m Hnd)
    as (Hs & _).
  pose proof (Hs _ Hin) as Hw. cbn [fst snd] in Hw.
  unfold mem_byte. rewrite Hw.
  rewrite byte_of_masked_update_in by exact Hcov.
  rewrite byte_of_bytes_words.
  - f_equal. pose proof (Nat.div_mod_eq q W). lia.
  - apply (Hlt _ Hin).
  - apply Nat.mod_upper_bound. lia.
Qed.

Lemma write_plan_byte_out (base : Z) (plan : list (nat * Z)) (to : list Z)
    (m : machine (tx_state tx)) (q : nat) (mask : Z) :
  NoDup (map fst plan) ->
  In (q / W, mask)%nat plan -> byte_of mask (q mod W) = Byte.x00 ->
  mem_byte W cont (tm (snd (write_plan W tx base plan to m))) base q
  = mem_byte W cont (tm m) base q.
Proof.
  intros Hnd Hin Hcov.
  destruct (write_plan_effect base plan to m Hnd) as (Hs & _).
  pose proof (Hs _ Hin) as Hw. cbn [fst snd] in Hw.
  unfold mem_byte. rewrite Hw.
  apply byte_of_masked_update_out. exact Hcov.
Qed.

Lemma write_plan_byte_other (base : Z) (plan : list (nat * Z)) (to : list Z)
    (m : machine (tx_state tx)) (q : nat) :
  NoDup (map fst plan) -> ~ In (q / W)%nat (map fst plan) ->
  mem_byte W cont (tm (snd (write_plan W tx base plan to m))) base q
  = mem_byte W cont (tm m) base q.
Proof.
  intros Hnd Hnot.
  destruct (write_plan_effect base plan to m Hnd) as (_ & Ho).
  unfold mem_byte. rewrite Ho; [reflexivity|].
  intros p Hp Heq. apply padd_inj in Heq; [|exact W_pos].
  apply Hnot. rewrite Heq. apply in_map. exact Hp.
Qed.

Lemma write_plan_word_other (base : Z) (plan : list (nat * Z)) (to : list Z)
    (m : machine (tx_state tx)) (a : Z) :
  NoDup (map fst plan) -> (forall i, a <> padd W base i) ->
  cont (tm (snd (write_plan W tx base plan to m))) a = cont (tm m) a.
Proof.
  intros Hnd Ha.
  destruct (write_plan_effect base plan to m Hnd) as (_ & Ho).
  apply Ho. intros p _. apply Ha.
Qed.

(** The buffer of a write holds the value from [off] on and zeros
    elsewhere. *)
Lemma store_T_zero_nth (L off q : nat) (v : list byte) :
  (off <= L)%nat -> (off <= q)%nat ->
  nth q (store_T (repeat Byte.x00 L) off v) Byte.x00
  = nth (q - off) v Byte.x00.
Proof.
  intros HL Hq. unfold store_T.
  rewrite app_nth2 by (rewrite length_firstn, repeat_length; lia).
  rewrite length_firstn, repeat_length.
  replace (q - Nat.min off L)%nat with (q - off)%nat by lia.
  destruct (Nat.lt_ge_cases (q - off) (length v)) as [Hin | Hout].
  - apply app_nth1. exact Hin.
  - rewrite app_nth2 by lia.
    rewrite (nth_overflow v) by lia.
    assert (Hskip : forall k n : nat,
              skipn k (repeat Byte.x00 n) = repeat Byte.x00 (n - k)).
    { induction k as [|k IH]; intros [|n]; cbn [skipn repeat Nat.sub];
        try reflexivity. apply IH. }
    rewrite Hskip. apply nth_repeat.
Qed.

(** [WriteUnaligned] overwrites the [N * W] bytes from [offset] on with
    the value followed by zeros, and nothing else. *)
Lemma unaligned_write_effect (N : nat) (addr : Z) (offset : nat)
    (v : list byte) (m : machine (tx_state tx)) (q : nat) :
  (1 <= N)%nat -> (0 < offset < W)%nat ->
  mem_byte W cont (tm (snd (WriteUnaligned W tx N addr v offset m)))
    (base_of W addr) q
  = if (offset <=? q)%nat && (q <? offset + N * W)%nat
    then nth (q - offset) v Byte.x00
    else mem_byte W cont (tm m) (base_of W addr) q.
Proof.
  intros HN Hoff. rewrite WriteUnaligned_plan.
  pose proof (unaligned_plan_indices W N offset HN) as Hidx.
  pose proof (plan_NoDup _ _ Hidx) as Hnd.
  pose proof (plan_index_bound _ _ Hidx) as Hlt.
  pose proof (Nat.div_mod_eq q W) as Hdm.
  pose proof (Nat.mod_upper_bound q W ltac:(lia)) as Hk.
  destruct (Nat.leb_spec offset q) as [Hlo | Hlo];
    destruct (Nat.ltb_spec q (offset + N * W)) as [Hhi | Hhi]; cbn [andb].
  - destruct (unaligned_plan_covers W N offset (N * W) q HN Hoff
                (Nat.le_refl _) ltac:(lia)) as (mask & Hin & Hcov).
    rewrite (write_plan_byte_in _ _ (N + 1) _ _ _ mask Hnd Hlt Hin Hcov).
    apply store_T_zero_nth; nia.
  - destruct (Nat.lt_ge_cases (q / W) (N + 1)) as [Hw | Hw].
    + (* in the last word, past the mask *)
      assert (HqN : (q / W = N)%nat) by nia.
      apply write_plan_byte_out with (mask := make_mask W 0 offset);
        [exact Hnd | |].
      * unfold unaligned_plan. right. apply in_or_app. right. left.
        rewrite HqN. reflexivity.
      * apply make_mask_misses; nia.
    + apply write_plan_byte_other; [exact Hnd|].
      rewrite Hidx, in_seq. lia.
  - (* in the first word, before the mask *)
    assert (Hq0 : (q / W = 0)%nat) by (apply Nat.div_small; lia).
    apply write_plan_byte_out with (mask := make_mask W offset W);
      [exact Hnd | |].
    + unfold unaligned_plan. left. rewrite Hq0. reflexivity.
    + apply make_mask_misses; try lia.
      all: rewrite Nat.mod_small by lia; lia.
  - lia.
Qed.

(** [INST<T, N, true>::Write] overwrites the [N * W] bytes from the
    address on with the first [N * W] bytes of the value. *)
Lemma aligned_write_effect (N : nat) (addr : Z) (v : list byte)
    (m : machine (tx_state tx)) (q : nat) :
  mem_byte W cont (tm (snd (INST_N_true_Write W tx N addr v m))) addr q
  = if (q <? N * W)%nat then nth q v Byte.x00
    else mem_byte W cont (tm m) addr q.
Proof.
  rewrite INST_N_true_Write_plan.
  pose proof (aligned_plan_indices W N) as Hidx.
  pose proof (plan_NoDup _ _ Hidx) as Hnd.
  pose proof (plan_index_bound _ _ Hidx) as Hlt.
  destruct (Nat.ltb_spec q (N * W)) as [Hhi | Hhi].
  - destruct (aligned_plan_covers W N q W_pos Hhi) as (Hin & Hcov).
    apply (write_plan_byte_in _ _ N _ _ _ _ Hnd Hlt Hin Hcov).
  - apply write_plan_byte_other; [exact Hnd|].
    rewrite Hidx, in_seq.
    pose proof (Nat.div_mod_eq q W).
    pose proof (Nat.mod_upper_bound q W ltac:(lia)). nia.
Qed.

(** [INST<T, 0u, true>::Write] overwrites the bytes of the value and
    nothing else, when the value stays inside the word. *)
Lemma subword_write_effect (addr : Z) (v : list byte)
    (m : machine (tx_state tx)) (q : nat) :
  (offset_of W addr + length v <= W)%nat ->
  mem_byte W cont (tm (snd (INST_0_true_Write W tx addr v m)))
    (base_of W addr) q
  = if (offset_of W addr <=? q)%nat && (q <? offset_of W addr + length v)%nat
    then nth (q - offset_of W addr) v Byte.x00
    else mem_byte W cont (tm m) (base_of W addr) q.
Proof.
  intros Hfit. rewrite INST_0_true_Write_plan.
  set (off := offset_of W addr) in *.
  set (mask := make_mask W off (off + length v)).
  assert (Hnd : NoDup (map fst [(O, mask)])) by (repeat constructor; intros []).
  destruct (Nat.leb_spec off q) as [Hlo | Hlo];
    destruct (Nat.ltb_spec q (off + length v)) as [Hhi | Hhi]; cbn [andb].
  - rewrite (write_plan_byte_in _ _ 1 _ _ _ mask Hnd).
    + apply store_T_zero_nth; lia.
    + intros p [<- | []]. cbn [fst]. lia.
    + left. rewrite Nat.div_small by lia. reflexivity.
    + rewrite Nat.mod_small by lia. apply make_mask_covers; lia.
  - destruct (Nat.lt_ge_cases q W) as [Hw | Hw].
    + apply write_plan_byte_out with (mask := mask); [exact Hnd | |].
      * left. rewrite Nat.div_small by lia. reflexivity.
      * rewrite Nat.mod_small by lia. apply make_mask_misses; lia.
    + apply write_plan_byte_other; [exact Hnd|].
      cbn [map fst]. intros [H0 | []].
      pose proof (Nat.div_mod_eq q W).
      pose proof (Nat.mod_upper_bound q W ltac:(lia)). nia.
  - apply write_plan_byte_out with (mask := mask); [exact Hnd | |].
    + left. rewrite Nat.div_small by lia. reflexivity.
    + rewrite Nat.mod_small by lia. apply make_mask_misses; lia.
  - lia.
Qed.

End WriteSpec.

(** Relative to the base word: an instrumented write of a value that
    fills whole words, or of a
    subword value that stays inside its word, changes exactly the
    [sizeof(T)] bytes from the address on: they become the value, every
    other byte of the words touched and every other word keep their
    content. *)
Theorem INST_Write_changes_value_bytes (W : nat) (tx : TxThread)
    (cont : tx_state tx -> Z -> Z) (A : bool) (addr : Z) (v : list byte)
    (m : machine (tx_state tx)) :
  (0 < W)%nat -> masked_store tx cont ->
  supported W (length v) -> well_aligned W (length v) A addr ->
  ((length v < W)%nat -> (offset_of W addr + length v <= W)%nat) ->
  let base := base_of W addr in
  let off := offset_of W addr in
  let m' := snd (INST_Write W tx (length v / W) A addr v m) in
  (forall q,
     mem_byte W cont (tm m') base q
     = if (off <=? q)%nat && (q <? off + length v)%nat
       then nth (q - off) v Byte.x00
       else mem_byte W cont (tm m) base q)
  /\ (forall a, (forall i, a <> padd W base i) ->
        cont (tm m') a = cont (tm m) a).
Proof.
  intros HW Hst [Hpos Hsup] Hal Hfit base off m'. subst m'.
  pose proof (offset_of_lt W addr HW) as Hoff. fold off in Hoff.
  destruct Hsup as [Hsub | Hmul].
  - (* subword, inside its word *)
    rewrite (Nat.div_small _ _ Hsub).
    assert (H0 : INST_Write W tx 0 A addr v m
                 = INST_0_true_Write W tx addr v m).
    { destruct A; cbn [INST_Write]; [reflexivity|].
      unfold INST_0_false_Write. specialize (Hfit Hsub).
      nat_true (offset_of W addr + length v <=? W)%nat. reflexivity. }
    rewrite H0. split.
    + intros q. apply (subword_write_effect W HW tx cont Hst).
      apply Hfit. exact Hsub.
    + intros a Ha. rewrite INST_0_true_Write_plan.
      apply (write_plan_word_other W HW tx cont Hst); [|exact Ha].
      repeat constructor. intros [].
  - pose proof (Nat.div_mod_eq (length v) W) as Hdm.
    rewrite Hmul, Nat.add_0_r in Hdm.
    assert (HN : (1 <= length v / W)%nat) by nia.
    destruct (length v / W)%nat as [|n] eqn:EN; [lia|].
    assert (Haligned : off = O ->
      (forall q,
         mem_byte W cont (tm (snd (INST_N_true_Write W tx (S n) addr v m)))
           base q
         = if (off <=? q)%nat && (q <? off + length v)%nat
           then nth (q - off) v Byte.x00
           else mem_byte W cont (tm m) base q)
      /\ (forall a, (forall i, a <> padd W base i) ->
            cont (tm (snd (INST_N_true_Write W tx (S n) addr v m))) a
            = cont (tm m) a)).
    { intros H0. unfold base. rewrite (offset_0_base W addr HW H0), H0.
      split.
      - intros q. rewrite (aligned_write_effect W HW tx cont Hst).
        cbn [Nat.leb andb Nat.add]. rewrite Nat.sub_0_r.
        replace (S n * W)%nat with (length v) by lia. reflexivity.
      - intros a Ha. rewrite INST_N_true_Write_plan.
        apply (write_plan_word_other W HW tx cont Hst); [|exact Ha].
        apply (plan_NoDup _ _ (aligned_plan_indices W (S n))). }
    destruct A; cbn [INST_Write].
    + apply Haligned. apply (proj2 (Hal eq_refl)). nia.
    + unfold INST_N_false_Write. fold off.
      destruct (Nat.eqb_spec off 0) as [H0 | H0].
      * cbn [INST_aligned_Write]. apply Haligned. exact H0.
      * split.
        -- intros q.
           rewrite (unaligned_write_effect W HW tx cont Hst) by lia.
           replace (S n * W)%nat with (length v) by lia. reflexivity.
        -- intros a Ha. rewrite WriteUnaligned_plan.
           apply (write_plan_word_other W HW tx cont Hst); [|exact Ha].
           apply (plan_NoDup _ _
                    (unaligned_plan_indices W (S n) off ltac:(lia))).
Qed.

(** An 8-byte value written at address 4 of a word store full of 0xFF:
    byte 3 keeps 0xFF, byte 4 becomes the first byte of the value. *)
Lemma INST_Write_changes_value_bytes_witness :
  (0 < 8)%nat /\ supported 8 8 /\ well_aligned 8 8 false 4
  /\ mem_byte 8 (fun s : Z -> Z => s)
       (tm (snd (INST_Write 8 store_tx (8 / 8) false 4 bytes_1_to_8
                   (start (fun _ => 0xFFFFFFFFFFFFFFFF))))) 0 3
     = Byte.xff
  /\ mem_byte 8 (fun s : Z -> Z => s)
       (tm (snd (INST_Write 8 store_tx (8 / 8) false 4 bytes_1_to_8
                   (start (fun _ => 0xFFFFFFFFFFFFFFFF))))) 0 4
     = Byte.x01.
Proof.
  assert (Hs : supported 8 8) by (split; [lia | right; reflexivity]).
  assert (Ha : well_aligned 8 8 false 4) by (intros H; discriminate H).
  split; [lia|]. split; [exact Hs|]. split; [exact Ha|].
  pose proof (proj1 (INST_Write_changes_value_bytes 8 store_tx (fun s => s)
                       false 4 bytes_1_to_8
                       (start (fun _ => 0xFFFFFFFFFFFFFFFF))
                       ltac:(lia) store_tx_masked_store Hs Ha
                       ltac:(cbn; lia))) as H.
  split; [exact (H 3%nat) | exact (H 4%nat)].
Defined.

(** Relative to the base word: a subword value that crosses into the
    next word is written as a full word: [WriteUnaligned] at N = 1 overwrites [sizeof(void* )] bytes
    from the address on, the value followed by zeros, so the
    [sizeof(void* ) - sizeof(T)] bytes after the value are set to zero. *)
Theorem overflowing_subword_write_zeroes_tail (W : nat) (tx : TxThread)
    (cont : tx_state tx -> Z -> Z) (addr : Z) (v : list byte)
    (m : machine (tx_state tx)) :
  (0 < W)%nat -> masked_store tx cont ->
  (0 < length v < W)%nat -> (W < offset_of W addr + length v)%nat ->
  let base := base_of W addr in
  let off := offset_of W addr in
  let m' := snd (INST_Write W tx (length v / W) false addr v m) in
  (forall q,
     mem_byte W cont (tm m') base q
     = if (off <=? q)%nat && (q <? off + W)%nat
       then nth (q - off) v Byte.x00
       else mem_byte W cont (tm m) base q)
  /\ (forall q, (off + length v <= q < off + W)%nat ->
        mem_byte W cont (tm m') base q = Byte.x00).
Proof.
  intros HW Hst Hsub Hov base off m'. subst m'.
  pose proof (offset_of_lt W addr HW) as Hoff. fold off in Hoff, Hov.
  rewrite (Nat.div_small (length v) W) by lia.
  cbn [INST_Write]. unfold INST_0_false_Write. fold off.
  nat_false (off + length v <=? W)%nat.
  assert (Hall : forall q,
            mem_byte W cont
              (tm (snd (WriteUnaligned W tx 1 addr v off m))) base q
            = if (off <=? q)%nat && (q <? off + W)%nat
              then nth (q - off) v Byte.x00
              else mem_byte W cont (tm m) base q).
  { intros q. rewrite (unaligned_write_effect W HW tx cont Hst) by lia.
    rewrite Nat.mul_1_l. reflexivity. }
  split; [exact Hall|].
  intros q Hq. rewrite Hall.
  nat_true (off <=? q)%nat. nat_true (q <? off + W)%nat. cbn [andb].
  apply nth_overflow. lia.
Qed.

(** A 2-byte value written at address 7 of a word store full of 0xFF:
    the byte at address 9, which is not part of the value, becomes 0. *)
Lemma overflowing_subword_write_zeroes_tail_witness :
  (0 < 8)%nat /\ (0 < 2 < 8)%nat /\ (8 < offset_of 8 7 + 2)%nat
  /\ mem_byte 8 (fun s : Z -> Z => s)
       (tm (snd (INST_Write 8 store_tx (2 / 8) false 7 [Byte.xaa; Byte.xbb]
                   (start (fun _ => 0xFFFFFFFFFFFFFFFF))))) 0 9
     = Byte.x00
  /\ tm (snd (INST_Write 8 store_tx (2 / 8) false 7 [Byte.xaa; Byte.xbb]
                (start (fun _ => 0xFFFFFFFFFFFFFFFF)))) 8
     = 0xFF000000000000BB.
Proof.
  split; [lia|]. split; [lia|]. split; [cbn; lia|].
  split; [|reflexivity].
  exact (proj2 (overflowing_subword_write_zeroes_tail 8 store_tx
                  (fun s => s) 7 [Byte.xaa; Byte.xbb]
                  (start (fun _ => 0xFFFFFFFFFFFFFFFF))
                  ltac:(lia) store_tx_masked_store
                  ltac:(cbn; lia) ltac:(cbn; lia))
           9%nat ltac:(cbn; lia)).
Defined.

(** ** Byte addresses *)

Lemma base_of_aligned (W : nat) (addr : Z) :
  (0 < W)%nat -> base_of W addr mod Z.of_nat W = 0.
Proof.
  intros HW. unfold base_of.
  rewrite Zminus_mod_idemp_r, Z.sub_diag. apply Z.mod_0_l. lia.
Qed.

Lemma base_plus_offset (W : nat) (addr : Z) :
  (0 < W)%nat -> base_of W addr + Z.of_nat (offset_of W addr) = addr.
Proof.
  intros HW. unfold base_of, offset_of.
  pose proof (Z.mod_pos_bound addr (Z.of_nat W) ltac:(lia)). lia.
Qed.

(** The byte [q] bytes past a word boundary, by its own address. *)
Lemma byte_address_split (W : nat) (base : Z) (q : nat) :
  (0 < W)%nat -> base mod Z.of_nat W = 0 ->
  base_of W (base + Z.of_nat q) = padd W base (q / W)
  /\ offset_of W (base + Z.of_nat q) = (q mod W)%nat.
Proof.
  intros HW Hb.
  assert (Hmod : (base + Z.of_nat q) mod Z.of_nat W
                 = Z.of_nat (q mod W)).
  { rewrite Z.add_mod, Hb, Z.add_0_l, Z.mod_mod by lia.
    symmetry. apply Nat2Z.inj_mod. }
  split.
  - unfold base_of, padd. rewrite Hmod.
    pose proof (Nat.div_mod_eq q W). nia.
  - unfold offset_of. rewrite Hmod. apply Nat2Z.id.
Qed.

Lemma mem_byte_byte_at (W : nat) {St : Type} (cont : St -> Z -> Z) (s : St)
    (base : Z) (q : nat) :
  (0 < W)%nat -> base mod Z.of_nat W = 0 ->
  mem_byte W cont s base q = byte_at W cont s (base + Z.of_nat q).
Proof.
  intros HW Hb. unfold mem_byte, byte_at.
  destruct (byte_address_split W base q HW Hb) as (-> & ->). reflexivity.
Qed.

(** A byte below a word boundary lies in no word from that boundary up. *)
Lemma base_of_below (W : nat) (base p : Z) (i : nat) :
  (0 < W)%nat -> p < base -> base_of W p <> padd W base i.
Proof.
  intros HW Hp. unfold base_of, padd.
  pose proof (Z.mod_pos_bound p (Z.of_nat W) ltac:(lia)). nia.
Qed.

Lemma nth_app_zeros (v : list byte) (k n : nat) :
  nth n (v ++ repeat Byte.x00 k) Byte.x00 = nth n v Byte.x00.
Proof.
  destruct (Nat.lt_ge_cases n (length v)) as [Hin | Hout].
  - apply app_nth1. exact Hin.
  - rewrite app_nth2 by lia. rewrite nth_repeat.
    symmetry. apply nth_overflow. lia.
Qed.

(** From bytes counted from the base word to bytes by address: a write
    that replaces the bytes [off, off + L) past [base] by [v] (zero
    beyond its length) and keeps every other word is a store of [L]
    bytes at [base + off]. *)
Lemma relative_effect_is_store (W : nat) {St : Type} (cont : St -> Z -> Z)
    (s s' : St) (base : Z) (off L : nat) (v : list byte) (p : Z) :
  (0 < W)%nat -> base mod Z.of_nat W = 0 ->
  (forall q,
     mem_byte W cont s' base q
     = if (off <=? q)%nat && (q <? off + L)%nat
       then nth (q - off) v Byte.x00
       else mem_byte W cont s base q) ->
  (forall a, (forall i, a <> padd W base i) -> cont s' a = cont s a) ->
  byte_at W cont s' p
  = if (base + Z.of_nat off <=? p) && (p <? base + Z.of_nat off + Z.of_nat L)
    then nth (Z.to_nat (p - (base + Z.of_nat off))) v Byte.x00
    else byte_at W cont s p.
Proof.
  intros HW Hb Hin Hout.
  destruct (Z.lt_ge_cases p base) as [Hlow | Hhigh].
  - replace (base + Z.of_nat off <=? p) with false
      by (symmetry; apply Z.leb_gt; lia).
    cbn [andb]. unfold byte_at. rewrite Hout; [reflexivity|].
    intros i. apply base_of_below; assumption.
  - replace p with (base + Z.of_nat (Z.to_nat (p - base))) by lia.
    set (q := Z.to_nat (p - base)).
    rewrite <- !mem_byte_byte_at by assumption. rewrite Hin.
    replace (base + Z.of_nat off <=? base + Z.of_nat q)
      with (off <=? q)%nat
      by (destruct (Nat.leb_spec off q); symmetry;
          [apply Z.leb_le | apply Z.leb_gt]; lia).
    replace (base + Z.of_nat q <? base + Z.of_nat off + Z.of_nat L)
      with (q <? off + L)%nat
      by (destruct (Nat.ltb_spec q (off + L)); symmetry;
          [apply Z.ltb_lt | apply Z.ltb_ge]; lia).
    destruct ((off <=? q)%nat && (q <? off + L)%nat) eqn:E; [|reflexivity].
    f_equal. apply andb_true_iff in E. destruct E as [E1 _].
    apply Nat.leb_le in E1. lia.
Qed.

Section ByAddress.

Variable W : nat.
Hypothesis W_pos : (0 < W)%nat.
Variable tx : TxThread.
Variable cont : tx_state tx -> Z -> Z.

(** A read is a load from the algorithm's memory. *)
Lemma INST_Read_load (uninit : nat -> byte) (sz : nat) (A : bool)
    (addr : Z) (m : machine (tx_state tx)) :
  returns_last_stored tx cont -> supported W sz ->
  well_aligned W sz A addr ->
  fst (INST_Read W tx uninit sz (sz / W) A addr m)
  = map (fun n => byte_at W cont (tm m) (addr + Z.of_nat n)) (seq 0 sz).
Proof.
  intros Hcont Hs Ha.
  rewrite (proj1 (INST_Read_returns_memory W tx cont uninit sz A addr m
                    W_pos Hcont Hs Ha)).
  apply map_ext. intros n.
  rewrite mem_byte_byte_at by (try apply base_of_aligned; assumption).
  f_equal. pose proof (base_plus_offset W addr W_pos). lia.
Qed.

Lemma INST_Read_keeps (uninit : nat -> byte) (sz : nat) (A : bool)
    (addr : Z) (m : machine (tx_state tx)) (p : Z) :
  returns_last_stored tx cont -> supported W sz ->
  well_aligned W sz A addr ->
  byte_at W cont (tm (snd (INST_Read W tx uninit sz (sz / W) A addr m))) p
  = byte_at W cont (tm m) p.
Proof.
  intros Hcont Hs Ha. unfold byte_at.
  rewrite (proj2 (INST_Read_returns_memory W tx cont uninit sz A addr m
                    W_pos Hcont Hs Ha)).
  reflexivity.
Qed.

(** A write of a value that fills whole words, or of a subword value
    inside its word, is a store to the algorithm's memory. *)
Lemma INST_Write_store (A : bool) (addr : Z) (v : list byte)
    (m : machine (tx_state tx)) (p : Z) :
  masked_store tx cont -> supported W (length v) ->
  well_aligned W (length v) A addr ->
  ((length v < W)%nat -> (offset_of W addr + length v <= W)%nat) ->
  byte_at W cont (tm (snd (INST_Write W tx (length v / W) A addr v m))) p
  = store_mem (byte_at W cont (tm m)) addr v p.
Proof.
  intros Hst Hs Ha Hfit.
  destruct (INST_Write_changes_value_bytes W tx cont A addr v m W_pos Hst
              Hs Ha Hfit) as (Hin & Hout).
  rewrite (relative_effect_is_store W cont (tm m) _ (base_of W addr)
             (offset_of W addr) (length v) v p W_pos
             (base_of_aligned W addr W_pos) Hin Hout).
  unfold store_mem.
  rewrite (base_plus_offset W addr W_pos). reflexivity.
Qed.

(** A subword value that crosses into the next word is stored with zeros
    after it, [sizeof(void* )] bytes in all. *)
Lemma overflowing_write_store (addr : Z) (v : list byte)
    (m : machine (tx_state tx)) (p : Z) :
  masked_store tx cont ->
  (0 < length v < W)%nat -> (W < offset_of W addr + length v)%nat ->
  byte_at W cont (tm (snd (INST_Write W tx (length v / W) false addr v m))) p
  = store_mem (byte_at W cont (tm m)) addr
      (v ++ repeat Byte.x00 (W - length v)) p.
Proof.
  intros Hst Hsub Hov.
  destruct (overflowing_subword_write_zeroes_tail W tx cont addr v m W_pos
              Hst Hsub Hov) as (Hin & _).
  assert (Hout : forall a, (forall i, a <> padd W (base_of W addr) i) ->
            cont (tm (snd (INST_Write W tx (length v / W) false addr v m))) a
            = cont (tm m) a).
  { intros a Hne. rewrite (Nat.div_small (length v) W) by lia.
    cbn [INST_Write]. unfold INST_0_false_Write.
    nat_false (offset_of W addr + length v <=? W)%nat.
    rewrite WriteUnaligned_plan.
    apply (write_plan_word_other W W_pos tx cont Hst); [|exact Hne].
    apply (plan_NoDup _ _
             (unaligned_plan_indices W 1 (offset_of W addr) ltac:(lia))). }
  rewrite (relative_effect_is_store W cont (tm m) _ (base_of W addr)
             (offset_of W addr) W v p W_pos
             (base_of_aligned W addr W_pos) Hin Hout).
  unfold store_mem.
  rewrite (base_plus_offset W addr W_pos).
  rewrite length_app, repeat_length.
  replace (Z.of_nat (length v + (W - length v))) with (Z.of_nat W) by lia.
  rewrite nth_app_zeros. reflexivity.
Qed.

End ByAddress.

Lemma map_nth_seq_id (v : list byte) :
  map (fun n => nth n v Byte.x00) (seq 0 (length v)) = v.
Proof.
  apply nth_error_ext. intros n. rewrite nth_error_map_seq.
  destruct (Nat.ltb_spec n (length v)) as [Hlt | Hge].
  - symmetry. apply nth_error_nth'. exact Hlt.
  - symmetry. apply nth_error_None. exact Hge.
Qed.

Lemma store_mem_inside (f : Z -> byte) (addr : Z) (v : list byte) (n : nat) :
  (n < length v)%nat ->
  store_mem f addr v (addr + Z.of_nat n) = nth n v Byte.x00.
Proof.
  intros Hn. unfold store_mem.
  replace (addr <=? addr + Z.of_nat n) with true
    by (symmetry; apply Z.leb_le; lia).
  replace (addr + Z.of_nat n <? addr + Z.of_nat (length v)) with true
    by (symmetry; apply Z.ltb_lt; lia).
  cbn [andb]. f_equal. lia.
Qed.

Lemma store_mem_outside (f : Z -> byte) (addr : Z) (v : list byte) (p : Z) :
  p < addr \/ addr + Z.of_nat (length v) <= p ->
  store_mem f addr v p = f p.
Proof.
  intros Hp. unfold store_mem.
  destruct (Z.leb_spec addr p), (Z.ltb_spec p (addr + Z.of_nat (length v)));
    cbn [andb]; try reflexivity; lia.
Qed.

(** X1: an instrumented read is a load from the memory behind the
    primitives.  For every supported size, alignment flag and address,
    [INST<T>::Read] returns the [sizeof(T)] bytes found at the addresses
    [addr, addr + sizeof(T))], whatever the barrier's buffer held before,
    and no byte of that memory is changed by the read. *)
Theorem INST_Read_is_load (W : nat) (tx : TxThread)
    (cont : tx_state tx -> Z -> Z) (uninit : nat -> byte) (sz : nat)
    (A : bool) (addr : Z) (m : machine (tx_state tx)) :
  (0 < W)%nat -> returns_last_stored tx cont ->
  supported W sz -> well_aligned W sz A addr ->
  fst (INST_Read W tx uninit sz (sz / W) A addr m)
  = map (fun n => byte_at W cont (tm m) (addr + Z.of_nat n)) (seq 0 sz)
  /\ (forall p,
        byte_at W cont
          (tm (snd (INST_Read W tx uninit sz (sz / W) A addr m))) p
        = byte_at W cont (tm m) p).
Proof.
  intros HW Hcont Hs Ha. split.
  - apply INST_Read_load; assumption.
  - intros p. apply INST_Read_keeps; assumption.
Qed.

(** On the word store holding 0x1122334455667788 + a in the word at [a],
    the 4-byte read at address 6 returns 0x22 0x11 from word 0 and
    0x90 0x77 from word 8. *)
Lemma INST_Read_is_load_witness :
  (0 < 8)%nat /\ supported 8 4 /\ well_aligned 8 4 false 6
  /\ fst (INST_Read 8 store_tx (fun _ => Byte.xff) 4 (4 / 8) false 6
            (start (fun a => 0x1122334455667788 + a)))
     = [Byte.x22; Byte.x11; Byte.x90; Byte.x77].
Proof.
  assert (Hs : supported 8 4) by (split; [lia | left; lia]).
  assert (Ha : well_aligned 8 4 false 6) by (intros H; discriminate H).
  split; [lia|]. split; [exact Hs|]. split; [exact Ha|].
  exact (proj1 (INST_Read_is_load 8 store_tx (fun s => s)
                  (fun _ => Byte.xff) 4 false 6
                  (start (fun a => 0x1122334455667788 + a))
                  ltac:(lia) store_tx_returns_last_stored Hs Ha)).
Defined.

(** X2: an instrumented write is a store to the memory behind the
    primitives.  For a value that fills whole words, or a subword value
    that stays inside its word, [INST<T>::Write] leaves that memory as the
    plain store [*addr = value] would: the bytes at
    [addr, addr + sizeof(T))] hold the value, every other byte, in the
    words written and elsewhere, is unchanged. *)
Theorem INST_Write_is_store (W : nat) (tx : TxThread)
    (cont : tx_state tx -> Z -> Z) (A : bool) (addr : Z) (v : list byte)
    (m : machine (tx_state tx)) :
  (0 < W)%nat -> masked_store tx cont ->
  supported W (length v) -> well_aligned W (length v) A addr ->
  ((length v < W)%nat -> (offset_of W addr + length v <= W)%nat) ->
  forall p,
    byte_at W cont (tm (snd (INST_Write W tx (length v / W) A addr v m))) p
    = store_mem (byte_at W cont (tm m)) addr v p.
Proof.
  intros HW Hst Hs Ha Hfit p. apply INST_Write_store; assumption.
Qed.

(** An 8-byte value written at address 4 of a word store full of 0xFF:
    the byte at address 3 keeps 0xFF, the byte at address 11 holds the
    last byte of the value, the byte at address 12 keeps 0xFF. *)
Lemma INST_Write_is_store_witness :
  (0 < 8)%nat /\ supported 8 8 /\ well_aligned 8 8 false 4
  /\ byte_at 8 (fun s : Z -> Z => s)
       (tm (snd (INST_Write 8 store_tx (8 / 8) false 4 bytes_1_to_8
                   (start (fun _ => 0xFFFFFFFFFFFFFFFF))))) 3
     = Byte.xff
  /\ byte_at 8 (fun s : Z -> Z => s)
       (tm (snd (INST_Write 8 store_tx (8 / 8) false 4 bytes_1_to_8
                   (start (fun _ => 0xFFFFFFFFFFFFFFFF))))) 11
     = Byte.x08
  /\ byte_at 8 (fun s : Z -> Z => s)
       (tm (snd (INST_Write 8 store_tx (8 / 8) false 4 bytes_1_to_8
                   (start (fun _ => 0xFFFFFFFFFFFFFFFF))))) 12
     = Byte.xff.
Proof.
  assert (Hs : supported 8 8) by (split; [lia | right; reflexivity]).
  assert (Ha : well_aligned 8 8 false 4) by (intros H; discriminate H).
  split; [lia|]. split; [exact Hs|]. split; [exact Ha|].
  pose proof (INST_Write_is_store 8 store_tx (fun s => s) false 4
                bytes_1_to_8 (start (fun _ => 0xFFFFFFFFFFFFFFFF))
                ltac:(lia) store_tx_masked_store Hs Ha ltac:(cbn; lia))
    as H.
  split; [exact (H 3) | split; [exact (H 11) | exact (H 12)]].
Defined.

(** X3: a subword value that crosses into the next word is not stored
    alone.  [INST<T, 0u, false>::Write] hands it to [WriteUnaligned] with
    N = 1, whose last mask is [0, offset): the memory ends up as after a
    plain store of [sizeof(void* )] bytes, the value followed by zeros, so
    the [sizeof(void* ) - sizeof(T)] bytes after the value are set to
    zero. *)
Theorem overflowing_subword_write_clobbers (W : nat) (tx : TxThread)
    (cont : tx_state tx -> Z -> Z) (addr : Z) (v : list byte)
    (m : machine (tx_state tx)) :
  (0 < W)%nat -> masked_store tx cont ->
  (0 < length v < W)%nat -> (W < offset_of W addr + length v)%nat ->
  let m' := snd (INST_Write W tx (length v / W) false addr v m) in
  (forall p,
     byte_at W cont (tm m') p
     = store_mem (byte_at W cont (tm m)) addr
         (v ++ repeat Byte.x00 (W - length v)) p)
  /\ (forall p,
        addr + Z.of_nat (length v) <= p < addr + Z.of_nat W ->
        byte_at W cont (tm m') p = Byte.x00).
Proof.
  intros HW Hst Hsub Hov m'. subst m'.
  assert (Hall : forall p,
            byte_at W cont
              (tm (snd (INST_Write W tx (length v / W) false addr v m))) p
            = store_mem (byte_at W cont (tm m)) addr
                (v ++ repeat Byte.x00 (W - length v)) p)
    by (intros p; apply overflowing_write_store; assumption).
  split; [exact Hall|].
  intros p Hp. rewrite Hall.
  replace p with (addr + Z.of_nat (Z.to_nat (p - addr))) by lia.
  rewrite store_mem_inside by (rewrite length_app, repeat_length; lia).
  rewrite nth_app_zeros. apply nth_overflow. lia.
Qed.

(** A 2-byte value written at address 7 of a word store full of 0xFF:
    the bytes at addresses 9 to 14 are not part of it and become 0. *)
Lemma overflowing_subword_write_clobbers_witness :
  (0 < 8)%nat /\ (0 < 2 < 8)%nat /\ (8 < offset_of 8 7 + 2)%nat
  /\ byte_at 8 (fun s : Z -> Z => s)
       (tm (snd (INST_Write 8 store_tx (2 / 8) false 7 [Byte.xaa; Byte.xbb]
                   (start (fun _ => 0xFFFFFFFFFFFFFFFF))))) 9
     = Byte.x00
  /\ tm (snd (INST_Write 8 store_tx (2 / 8) false 7 [Byte.xaa; Byte.xbb]
                (start (fun _ => 0xFFFFFFFFFFFFFFFF)))) 8
     = 0xFF000000000000BB.
Proof.
  split; [lia|]. split; [lia|]. split; [cbn; lia|].
  split; [|reflexivity].
  exact (proj2 (overflowing_subword_write_clobbers 8 store_tx
                  (fun s => s) 7 [Byte.xaa; Byte.xbb]
                  (start (fun _ => 0xFFFFFFFFFFFFFFFF))
                  ltac:(lia) store_tx_masked_store
                  ltac:(cbn; lia) ltac:(cbn; lia))
           9 ltac:(cbn; lia)).
Defined.

(** X4: writes to disjoint byte ranges do not disturb each other, also
    inside one word.  A value written at [addr] is read back unchanged
    after a later write of another value (of another type) at [addr'],
    provided the two byte ranges are disjoint and neither write is a
    subword write that crosses a word boundary. *)
Theorem disjoint_write_keeps_value (W : nat) (tx : TxThread)
    (cont : tx_state tx -> Z -> Z) (uninit : nat -> byte) (A A' : bool)
    (addr addr' : Z) (v v' : list byte) (m : machine (tx_state tx)) :
  (0 < W)%nat -> masked_store tx cont ->
  supported W (length v) -> well_aligned W (length v) A addr ->
  ((length v < W)%nat -> (offset_of W addr + length v <= W)%nat) ->
  supported W (length v') -> well_aligned W (length v') A' addr' ->
  ((length v' < W)%nat -> (offset_of W addr' + length v' <= W)%nat) ->
  addr + Z.of_nat (length v) <= addr'
  \/ addr' + Z.of_nat (length v') <= addr ->
  fst (INST_Read W tx uninit (length v) (length v / W) A addr
         (snd (INST_Write W tx (length v' / W) A' addr' v'
                 (snd (INST_Write W tx (length v / W) A addr v m)))))
  = v.
Proof.
  intros HW Hst Hs Ha Hfit Hs' Ha' Hfit' Hdis.
  rewrite (INST_Read_load W HW tx cont uninit (length v) A addr _
             (masked_store_returns_last_stored tx cont Hst) Hs Ha).
  transitivity (map (fun n => nth n v Byte.x00) (seq 0 (length v)));
    [|apply map_nth_seq_id].
  apply map_ext_in. intros n Hn. apply in_seq in Hn.
  rewrite (INST_Write_store W HW tx cont A' addr' v' _ _ Hst Hs' Ha' Hfit').
  rewrite store_mem_outside by lia.
  rewrite (INST_Write_store W HW tx cont A addr v m _ Hst Hs Ha Hfit).
  apply store_mem_inside. lia.
Qed.

(** Two 4-byte values in the halves of one 8-byte word: the one at
    address 0 survives the write of the one at address 4. *)
Lemma disjoint_write_keeps_value_witness :
  (0 < 8)%nat /\ supported 8 4 /\ 0 + 4 <= 4
  /\ fst (INST_Read 8 store_tx (fun _ => Byte.xff) 4 (4 / 8) true 0
            (snd (INST_Write 8 store_tx (4 / 8) true 4
                    [Byte.x05; Byte.x06; Byte.x07; Byte.x08]
                    (snd (INST_Write 8 store_tx (4 / 8) true 0
                            [Byte.x01; Byte.x02; Byte.x03; Byte.x04]
                            (start (fun _ => 0)))))))
     = [Byte.x01; Byte.x02; Byte.x03; Byte.x04].
Proof.
  assert (Hs : supported 8 4) by (split; [lia | left; lia]).
  assert (Ha0 : well_aligned 8 4 true 0)
    by (intros _; split; intros H; cbn in *; lia).
  assert (Ha4 : well_aligned 8 4 true 4)
    by (intros _; split; intros H; cbn in *; lia).
  split; [lia|]. split; [exact Hs|]. split; [lia|].
  exact (disjoint_write_keeps_value 8 store_tx (fun s => s)
           (fun _ => Byte.xff) true true 0 4
           [Byte.x01; Byte.x02; Byte.x03; Byte.x04]
           [Byte.x05; Byte.x06; Byte.x07; Byte.x08]
           (start (fun _ => 0)) ltac:(lia) store_tx_masked_store
           Hs Ha0 ltac:(cbn; lia) Hs Ha4 ltac:(cbn; lia)
           ltac:(left; cbn; lia)).
Defined.

(** ** The barriers and the rest of the machine *)

Lemma read_plan_frame (W : nat) (tx : TxThread) (base : Z)
    (plan : list (nat * Z)) (from : list Z) (m : machine (tx_state tx)) :
  mem (snd (read_plan W tx base plan from m)) = mem m
  /\ undo (snd (read_plan W tx base plan from m)) = undo m.
Proof.
  revert from m; induction plan as [|p plan IH]; intros from m.
  - split; reflexivity.
  - cbn [read_plan]. unfold bind.
    destruct (call_read (tmread tx) (padd W base (fst p)) (snd p) m)
      as [w m1] eqn:E.
    unfold call_read in E.
    destruct (tmread tx (padd W base (fst p)) (snd p) (tm m)) as [w' s].
    inversion E; subst.
    destruct (IH (upd from (fst p) w)
                (Machine s (mem m) (undo m)
                   (trace m ++ [TmRead (padd W base (fst p)) (snd p)])))
      as [Hm Hu].
    split; assumption.
Qed.

Lemma write_plan_frame (W : nat) (tx : TxThread) (base : Z)
    (plan : list (nat * Z)) (to : list Z) (m : machine (tx_state tx)) :
  mem (snd (write_plan W tx base plan to m)) = mem m
  /\ undo (snd (write_plan W tx base plan to m)) = undo m.
Proof.
  revert m; induction plan as [|p plan IH]; intros m.
  - split; reflexivity.
  - cbn [write_plan]. unfold bind, call_write.
    match goal with
    | |- context [write_plan W tx base plan to ?m0] =>
        destruct (IH m0) as [Hm Hu]
    end.
    split; assumption.
Qed.

(** Every specialisation of [INST<T, N, A>] runs one access sequence, the
    same for [Read] and for [Write]. *)
Lemma INST_shape (W : nat) (tx : TxThread) (sz N : nat) (A : bool)
    (addr : Z) :
  exists base plan, plan <> [] /\
    (forall (uninit : nat -> byte) m, exists from (f : list Z -> list byte),
        INST_Read W tx uninit sz N A addr m
        = (f (fst (read_plan W tx base plan from m)),
           snd (read_plan W tx base plan from m)))
    /\ (forall v m, length v = sz -> exists to,
        INST_Write W tx N A addr v m = write_plan W tx base plan to m).
Proof.
  assert (Hsingle :
    exists base plan, plan <> [] /\
      (forall (uninit : nat -> byte) m, exists from (f : list Z -> list byte),
          INST_0_true_Read W tx sz addr m
          = (f (fst (read_plan W tx base plan from m)),
             snd (read_plan W tx base plan from m)))
      /\ (forall v m, length v = sz -> exists to,
          INST_0_true_Write W tx addr v m = write_plan W tx base plan to m)).
  { exists (base_of W addr),
      [(O, make_mask W (offset_of W addr) (offset_of W addr + sz))].
    split; [discriminate|]. split.
    - intros uninit m.
      exists [0], (fun r => load_T sz (words_bytes W r) (offset_of W addr)).
      rewrite INST_0_true_Read_plan.
      destruct (read_plan W tx (base_of W addr) _ [0] m). reflexivity.
    - intros v m Hv. eexists.
      rewrite INST_0_true_Write_plan, Hv. reflexivity. }
  assert (Hwords : forall n,
    exists base plan, plan <> [] /\
      (forall (uninit : nat -> byte) m, exists from (f : list Z -> list byte),
          INST_N_true_Read W tx uninit sz (S n) addr m
          = (f (fst (read_plan W tx base plan from m)),
             snd (read_plan W tx base plan from m)))
      /\ (forall v m, length v = sz -> exists to,
          INST_N_true_Write W tx (S n) addr v m
          = write_plan W tx base plan to m)).
  { intros n. exists addr, (aligned_plan W (S n)).
    split; [unfold aligned_plan; cbn [seq map]; discriminate|]. split.
    - intros uninit m.
      exists (bytes_words W (S n) (map uninit (seq 0 (S n * W)))),
        (fun r => firstn sz
                    (words_bytes W r
                     ++ map uninit (seq (S n * W) (sz - S n * W)))).
      rewrite INST_N_true_Read_plan.
      destruct (read_plan W tx addr _ _ m). reflexivity.
    - intros v m Hv. eexists. rewrite INST_N_true_Write_plan. reflexivity. }
  assert (Hunaligned : forall n,
    exists base plan, plan <> [] /\
      (forall (uninit : nat -> byte) m, exists from (f : list Z -> list byte),
          ReadUnaligned W tx uninit sz n addr (offset_of W addr) m
          = (f (fst (read_plan W tx base plan from m)),
             snd (read_plan W tx base plan from m)))
      /\ (forall v m, length v = sz -> exists to,
          WriteUnaligned W tx n addr v (offset_of W addr) m
          = write_plan W tx base plan to m)).
  { intros n. exists (base_of W addr), (unaligned_plan W n (offset_of W addr)).
    split; [unfold unaligned_plan; discriminate|]. split.
    - intros uninit m.
      exists (bytes_words W (n + 1) (map uninit (seq 0 ((n + 1) * W)))),
        (fun r => load_T sz (words_bytes W r) (offset_of W addr)).
      rewrite ReadUnaligned_plan.
      destruct (read_plan W tx (base_of W addr) _ _ m). reflexivity.
    - intros v m Hv. eexists. rewrite WriteUnaligned_plan. reflexivity. }
  destruct N as [|n], A; cbn [INST_Read INST_Write].
  - exact Hsingle.
  - unfold INST_0_false_Read, INST_0_false_Write.
    destruct (offset_of W addr + sz <=? W)%nat eqn:E.
    + destruct Hsingle as (base & plan & Hne & Hr & Hw).
      exists base, plan. split; [exact Hne|]. split; [exact Hr|].
      intros v m Hv. rewrite Hv, E. apply Hw. exact Hv.
    + destruct (Hunaligned 1%nat) as (base & plan & Hne & Hr & Hw).
      exists base, plan. split; [exact Hne|]. split; [exact Hr|].
      intros v m Hv. rewrite Hv, E. apply Hw. exact Hv.
  - apply Hwords.
  - unfold INST_N_false_Read, INST_N_false_Write.
    destruct (offset_of W addr =? 0)%nat.
    + cbn [INST_aligned_Read INST_aligned_Write]. apply Hwords.
    + apply Hunaligned.
Qed.

Lemma all_tm_reads (W : nat) (base : Z) (plan : list (nat * Z)) :
  forallb is_tm_read
    (map (fun p => TmRead (padd W base (fst p)) (snd p)) plan) = true.
Proof.
  apply forallb_forall. intros e He. apply in_map_iff in He.
  destruct He as (p & <- & _). reflexivity.
Qed.

Lemma all_tm_writes (W : nat) (base : Z) (plan : list (nat * Z))
    (to : list Z) :
  forallb is_tm_write
    (map (fun p => TmWrite (padd W base (fst p)) (nth (fst p) to 0) (snd p))
       plan) = true.
Proof.
  apply forallb_forall. intros e He. apply in_map_iff in He.
  destruct He as (p & <- & _). reflexivity.
Qed.

(** X5: a value written through a write barrier to an address that is not
    stack-local (below the caller's frame, or above the outer scope's
    stack-high watermark) is returned by each of the read barriers
    [_ITM_R], [_ITM_RaR], [_ITM_RaW] and [_ITM_RfW] of the same type, for
    an algorithm that returns for each word the bytes last stored; and
    the three write barriers [_ITM_W], [_ITM_WaR], [_ITM_WaW] do the
    same. *)
Theorem ITM_barrier_round_trip (W : nat) (tx : TxThread)
    (cont : tx_state tx -> Z -> Z) (uninit : nat -> byte) (A : bool)
    (td : ITM_transaction) (frame address : Z) (v : list byte)
    (m : machine (tx_state tx)) :
  (0 < W)%nat -> returns_last_stored tx cont -> supported W (length v) ->
  (A = true -> (length v < W)%nat ->
   (offset_of W address + length v <= W)%nat) ->
  address < frame \/ outer_stackHigh td < address ->
  fst (ITM_R W tx uninit (length v) A address
         (snd (ITM_W W tx A td frame address v m))) = v
  /\ fst (ITM_RaR W tx uninit (length v) A address
            (snd (ITM_W W tx A td frame address v m))) = v
  /\ fst (ITM_RaW W tx uninit (length v) A address
            (snd (ITM_W W tx A td frame address v m))) = v
  /\ fst (ITM_RfW W tx uninit (length v) A address
            (snd (ITM_W W tx A td frame address v m))) = v
  /\ ITM_WaR W tx A td frame address v m = ITM_W W tx A td frame address v m
  /\ ITM_WaW W tx A td frame address v m = ITM_W W tx A td frame address v m.
Proof.
  intros HW Hcont Hs Ha Hloc.
  unfold ITM_RaR, ITM_RaW, ITM_RfW, ITM_WaR, ITM_WaW, ITM_R.
  rewrite ITM_W_locality.
  replace (isStackLocal td frame address) with NotLocal
    by (symmetry; apply isStackLocal_not; exact Hloc).
  pose proof (libitm_round_trip W tx cont uninit A address v m HW Hcont Hs Ha)
    as Hrt.
  repeat split; exact Hrt.
Qed.

(** The 8-byte value 0x0807060504030201 written at address 4, below the
    frame at 50, and read back. *)
Lemma ITM_barrier_round_trip_witness :
  (0 < 8)%nat /\ supported 8 8 /\ (4 < 50 \/ 200 < 4)
  /\ fst (ITM_R 8 store_tx (fun _ => Byte.xff) 8 false 4
            (snd (ITM_W 8 store_tx false
                    {| inner_stackHigh := 100; outer_stackHigh := 200 |}
                    50 4 bytes_1_to_8 (start (fun _ => 0)))))
     = bytes_1_to_8.
Proof.
  assert (Hs : supported 8 8) by (split; [lia | right; reflexivity]).
  split; [lia|]. split; [exact Hs|]. split; [left; lia|].
  exact (proj1 (ITM_barrier_round_trip 8 store_tx (fun s => s)
                  (fun _ => Byte.xff) false
                  {| inner_stackHigh := 100; outer_stackHigh := 200 |}
                  50 4 bytes_1_to_8 (start (fun _ => 0))
                  ltac:(lia) store_tx_returns_last_stored Hs
                  ltac:(intros H; discriminate H) ltac:(left; lia))).
Defined.

(** X6: the instrumented paths touch nothing but the algorithm.  For every
    specialisation, size, alignment flag and address, [INST<T, N, A>::Read]
    leaves plain memory and the undo log as they are and adds to the trace
    at least one event, all of them calls of [tmread]; [::Write] leaves
    plain memory and the undo log as they are and adds at least one event,
    all of them calls of [tmwrite]: it never stores in place and never
    logs. *)
Theorem INST_touches_only_tm (W : nat) (tx : TxThread)
    (uninit : nat -> byte) (sz N : nat) (A : bool) (addr : Z)
    (v : list byte) (m : machine (tx_state tx)) :
  (mem (snd (INST_Read W tx uninit sz N A addr m)) = mem m
   /\ undo (snd (INST_Read W tx uninit sz N A addr m)) = undo m
   /\ exists evs, evs <> []
        /\ trace (snd (INST_Read W tx uninit sz N A addr m)) = trace m ++ evs
        /\ forallb is_tm_read evs = true)
  /\ (mem (snd (INST_Write W tx N A addr v m)) = mem m
      /\ undo (snd (INST_Write W tx N A addr v m)) = undo m
      /\ exists evs, evs <> []
           /\ trace (snd (INST_Write W tx N A addr v m)) = trace m ++ evs
           /\ forallb is_tm_write evs = true).
Proof.
  destruct (INST_shape W tx sz N A addr) as (base & plan & Hne & Hr & _).
  destruct (INST_shape W tx (length v) N A addr)
    as (base' & plan' & Hne' & _ & Hw).
  destruct (Hr uninit m) as (from & f & Er).
  destruct (Hw v m eq_refl) as (to & Ew).
  rewrite Er, Ew. cbn [snd]. split.
  - destruct (read_plan_frame W tx base plan from m) as [Hm Hu].
    split; [exact Hm|]. split; [exact Hu|].
    exists (map (fun p => TmRead (padd W base (fst p)) (snd p)) plan).
    split; [destruct plan; [congruence | discriminate]|].
    split; [apply read_plan_trace | apply all_tm_reads].
  - destruct (write_plan_frame W tx base' plan' to m) as [Hm Hu].
    split; [exact Hm|]. split; [exact Hu|].
    exists (map (fun p => TmWrite (padd W base' (fst p)) (nth (fst p) to 0)
                            (snd p)) plan').
    split; [destruct plan'; [congruence | discriminate]|].
    split; [apply write_plan_trace | apply all_tm_writes].
Qed.

(** X7: a write to a stack-local address (at or above the caller's frame
    and at or below the outer scope's stack-high watermark) never reaches
    the algorithm: its state is unchanged and no [tmread] or [tmwrite] is
    called; the value is stored in place, so a load of the address returns
    it; and below the inner scope's watermark the store is all that
    happens, the undo log staying as it is. *)
Theorem stack_local_write_bypasses_tm (W : nat) (tx : TxThread) (A : bool)
    (td : ITM_transaction) (frame address : Z) (value : list byte)
    (m : machine (tx_state tx)) :
  frame <= address -> address <= outer_stackHigh td ->
  tm (snd (ITM_W W tx A td frame address value m)) = tm m
  /\ mem (snd (ITM_W W tx A td frame address value m))
     = store_mem (mem m) address value
  /\ fst (plain_load (length value) address
            (snd (ITM_W W tx A td frame address value m))) = value
  /\ (exists evs,
        trace (snd (ITM_W W tx A td frame address value m)) = trace m ++ evs
        /\ forallb (fun e => negb (is_tm_access e)) evs = true)
  /\ (address < inner_stackHigh td ->
      undo (snd (ITM_W W tx A td frame address value m)) = undo m
      /\ trace (snd (ITM_W W tx A td frame address value m))
         = trace m ++ [Store address value]).
Proof.
  intros Hf Ho. rewrite ITM_W_locality.
  destruct (Z.ltb_spec address (inner_stackHigh td)) as [Hi | Hi].
  - replace (isStackLocal td frame address) with Direct
      by (symmetry; apply isStackLocal_direct; lia).
    unfold plain_store. cbn [snd tm mem trace undo].
    split; [reflexivity|]. split; [reflexivity|].
    split; [apply (store_mem_load _ address value (mem m)); reflexivity|].
    split; [exists [Store address value]; split; reflexivity|].
    intros _. split; reflexivity.
  - replace (isStackLocal td frame address) with DirectWithUndoLog
      by (symmetry; apply isStackLocal_undo; lia).
    unfold plain_store, scope_log. cbn [snd tm mem trace undo].
    split; [reflexivity|]. split; [reflexivity|].
    split; [apply (store_mem_load _ address value (mem m)); reflexivity|].
    split; [|intros Hlt; lia].
    eexists. rewrite <- app_assoc. split; reflexivity.
Qed.

(** A write at address 60 with the frame at 50 and the watermarks at 100
    and 200: one plain store and nothing else. *)
Lemma stack_local_write_bypasses_tm_witness :
  50 <= 60 /\ 60 <= 200
  /\ trace (snd (ITM_W 8 store_tx false
                   {| inner_stackHigh := 100; outer_stackHigh := 200 |}
                   50 60 bytes_1_to_8 (start (fun _ => 0))))
     = [Store 60 bytes_1_to_8].
Proof.
  split; [lia|]. split; [lia|].
  exact (proj2 (proj2 (proj2 (proj2 (proj2
           (stack_local_write_bypasses_tm 8 store_tx false
              {| inner_stackHigh := 100; outer_stackHigh := 200 |}
              50 60 bytes_1_to_8 (start (fun _ => 0))
              ltac:(lia) ltac:(cbn; lia))))) ltac:(cbn; lia))).
Defined.

Lemma make_mask_full (W : nat) :
  make_mask W 0 W = 2 ^ (8 * Z.of_nat W) - 1.
Proof.
  rewrite Z.sub_1_r, <- Z.ones_equiv.
  apply Z.bits_inj'. intros n Hn.
  rewrite make_mask_testbit by lia.
  rewrite Z.testbit_ones_nonneg by lia.
  destruct (Z.leb_spec (8 * Z.of_nat 0) n), (Z.ltb_spec n (8 * Z.of_nat W));
    cbn [andb]; try reflexivity; lia.
Qed.

(** X8: an access of one or more whole words on a word boundary, or of a
    type the architecture header declares aligned, issues exactly
    N = sizeof(T) / wordsize word accesses, at the address itself and the
    N - 1 words that follow it (no rounding down to a base), each under the
    full mask, which has every bit of the word set; the write hands over
    the words of the value in order.  It complements the N + 1 accesses of
    the unaligned case. *)
Theorem aligned_multiword_accesses (W : nat) (tx : TxThread)
    (uninit : nat -> byte) (A : bool) (addr : Z) (v : list byte)
    (m : machine (tx_state tx)) :
  (0 < W)%nat -> (W <= length v)%nat ->
  A = true \/ offset_of W addr = 0%nat ->
  make_mask W 0 W = 2 ^ (8 * Z.of_nat W) - 1
  /\ trace (snd (INST_Read W tx uninit (length v) (length v / W) A addr m))
     = trace m
       ++ map (fun i => TmRead (addr + Z.of_nat (i * W)) (make_mask W 0 W))
            (seq 0 (length v / W))
  /\ trace (snd (INST_Write W tx (length v / W) A addr v m))
     = trace m
       ++ map (fun i =>
                 TmWrite (addr + Z.of_nat (i * W))
                   (le_combine (firstn W (skipn (i * W) v)))
                   (make_mask W 0 W))
            (seq 0 (length v / W))
  /\ (1 <= length v / W)%nat.
Proof.
  intros HW Hle HA.
  assert (HN : (1 <= length v / W)%nat)
    by (apply Nat.div_le_lower_bound; lia).
  split; [apply make_mask_full|].
  assert (Hwords :
    map (fun i => TmWrite (padd W addr i)
                    (nth i (bytes_words W (length v / W) v) 0)
                    (make_mask W 0 W)) (seq 0 (length v / W))
    = map (fun i => TmWrite (addr + Z.of_nat (i * W))
                      (le_combine (firstn W (skipn (i * W) v)))
                      (make_mask W 0 W)) (seq 0 (length v / W))).
  { apply map_ext_in. intros i Hi. apply in_seq in Hi.
    rewrite nth_bytes_words by lia. reflexivity. }
  destruct (libitm_aligned_addresses W tx uninit (length v) (length v / W)
              addr v m) as [Hr Hw].
  rewrite Hwords in Hw.
  assert (Hsame :
    INST_Read W tx uninit (length v) (length v / W) A addr m
    = INST_N_true_Read W tx uninit (length v) (length v / W) addr m
    /\ INST_Write W tx (length v / W) A addr v m
       = INST_N_true_Write W tx (length v / W) addr v m).
  { destruct (length v / W)%nat as [|n]; [lia|].
    destruct A; cbn [INST_Read INST_Write]; [split; reflexivity|].
    destruct HA as [HA | HA]; [discriminate HA|].
    unfold INST_N_false_Read, INST_N_false_Write. rewrite HA.
    cbn [Nat.eqb INST_aligned_Read INST_aligned_Write]. split; reflexivity. }
  destruct Hsame as [Er Ew]. rewrite Er, Ew.
  split; [exact Hr|]. split; [exact Hw | exact HN].
Qed.

(** A 16-byte value declared aligned, at address 16 with 8-byte words:
    two reads, at 16 and at 24. *)
Lemma aligned_multiword_accesses_witness :
  (0 < 8)%nat /\ (8 <= 16)%nat
  /\ trace (snd (INST_Read 8 store_tx (fun _ => Byte.xff) 16 (16 / 8) true 16
                   (start (fun _ => 0))))
     = [TmRead 16 0xFFFFFFFFFFFFFFFF; TmRead 24 0xFFFFFFFFFFFFFFFF].
Proof.
  split; [lia|]. split; [lia|].
  exact (proj1 (proj2
           (aligned_multiword_accesses 8 store_tx (fun _ => Byte.xff) true 16
              (bytes_1_to_8 ++ bytes_1_to_8) (start (fun _ => 0))
              ltac:(lia) ltac:(cbn; lia) (or_introl eq_refl)))).
Defined.

(** X9: a read barrier and a write barrier of the same type at the same
    address touch the same words under the same masks, in the same order,
    whichever specialisation is selected. *)
Theorem INST_Read_Write_same_words (W : nat) (tx : TxThread)
    (uninit : nat -> byte) (N : nat) (A : bool) (addr : Z) (v : list byte)
    (m m0 : machine (tx_state tx)) :
  exists evr evw,
    trace (snd (INST_Read W tx uninit (length v) N A addr m))
    = trace m ++ evr
    /\ trace (snd (INST_Write W tx N A addr v m0)) = trace m0 ++ evw
    /\ map event_addr evr = map event_addr evw
    /\ map event_mask evr = map event_mask evw
    /\ forallb is_tm_read evr = true
    /\ forallb is_tm_write evw = true.
Proof.
  destruct (INST_shape W tx (length v) N A addr)
    as (base & plan & Hne & Hr & Hw).
  destruct (Hr uninit m) as (from & f & Er).
  destruct (Hw v m0 eq_refl) as (to & Ew).
  exists (map (fun p => TmRead (padd W base (fst p)) (snd p)) plan),
    (map (fun p => TmWrite (padd W base (fst p)) (nth (fst p) to 0) (snd p))
       plan).
  rewrite Er, Ew. cbn [snd].
  split; [apply read_plan_trace|].
  split; [apply write_plan_trace|].
  split; [rewrite !map_map; reflexivity|].
  split; [rewrite !map_map; reflexivity|].
  split; [apply all_tm_reads | apply all_tm_writes].
Qed.

(** ** More on masks *)



(** X11: a range that starts inside the word and is at most a word long
    may end past the word: the [size_t] subtraction wraps around and back,
    the left shift drops what leaves the word, and the mask is that of the
    range cut at the word's end.  The [min] that [read_words] and [write]
    of inst.hpp apply to the upper end therefore changes nothing. *)
Theorem make_mask_clips_at_word_end (W i j : nat) :
  (i < j)%nat -> (i < W)%nat -> (j - i <= W)%nat ->
  make_mask W i j = make_mask W i (min W j)
  /\ (W <= j -> make_mask W i j = make_mask W i W)%nat.
Proof.
  intros Hij Hi Hlen.
  assert (Hclip : make_mask W i j = make_mask W i (Nat.min W j)).
  { apply Z.bits_inj'. intros n Hn.
    rewrite !make_mask_testbit by lia.
    destruct (Z.leb_spec (8 * Z.of_nat i) n),
      (Z.ltb_spec n (8 * Z.of_nat j)),
      (Z.ltb_spec n (8 * Z.of_nat (Nat.min W j))),
      (Z.ltb_spec n (8 * Z.of_nat W));
      cbn [andb]; try reflexivity; lia. }
  split.
  - rewrite Hclip. f_equal. unfold min.
    destruct (Nat.ltb_spec W j); lia.
  - intros HWj. rewrite Hclip. f_equal. lia.
Qed.

(** 8-byte words: the range [6, 10) gives the mask of [6, 8). *)
Lemma make_mask_clips_at_word_end_witness :
  (6 < 10)%nat /\ (6 < 8)%nat /\ (10 - 6 <= 8)%nat
  /\ make_mask 8 6 10 = make_mask 8 6 (min 8 10)
  /\ make_mask 8 6 10 = 0xFFFF000000000000.
Proof.
  split; [lia|]. split; [lia|]. split; [cbn; lia|].
  split; [|reflexivity].
  exact (proj1 (make_mask_clips_at_word_end 8 6 10
                  ltac:(lia) ltac:(lia) ltac:(cbn; lia))).
Defined.

(** ** inst.hpp: the prefilter, the write set and the last word *)

Lemma hit_or_read_hit (W : nat) (St : Type) (uninit : nat -> byte)
    (raw : RAW St) (READ : Z -> Z -> St -> Z * St) (r : raw_local raw)
    (addr : Z) (h g : nat) (mask : Z) (words : list Z) (m : machine St) :
  always_hits raw ->
  snd (hit_or_read W St uninit raw READ r addr h g mask words m) = m.
Proof.
  intros Hh. unfold hit_or_read.
  pose proof (Hh r addr (word_ref W uninit words h) (tm m) mask) as Hhit.
  destruct (raw_hit raw r addr (word_ref W uninit words h) (tm m) mask)
    as [[hit storage] r'].
  cbn [fst] in Hhit. subst hit. reflexivity.
Qed.

Lemma middle_words_hit (W : nat) (St : Type) (uninit : nat -> byte)
    (raw : RAW St) (READ : Z -> Z -> St -> Z * St) (base mask : Z)
    (idx : list nat) (st : list Z * raw_local raw) (m : machine St) :
  always_hits raw ->
  snd (middle_words W St uninit raw READ base mask idx st m) = m.
Proof.
  intros Hh. revert st m; induction idx as [|i idx IH]; intros st m.
  - reflexivity.
  - cbn [middle_words]. unfold bind.
    pose proof (hit_or_read_hit W St uninit raw READ (snd st)
                  (padd W base i) i i mask (fst st) m Hh) as H0.
    destruct (hit_or_read W St uninit raw READ (snd st) (padd W base i) i i
                mask (fst st) m) as [st' m1].
    cbn [snd] in H0. subst m1. apply IH.
Qed.

Lemma read_words_hit (W : nat) (St : Type) (uninit : nat -> byte)
    (sz : nat) (raw : RAW St) (READ : Z -> Z -> St -> Z * St) (N : nat)
    (words : list Z) (base : Z) (off : nat) (m : machine St) :
  always_hits raw ->
  snd (read_words W St uninit sz raw READ N words base off m) = m.
Proof.
  intros Hh. unfold read_words. unfold bind at 1.
  pose proof (hit_or_read_hit W St uninit raw READ (raw_new raw) base 0 0
                (make_mask W off (min W (off + sz))) words m Hh) as H0.
  destruct (hit_or_read W St uninit raw READ (raw_new raw) base 0 0
              (make_mask W off (min W (off + sz))) words m) as [st0 m0].
  cbn [snd] in H0. subst m0. unfold bind at 1.
  pose proof (middle_words_hit W St uninit raw READ base (make_mask W 0 W)
                (seq 1 (N - 1 - 1)) st0 m Hh) as H1.
  destruct (middle_words W St uninit raw READ base (make_mask W 0 W)
              (seq 1 (N - 1 - 1)) st0 m) as [st1 m1].
  cbn [snd] in H1. subst m1.
  destruct ((1 <? N)%nat && negb (off =? 0)%nat).
  - unfold bind.
    pose proof (hit_or_read_hit W St uninit raw READ (snd st1)
                  (padd W base N) (N - 1) N (make_mask W 0 off) (fst st1) m
                  Hh) as H2.
    destruct (hit_or_read W St uninit raw READ (snd st1) (padd W base N)
                (N - 1) N (make_mask W 0 off) (fst st1) m) as [st2 m2].
    cbn [snd] in H2. subst m2. reflexivity.
  - reflexivity.
Qed.

Lemma write_middle_other (W : nat) (St : Type) (uninit : nat -> byte)
    (WRITE : Z -> Z -> Z -> St -> St) (cont : St -> Z -> Z) (base mask : Z)
    (idx : list nat) (words : list Z) (m : machine St) (a : Z) :
  (forall s a0 v k a', a' <> a0 -> cont (WRITE a0 v k s) a' = cont s a') ->
  (forall i, In i idx -> padd W base i <> a) ->
  cont (tm (snd (write_middle W St uninit WRITE base mask idx words m))) a
  = cont (tm m) a.
Proof.
  intros Hother. revert m; induction idx as [|i idx IH]; intros m Hidx.
  - reflexivity.
  - cbn [write_middle]. unfold bind, call_write.
    rewrite IH by (intros j Hj; apply Hidx; right; exact Hj).
    cbn [tm]. apply Hother. intros E. apply (Hidx i); [left; reflexivity|].
    symmetry. exact E.
Qed.

(** X12: an access the prefilter takes is done in place.  [write] stores
    the value at the address and returns, the algorithm's state unchanged
    and its write functor never called, whatever the buffer size and the
    alignment; [read] of the same address then returns the value by a
    plain load, with no read barrier, no look-up in the write set and no
    change of the machine. *)
Theorem inst_prefilter_in_place (W : nat) (St : Type)
    (rd rd_ro : Z -> Z -> St -> Z * St) (WRITE : Z -> Z -> Z -> St -> St)
    (BaseOf : bool -> Z -> Z) (OffsetOf : bool -> Z -> nat)
    (uninit : nat -> byte) (filter : Z -> St -> bool) (raw : RAW St)
    (IsReadOnly : St -> bool) (ALIGNED : bool) (N : nat) (addr : Z)
    (val : list byte) (m : machine St) :
  filter addr (tm m) = true ->
  tm (snd (write W St BaseOf OffsetOf uninit filter WRITE ALIGNED N addr val
             m)) = tm m
  /\ mem (snd (write W St BaseOf OffsetOf uninit filter WRITE ALIGNED N addr
                 val m)) = store_mem (mem m) addr val
  /\ trace (snd (write W St BaseOf OffsetOf uninit filter WRITE ALIGNED N
                   addr val m)) = trace m ++ [Store addr val]
  /\ read W St rd rd_ro BaseOf OffsetOf uninit (length val) filter raw
       IsReadOnly ALIGNED N addr
       (snd (write W St BaseOf OffsetOf uninit filter WRITE ALIGNED N addr
               val m))
     = (val,
        snd (write W St BaseOf OffsetOf uninit filter WRITE ALIGNED N addr
               val m)).
Proof.
  intros Hf. unfold write. rewrite Hf. unfold plain_store. cbn [snd].
  split; [reflexivity|]. split; [reflexivity|]. split; [reflexivity|].
  unfold read. cbn [tm]. rewrite Hf.
  match goal with
  | |- plain_load _ _ ?m1 = _ =>
      pose proof (store_mem_load m1 addr val (mem m) eq_refl) as Hload
  end.
  unfold plain_load in *. cbn [fst] in Hload. rewrite Hload. reflexivity.
Qed.

(** A prefilter that takes the addresses from 1000 on: the 8-byte value
    written at 1004 is stored in place. *)
Lemma inst_prefilter_in_place_witness :
  (1000 <=? 1004) = true
  /\ trace (snd (write 8 (Z -> Z) (fun _ => base_of 8)
                   (fun _ => offset_of 8) (fun _ => Byte.xff)
                   (fun a _ => 1000 <=? a) store_write false 2 1004
                   bytes_1_to_8 (start (fun _ => 0))))
     = [Store 1004 bytes_1_to_8].
Proof.
  split; [reflexivity|].
  exact (proj1 (proj2 (proj2
           (inst_prefilter_in_place 8 (Z -> Z) store_read store_read
              store_write (fun _ => base_of 8) (fun _ => offset_of 8)
              (fun _ => Byte.xff) (fun a _ => 1000 <=? a) (NoRAW (Z -> Z))
              (fun _ => false) false 2 1004 bytes_1_to_8
              (start (fun _ => 0)) eq_refl)))).
Defined.

(** X13: with a one-word buffer the last-word branch of inst.hpp is never
    taken, and a value that stays inside its word comes back from [read]
    after [write], in a read-only transaction and in a writing one, for
    every prefilter that does not take the address and every algorithm
    whose barriers return under a mask what was written under it. *)
Theorem inst_one_word_round_trip (W : nat) (St : Type)
    (rd rd_ro : Z -> Z -> St -> Z * St) (WRITE : Z -> Z -> Z -> St -> St)
    (cont : St -> Z -> Z) (BaseOf : bool -> Z -> Z)
    (OffsetOf : bool -> Z -> nat) (uninit : nat -> byte)
    (filter : Z -> St -> bool) (IsReadOnly : St -> bool) (ALIGNED : bool)
    (addr : Z) (v : list byte) (m : machine St) :
  (forall s a k, Z.land (fst (rd a k s)) k = Z.land (cont s a) k) ->
  (forall s a k, Z.land (fst (rd_ro a k s)) k = Z.land (cont s a) k) ->
  (forall s a w k, Z.land (cont (WRITE a w k s) a) k = Z.land w k) ->
  (forall s, filter addr s = false) ->
  (OffsetOf ALIGNED addr + length v <= W)%nat ->
  fst (read W St rd rd_ro BaseOf OffsetOf uninit (length v) filter
         (NoRAW St) IsReadOnly ALIGNED 1 addr
         (snd (write W St BaseOf OffsetOf uninit filter WRITE ALIGNED 1 addr
                 v m))) = v.
Proof.
  intros Hrd Hro Hwr Hfilter Hfit.
  assert (Ew :
    write W St BaseOf OffsetOf uninit filter WRITE ALIGNED 1 addr v m
    = write W St BaseOf OffsetOf uninit (fun _ _ => false) WRITE ALIGNED 1
        addr v m)
    by (unfold write; rewrite Hfilter; reflexivity).
  assert (Er : forall m1,
    read W St rd rd_ro BaseOf OffsetOf uninit (length v) filter (NoRAW St)
      IsReadOnly ALIGNED 1 addr m1
    = read W St rd rd_ro BaseOf OffsetOf uninit (length v) (fun _ _ => false)
        (NoRAW St) IsReadOnly ALIGNED 1 addr m1)
    by (intros m1; unfold read; rewrite Hfilter; reflexivity).
  rewrite Ew, Er.
  apply (inst_single_word_round_trip W St rd rd_ro WRITE cont); assumption.
Qed.

(** A 2-byte value at offset 3 of an 8-byte word of the word store. *)
Lemma inst_one_word_round_trip_witness :
  (offset_of 8 3 + 2 <= 8)%nat
  /\ fst (read 8 (Z -> Z) store_read store_read (fun _ => base_of 8)
            (fun _ => offset_of 8) (fun _ => Byte.xff) 2 (fun _ _ => false)
            (NoRAW (Z -> Z)) (fun _ => false) false 1 3
            (snd (write 8 (Z -> Z) (fun _ => base_of 8)
                    (fun _ => offset_of 8) (fun _ => Byte.xff)
                    (fun _ _ => false) store_write false 1 3
                    [Byte.xaa; Byte.xbb] (start (fun _ => 0)))))
     = [Byte.xaa; Byte.xbb].
Proof.
  split; [cbn; lia|].
  exact (inst_one_word_round_trip 8 (Z -> Z) store_read store_read
           store_write (fun s => s) (fun _ => base_of 8)
           (fun _ => offset_of 8) (fun _ => Byte.xff) (fun _ _ => false)
           (fun _ => false) false 3 [Byte.xaa; Byte.xbb]
           (start (fun _ => 0))
           (proj1 store_tx_returns_last_stored)
           (proj1 store_tx_returns_last_stored)
           (proj1 (proj2 (proj2 store_tx_returns_last_stored)))
           (fun _ => eq_refl) ltac:(cbn; lia)).
Defined.

(** X14: when the read-after-write policy finds every word (the
    transaction has written all of them), [read] calls no read barrier:
    the machine, trace included, is left exactly as it was, for every
    buffer size, offset and alignment. *)
Theorem inst_read_all_hits_no_barrier (W : nat) (St : Type)
    (rd rd_ro : Z -> Z -> St -> Z * St) (BaseOf : bool -> Z -> Z)
    (OffsetOf : bool -> Z -> nat) (uninit : nat -> byte) (sz : nat)
    (filter : Z -> St -> bool) (raw : RAW St) (IsReadOnly : St -> bool)
    (ALIGNED : bool) (N : nat) (addr : Z) (m : machine St) :
  filter addr (tm m) = false -> IsReadOnly (tm m) = false ->
  always_hits raw ->
  snd (read W St rd rd_ro BaseOf OffsetOf uninit sz filter raw IsReadOnly
         ALIGNED N addr m) = m.
Proof.
  intros Hf Hro Hh. unfold read. rewrite Hf, Hro.
  rewrite snd_let_pair. apply read_words_hit. exact Hh.
Qed.

(** A policy that answers every look-up with the word 7, under the
    [NoReadOnly] policy: an 8-byte read at offset 4 through a two-word
    buffer issues nothing. *)
Lemma inst_read_all_hits_no_barrier_witness :
  trace (snd (read 8 (Z -> Z) store_read store_read (fun _ => base_of 8)
                (fun _ => offset_of 8) (fun _ => Byte.xff) 8
                (fun _ _ => false)
                {| raw_local := unit; raw_new := tt;
                   raw_hit := fun r _ _ _ _ => (true, 7, r);
                   raw_merge := fun _ val _ => val |}
                NoReadOnly_IsReadOnly false 2 4 (start (fun _ => 0))))
  = [].
Proof.
  exact (f_equal trace
           (inst_read_all_hits_no_barrier 8 (Z -> Z) store_read store_read
              (fun _ => base_of 8) (fun _ => offset_of 8) (fun _ => Byte.xff)
              8 (fun _ _ => false)
              {| raw_local := unit; raw_new := tt;
                 raw_hit := fun r _ _ _ _ => (true, 7, r);
                 raw_merge := fun _ val _ => val |}
              NoReadOnly_IsReadOnly false 2 4 (start (fun _ => 0))
              eq_refl eq_refl (fun _ _ _ _ _ => eq_refl))).
Defined.

(** X15: with a buffer of more than one word and a nonzero offset, [write]
    never stores to the word at base + N - 1: that word keeps the content
    it had, for every algorithm whose write changes only the word it is
    given, so the bytes of the value that lie in the last buffer word do
    not reach it. *)
Theorem inst_write_skips_word_before_last (W : nat) (St : Type)
    (WRITE : Z -> Z -> Z -> St -> St) (cont : St -> Z -> Z)
    (BaseOf : bool -> Z -> Z) (OffsetOf : bool -> Z -> nat)
    (uninit : nat -> byte) (filter : Z -> St -> bool) (ALIGNED : bool)
    (N : nat) (addr : Z) (val : list byte) (m : machine St) :
  (0 < W)%nat ->
  (forall s a v k a', a' <> a -> cont (WRITE a v k s) a' = cont s a') ->
  filter addr (tm m) = false -> (1 < N)%nat ->
  OffsetOf ALIGNED addr <> 0%nat ->
  cont (tm (snd (write W St BaseOf OffsetOf uninit filter WRITE ALIGNED N
                   addr val m)))
    (padd W (BaseOf ALIGNED addr) (N - 1))
  = cont (tm m) (padd W (BaseOf ALIGNED addr) (N - 1)).
Proof.
  intros HW Hother Hf HN Hoff. unfold write. rewrite Hf.
  nat_true (1 <? N)%nat.
  nat_false (OffsetOf ALIGNED addr =? 0)%nat.
  cbn [andb negb]. unfold bind at 1. unfold call_write at 1.
  unfold bind at 1.
  match goal with
  | |- context [write_middle W St uninit WRITE ?b ?k ?idx ?ws ?m0] =>
      pose proof (write_middle_other W St uninit WRITE cont b k idx ws m0
                    (padd W b (N - 1)) Hother) as Hmid;
      destruct (write_middle W St uninit WRITE b k idx ws m0) as [u m1]
  end.
  cbn [snd tm] in Hmid. unfold call_write. cbn [snd tm].
  rewrite Hother by (unfold padd; nia).
  rewrite Hmid.
  - apply Hother. unfold padd. nia.
  - intros i Hi. apply in_seq in Hi. unfold padd. nia.
Qed.

(** The 8-byte value at byte address 4 through a two-word buffer: the
    word at byte 8, where its upper half belongs, still holds 0. *)
Lemma inst_write_skips_word_before_last_witness :
  (0 < 8)%nat /\ (1 < 2)%nat /\ offset_of 8 4 <> 0%nat
  /\ tm (snd (store_inst_write (fun _ => Byte.xff) 2 4 bytes_1_to_8
                (start (fun _ => 0)))) 8 = 0.
Proof.
  split; [lia|]. split; [lia|]. split; [cbn; lia|].
  exact (inst_write_skips_word_before_last 8 (Z -> Z) store_write
           (fun s => s) (fun _ => base_of 8) (fun _ => offset_of 8)
           (fun _ => Byte.xff) (fun _ _ => false) false 2 4 bytes_1_to_8
           (start (fun _ => 0)) ltac:(lia)
           (proj2 (proj2 (proj2 store_tx_returns_last_stored)))
           eq_refl ltac:(lia) ltac:(cbn; lia)).
Defined.

(** X16: [read] (when the write set has none of the words) and [write] of
    inst.hpp touch the same word addresses under the same masks, in the
    same order, for every buffer size, offset and alignment: first word,
    middle words and last word are selected by the same tests. *)
Theorem inst_read_write_same_words (W : nat) (St : Type)
    (rd rd_ro : Z -> Z -> St -> Z * St) (WRITE : Z -> Z -> Z -> St -> St)
    (BaseOf : bool -> Z -> Z) (OffsetOf : bool -> Z -> nat)
    (uninit : nat -> byte) (filter : Z -> St -> bool) (raw : RAW St)
    (IsReadOnly : St -> bool) (ALIGNED : bool) (N : nat) (addr : Z)
    (val : list byte) (m m0 : machine St) :
  filter addr (tm m) = false -> filter addr (tm m0) = false ->
  never_hits St raw ->
  exists evr evw,
    trace (snd (read W St rd rd_ro BaseOf OffsetOf uninit (length val)
                  filter raw IsReadOnly ALIGNED N addr m)) = trace m ++ evr
    /\ trace (snd (write W St BaseOf OffsetOf uninit filter WRITE ALIGNED N
                     addr val m0)) = trace m0 ++ evw
    /\ map event_addr evr = map event_addr evw
    /\ map event_mask evr = map event_mask evw
    /\ forallb is_tm_read evr = true
    /\ forallb is_tm_write evw = true.
Proof.
  intros Hf Hf0 Hnh.
  pose proof (inst_read_trace W St rd rd_ro BaseOf OffsetOf uninit
                (length val) filter raw IsReadOnly ALIGNED N addr m Hf Hnh)
    as Hr.
  pose proof (inst_write_trace W St BaseOf OffsetOf uninit filter WRITE
                ALIGNED N addr val m0 Hf0) as Hw.
  cbv zeta in Hr, Hw.
  eexists. eexists.
  split; [exact Hr|]. split; [exact Hw|].
  cbn [map event_addr event_mask forallb is_tm_read is_tm_write andb].
  rewrite !map_app, !map_map, !forallb_app.
  destruct ((1 <? N)%nat && negb (OffsetOf ALIGNED addr =? 0)%nat);
    cbn [map event_addr event_mask forallb is_tm_read is_tm_write andb].
  - repeat split; try reflexivity.
    + rewrite andb_true_r. apply forallb_forall. intros e He.
      apply in_map_iff in He. destruct He as (i & <- & _). reflexivity.
    + rewrite andb_true_r. apply forallb_forall. intros e He.
      apply in_map_iff in He. destruct He as (i & <- & _). reflexivity.
  - repeat split; try reflexivity.
    + rewrite andb_true_r. apply forallb_forall. intros e He.
      apply in_map_iff in He. destruct He as (i & <- & _). reflexivity.
    + rewrite andb_true_r. apply forallb_forall. intros e He.
      apply in_map_iff in He. destruct He as (i & <- & _). reflexivity.
Qed.

(** The 8-byte access at byte address 4 through a two-word buffer on the
    word store: the read and the write both go to bytes 0 and 16. *)
Lemma inst_read_write_same_words_witness :
  never_hits (Z -> Z) (NoRAW (Z -> Z))
  /\ exists evr evw,
       trace (snd (store_inst_read (fun _ => Byte.xff) 8 2 4
                     (start (fun _ => 0)))) = [] ++ evr
       /\ trace (snd (store_inst_write (fun _ => Byte.xff) 2 4 bytes_1_to_8
                        (start (fun _ => 0)))) = [] ++ evw
       /\ map event_addr evr = map event_addr evw
       /\ map event_mask evr = map event_mask evw
       /\ forallb is_tm_read evr = true
       /\ forallb is_tm_write evw = true.
Proof.
  split; [apply NoRAW_never_hits|].
  exact (inst_read_write_same_words 8 (Z -> Z) store_read store_read
           store_write (fun _ => base_of 8) (fun _ => offset_of 8)
           (fun _ => Byte.xff) (fun _ _ => false) (NoRAW (Z -> Z))
           (fun _ => false) false 2 4 bytes_1_to_8 (start (fun _ => 0))
           (start (fun _ => 0)) eq_refl eq_refl
           (NoRAW_never_hits (Z -> Z))).
Defined.

(** X17: with a buffer of more than one word, a value that reaches into
    the last buffer word does not survive [write] followed by [read]
    unless it happens to equal what the read's buffer held before: if
    byte [n] of the value lies in the last buffer word and differs from the
    uninitialised content of the buffer at that place, the value read is
    not the value written, for every algorithm behind the barriers. *)
Theorem inst_multiword_round_trip_loses_last_word (W : nat) (St : Type)
    (rd rd_ro : Z -> Z -> St -> Z * St) (WRITE : Z -> Z -> Z -> St -> St)
    (BaseOf : bool -> Z -> Z) (OffsetOf : bool -> Z -> nat)
    (uninit : nat -> byte) (filter : Z -> St -> bool)
    (IsReadOnly : St -> bool) (ALIGNED : bool) (N : nat) (addr : Z)
    (v : list byte) (m : machine St) (n : nat) :
  (0 < W)%nat -> (forall s, filter addr s = false) -> (1 < N)%nat ->
  (n < length v)%nat ->
  ((N - 1) * W <= OffsetOf ALIGNED addr + n < N * W)%nat ->
  nth n v Byte.x00 <> uninit (OffsetOf ALIGNED addr + n)%nat ->
  fst (read W St rd rd_ro BaseOf OffsetOf uninit (length v) filter
         (NoRAW St) IsReadOnly ALIGNED N addr
         (snd (write W St BaseOf OffsetOf uninit filter WRITE ALIGNED N addr
                 v m))) <> v.
Proof.
  intros HW Hfilter HN Hn Hp Hne Heq.
  pose proof (inst_read_last_word_uninitialised W HW St rd rd_ro BaseOf
                OffsetOf uninit (length v) filter IsReadOnly ALIGNED N addr
                (snd (write W St BaseOf OffsetOf uninit filter WRITE ALIGNED
                        N addr v m)) n (Hfilter _) HN Hn Hp) as Hlast.
  rewrite Heq in Hlast. apply Hne.
  apply (nth_error_nth v n Byte.x00) in Hlast. exact Hlast.
Qed.

(** The 8-byte value at byte address 4 through a two-word buffer that
    held zeros: its byte 4 is 0x05, which lies in the last buffer word, and
    the value does not come back. *)
Lemma inst_multiword_round_trip_loses_last_word_witness :
  (0 < 8)%nat /\ (1 < 2)%nat /\ (4 < length bytes_1_to_8)%nat
  /\ ((2 - 1) * 8 <= offset_of 8 4 + 4 < 2 * 8)%nat
  /\ nth 4 bytes_1_to_8 Byte.x00 <> Byte.x00
  /\ fst (store_inst_read (fun _ => Byte.x00) 8 2 4
            (snd (store_inst_write (fun _ => Byte.x00) 2 4 bytes_1_to_8
                    (start (fun _ => 0))))) <> bytes_1_to_8.
Proof.
  split; [lia|]. split; [lia|]. split; [cbn; lia|]. split; [cbn; lia|].
  split; [discriminate|].
  exact (inst_multiword_round_trip_loses_last_word 8 (Z -> Z) store_read
           store_read store_write (fun _ => base_of 8) (fun _ => offset_of 8)
           (fun _ => Byte.x00) (fun _ _ => false) (fun _ => false) false 2 4
           bytes_1_to_8 (start (fun _ => 0)) 4 ltac:(lia) (fun _ => eq_refl)
           ltac:(lia) ltac:(cbn; lia) ltac:(cbn; lia)
           ltac:(discriminate)).
Defined.

(** ** The words handed to [tmwrite] *)

(** A word that is zero in every byte its mask leaves out has no bit
    outside the mask. *)
Lemma land_mask_id (W : nat) (w k : Z) :
  0 <= w < 2 ^ (8 * Z.of_nat W) ->
  (forall j, (j < W)%nat ->
     byte_of k j = Byte.xff \/ byte_of w j = Byte.x00) ->
  Z.land w k = w.
Proof.
  intros Hw Hbytes. apply Z.bits_inj'. intros n Hn.
  rewrite Z.land_spec.
  destruct (Z.lt_ge_cases n (8 * Z.of_nat W)) as [Hlt | Hge].
  - replace n with (8 * Z.of_nat (Z.to_nat (n / 8)) + n mod 8)
      by (pose proof (Z.div_mod n 8 ltac:(lia));
          pose proof (Z.div_pos n 8 ltac:(lia) ltac:(lia)); lia).
    assert (Hb : 0 <= n mod 8 < 8) by (apply Z.mod_pos_bound; lia).
    assert (Hj : (Z.to_nat (n / 8) < W)%nat).
    { pose proof (Z.div_lt_upper_bound n 8 (Z.of_nat W) ltac:(lia)
                    ltac:(lia)).
      pose proof (Z.div_pos n 8 ltac:(lia) ltac:(lia)). lia. }
    destruct (Hbytes _ Hj) as [Hff | H00].
    + rewrite (mask_bit_of_byte k _ _ true Hb Hff). apply andb_true_r.
    + rewrite (mask_bit_of_byte w _ _ false Hb H00). reflexivity.
  - assert (Hhigh : Z.testbit w n = false).
    { destruct (Z.eq_dec w 0) as [-> | Hnz]; [apply Z.bits_0|].
      apply Z.bits_above_log2; [lia|].
      apply Z.lt_le_trans with (8 * Z.of_nat W); [|assumption].
      apply Z.log2_lt_pow2; lia. }
    rewrite Hhigh. reflexivity.
Qed.

Lemma bytes_words_range (W n : nat) (bs : list byte) (i : nat) :
  0 <= nth i (bytes_words W n bs) 0 < 2 ^ (8 * Z.of_nat W).
Proof.
  destruct (Nat.lt_ge_cases i n) as [Hlt | Hge].
  - rewrite nth_bytes_words by assumption.
    rewrite le_combine_firstn. apply Z.mod_pos_bound.
    apply Z.pow_pos_nonneg; lia.
  - rewrite nth_overflow by (rewrite bytes_words_length; lia).
    split; [lia|]. apply Z.pow_pos_nonneg; lia.
Qed.

Lemma store_T_zero_before (L off q : nat) (v : list byte) :
  (off <= L)%nat -> (q < off)%nat ->
  nth q (store_T (repeat Byte.x00 L) off v) Byte.x00 = Byte.x00.
Proof.
  intros HL Hq. unfold store_T.
  rewrite app_nth1 by (rewrite length_firstn, repeat_length; lia).
  rewrite nth_firstn.
  nat_true (q <? off)%nat.
  apply nth_repeat.
Qed.

Lemma write_plan_within_mask (W : nat) (tx : TxThread) (base : Z)
    (plan : list (nat * Z)) (to : list Z) (m : machine (tx_state tx))
    (a w k : Z) :
  (forall p, In p plan ->
     Z.land (nth (fst p) to 0) (snd p) = nth (fst p) to 0) ->
  In (TmWrite a w k)
    (skipn (length (trace m))
       (trace (snd (write_plan W tx base plan to m)))) ->
  Z.land w k = w.
Proof.
  intros Hplan Hin.
  rewrite write_plan_trace, skipn_length_app in Hin.
  apply in_map_iff in Hin. destruct Hin as (p & Hp & Hmem).
  inversion Hp; subst. apply Hplan. exact Hmem.
Qed.

Lemma unaligned_words_within_mask (W N off : nat) (v : list byte)
    (p : nat * Z) :
  (0 < off < W)%nat -> (1 <= N)%nat -> (length v <= N * W)%nat ->
  In p (unaligned_plan W N off) ->
  Z.land
    (nth (fst p)
       (bytes_words W (N + 1)
          (store_T (repeat Byte.x00 ((N + 1) * W)) off v)) 0) (snd p)
  = nth (fst p)
      (bytes_words W (N + 1)
         (store_T (repeat Byte.x00 ((N + 1) * W)) off v)) 0.
Proof.
  intros Hoff HN Hlen Hin.
  apply (land_mask_id W); [apply bytes_words_range|].
  intros j Hj. unfold unaligned_plan in Hin.
  destruct Hin as [<- | Hin].
  - cbn [fst snd]. destruct (Nat.lt_ge_cases j off) as [Hlo | Hhi].
    + right. rewrite byte_of_bytes_words by lia.
      apply store_T_zero_before; nia.
    + left. apply make_mask_covers; lia.
  - apply in_app_or in Hin. destruct Hin as [Hin | [<- | []]].
    + apply in_map_iff in Hin. destruct Hin as (i & <- & Hi).
      cbn [fst snd]. left. apply make_mask_covers; lia.
    + cbn [fst snd]. destruct (Nat.lt_ge_cases j off) as [Hlo | Hhi].
      * left. apply make_mask_covers; lia.
      * right. rewrite byte_of_bytes_words by lia.
        rewrite (store_T_zero_nth W ltac:(lia)) by nia. apply nth_overflow. nia.
Qed.

Lemma aligned_words_within_mask (W N : nat) (v : list byte) (p : nat * Z) :
  In p (aligned_plan W N) ->
  Z.land (nth (fst p) (bytes_words W N v) 0) (snd p)
  = nth (fst p) (bytes_words W N v) 0.
Proof.
  intros Hin. apply (land_mask_id W); [apply bytes_words_range|].
  intros j Hj. unfold aligned_plan in Hin.
  apply in_map_iff in Hin. destruct Hin as (i & <- & _).
  cbn [fst snd]. left. apply make_mask_covers; lia.
Qed.

Lemma subword_word_within_mask (W off : nat) (v : list byte) :
  (off + length v <= W)%nat ->
  Z.land
    (nth 0 (bytes_words W 1 (store_T (repeat Byte.x00 W) off v)) 0)
    (make_mask W off (off + length v))
  = nth 0 (bytes_words W 1 (store_T (repeat Byte.x00 W) off v)) 0.
Proof.
  intros Hfit. apply (land_mask_id W); [apply bytes_words_range|].
  intros j Hj.
  destruct (Nat.lt_ge_cases j off) as [Hlo | Hhi].
  - right. rewrite byte_of_bytes_words by lia.
    apply store_T_zero_before; lia.
  - destruct (Nat.lt_ge_cases j (off + length v)) as [Hin | Hout].
    + left. apply make_mask_covers; lia.
    + right. rewrite byte_of_bytes_words by lia.
      rewrite (store_T_zero_nth W ltac:(lia)) by lia. apply nth_overflow. lia.
Qed.

(** X18: the word handed to [tmwrite] never has a bit outside its mask.
    The buffers of [WriteUnaligned] and of the subword write start out as
    zeros, and the masks are those of the bytes the value occupies (or
    more), so in every call [tmwrite(addr, val, mask)] of an instrumented
    write [val & mask == val]: an algorithm may log [val] as it is. *)
Theorem INST_Write_value_within_mask (W : nat) (tx : TxThread) (A : bool)
    (addr : Z) (v : list byte) (m : machine (tx_state tx)) (a w k : Z) :
  (0 < W)%nat -> supported W (length v) ->
  well_aligned W (length v) A addr ->
  In (TmWrite a w k)
    (skipn (length (trace m))
       (trace (snd (INST_Write W tx (length v / W) A addr v m)))) ->
  Z.land w k = w.
Proof.
  intros HW [Hpos Hsup] Ha.
  pose proof (offset_of_lt W addr HW) as Hoff.
  assert (Hsingle :
    (offset_of W addr + length v <= W)%nat ->
    In (TmWrite a w k)
      (skipn (length (trace m))
         (trace (snd (INST_0_true_Write W tx addr v m)))) ->
    Z.land w k = w).
  { intros Hfit Hin. rewrite INST_0_true_Write_plan in Hin.
    apply write_plan_within_mask in Hin; [exact Hin|].
    intros p [<- | []]. cbn [fst snd].
    apply subword_word_within_mask. exact Hfit. }
  assert (Hwords : forall n,
    In (TmWrite a w k)
      (skipn (length (trace m))
         (trace (snd (INST_N_true_Write W tx n addr v m)))) ->
    Z.land w k = w).
  { intros n Hin. rewrite INST_N_true_Write_plan in Hin.
    apply write_plan_within_mask in Hin; [exact Hin|].
    intros p Hp. apply aligned_words_within_mask. exact Hp. }
  assert (Hunaligned : forall n,
    (1 <= n)%nat -> (length v <= n * W)%nat -> offset_of W addr <> 0%nat ->
    In (TmWrite a w k)
      (skipn (length (trace m))
         (trace (snd (WriteUnaligned W tx n addr v (offset_of W addr) m)))) ->
    Z.land w k = w).
  { intros n Hn Hlen H0 Hin. rewrite WriteUnaligned_plan in Hin.
    apply write_plan_within_mask in Hin; [exact Hin|].
    intros p Hp. apply unaligned_words_within_mask; try assumption. lia. }
  destruct Hsup as [Hsub | Hmul].
  - rewrite (Nat.div_small _ _ Hsub). destruct A; cbn [INST_Write].
    + destruct (Ha eq_refl) as [Hfit _]. apply Hsingle. exact (Hfit Hsub).
    + unfold INST_0_false_Write.
      destruct (Nat.leb_spec (offset_of W addr + length v) W) as [Hfit | Hov].
      * apply Hsingle. exact Hfit.
      * apply Hunaligned; lia.
  - pose proof (Nat.div_mod_eq (length v) W) as Hdm.
    rewrite Hmul, Nat.add_0_r in Hdm.
    destruct (length v / W)%nat as [|n] eqn:EN; [lia|].
    destruct A; cbn [INST_Write].
    + apply Hwords.
    + unfold INST_N_false_Write.
      destruct (Nat.eqb_spec (offset_of W addr) 0) as [H0 | H0].
      * cbn [INST_aligned_Write]. apply Hwords.
      * apply Hunaligned; lia.
Qed.

(** The 8-byte value at address 4 with 8-byte words: the first word handed
    over is 0x0403020100000000 under the mask 0xFFFFFFFF00000000. *)
Lemma INST_Write_value_within_mask_witness :
  (0 < 8)%nat /\ supported 8 8 /\ well_aligned 8 8 false 4
  /\ Z.land 0x0403020100000000 0xFFFFFFFF00000000 = 0x0403020100000000.
Proof.
  assert (Hs : supported 8 8) by (split; [lia | right; reflexivity]).
  assert (Ha : well_aligned 8 8 false 4) by (intros H; discriminate H).
  split; [lia|]. split; [exact Hs|]. split; [exact Ha|].
  exact (INST_Write_value_within_mask 8 store_tx false 4 bytes_1_to_8
           (start (fun _ => 0)) 0 0x0403020100000000 0xFFFFFFFF00000000
           ltac:(lia) Hs Ha (or_introl eq_refl)).
Defined.

(** X19: the buffer of [stm::inst::write] is not initialised, so the first
    word it hands to the write functor carries, in every byte below the
    offset, whatever the buffer held before, and the mask excludes those
    bytes: unlike the words of libitm-5.12.cpp, the word is not zero
    outside its mask and only the masked bytes of it mean anything. *)
Theorem inst_write_hands_over_uninitialised_bytes (W : nat) (St : Type)
    (WRITE : Z -> Z -> Z -> St -> St) (BaseOf : bool -> Z -> Z)
    (OffsetOf : bool -> Z -> nat) (uninit : nat -> byte)
    (filter : Z -> St -> bool) (ALIGNED : bool) (N : nat) (addr : Z)
    (val : list byte) (m : machine St) (j : nat) :
  filter addr (tm m) = false -> (1 <= N)%nat ->
  (j < OffsetOf ALIGNED addr < W)%nat ->
  exists w k rest,
    skipn (length (trace m))
      (trace (snd (write W St BaseOf OffsetOf uninit filter WRITE ALIGNED N
                     addr val m)))
    = TmWrite (BaseOf ALIGNED addr) w k :: rest
    /\ byte_of w j = uninit j
    /\ byte_of k j = Byte.x00.
Proof.
  intros Hf HN Hj.
  rewrite inst_write_trace by exact Hf. rewrite skipn_length_app.
  eexists. eexists. eexists. split; [reflexivity|]. split.
  - unfold word_ref, write_words.
    rewrite (nth_indep _ _ 0) by (rewrite bytes_words_length; lia).
    rewrite byte_of_bytes_words by lia. cbn [Nat.mul Nat.add].
    unfold store_T.
    rewrite app_nth1
      by (rewrite length_firstn, length_map, length_seq; nia).
    rewrite nth_firstn.
    nat_true (j <? OffsetOf ALIGNED addr)%nat.
    rewrite (nth_indep _ Byte.x00 (uninit O))
      by (rewrite length_map, length_seq; nia).
    rewrite map_nth, seq_nth by nia. reflexivity.
  - apply make_mask_misses; unfold min;
      destruct (Nat.ltb_spec W (OffsetOf ALIGNED addr + length val)); lia.
Qed.

(** A 2-byte value at offset 3 of an 8-byte word, the buffer holding 0xFF
    before: byte 1 of the word handed over is 0xFF. *)
Lemma inst_write_hands_over_uninitialised_bytes_witness :
  (1 <= 1)%nat /\ (1 < offset_of 8 3 < 8)%nat
  /\ exists w k rest,
       skipn 0
         (trace (snd (write 8 (Z -> Z) (fun _ => base_of 8)
                        (fun _ => offset_of 8) (fun _ => Byte.xff)
                        (fun _ _ => false) store_write false 1 3
                        [Byte.xaa; Byte.xbb] (start (fun _ => 0)))))
       = TmWrite 0 w k :: rest
       /\ byte_of w 1 = Byte.xff
       /\ byte_of k 1 = Byte.x00.
Proof.
  split; [lia|]. split; [cbn; lia|].
  exact (inst_write_hands_over_uninitialised_bytes 8 (Z -> Z) store_write
           (fun _ => base_of 8) (fun _ => offset_of 8) (fun _ => Byte.xff)
           (fun _ _ => false) false 1 3 [Byte.xaa; Byte.xbb]
           (start (fun _ => 0)) 1%nat eq_refl ltac:(lia) ltac:(cbn; lia)).
Defined.
